(** * Routing core of the Aerospike Go client: error values and partition maps

    A shallow embedding of [error.go] and [partitions.go].

    - Error values are Go pointers to [AerospikeError] structs.  Several
      interface values may hold the same pointer and the private mutators
      write through it, so the structs live in an explicit heap and the
      operations run in a state-and-failure monad over that heap.
    - The grid of a [Partitions] value is read by [validate] and resized by
      [setReplicaCount]; both are modelled on the contents of the slices.
      [clone] is about sharing of backing arrays and is modelled in module
      [Mem] on a store of arrays with slice headers pointing into it. *)

From stdpp Require Import gmap strings list fin_maps pretty.
From Stdlib Require Import ZArith Lia.

Open Scope Z_scope.
Open Scope nat_scope.

(** ** Declarations made outside the verified files *)

(** [types.ResultCode] is an integer type. *)
Abbreviation types_ResultCode := Z.

(** A [*Node]: [None] is the nil pointer, [Some a] a pointer to the node
    allocated at address [a].  The [Node] struct itself is never inspected
    by the code below. *)
Abbreviation NodePtr := (option positive).

(** The [types] package and the package constant [_PARTITIONS] are declared
    in files that are not part of this development; the code is verified for
    every value they may have. *)
Class Decls := {
  _PARTITIONS : nat;
  COMMON_ERROR : types_ResultCode;
  INVALID_CLUSTER_PARTITION_MAP : types_ResultCode;
  ResultCodeToString : types_ResultCode → string;
}.

Record stackFrame := mkStackFrame { fl : string; fn : string; ln : Z }.

(** What the Go runtime decides: the frames [runtime.Caller] reports, and
    the order in which a [range] over a map (or [sync.Map.Range]) yields the
    entries, which is some enumeration of the map without repetition. *)
Class GoRuntime := {
  runtime_Caller : nat → option stackFrame;
  range_map : ∀ A : Type, gmap string A → list (string * A);
  range_map_perm : ∀ (A : Type) (m : gmap string A), range_map A m ≡ₚ map_to_list m;
}.
Arguments range_map {_ _} _.

(** ** Error values ([error.go]) *)

(** Addresses of [AerospikeError] structs in the heap. *)
Abbreviation loc := nat.

(** A value of interface type [error].  [*AerospikeError] and
    [*constAerospikeError] are the two implementations of the [Error]
    interface; a [constAerospikeError] has the embedded [AerospikeError] as its
    only field, so both pointers are the address of an [AerospikeError] struct.
    Errors of other packages are immutable values: [errors.New] and
    [fmt.Errorf] with one [%w] operand. *)
Inductive error : Type :=
  | nil_error
  | ptr_AerospikeError (l : loc)
  | ptr_constAerospikeError (l : loc)
  | errorString (s : string)
  | wrapError (s : string) (err : error).

Record AerospikeError := mkAerospikeError {
  wrapped : error;
  msg : string;
  Node : NodePtr;
  ResultCode : types_ResultCode;
  InDoubt : bool;
  Iteration : Z;
  stackFrames : list stackFrame;
}.

Global Instance error_eq_dec : EqDecision error.
Proof. solve_decision. Defined.

Definition set_wrapped (w : error) (a : AerospikeError) : AerospikeError :=
  mkAerospikeError w (msg a) (Node a) (ResultCode a) (InDoubt a) (Iteration a) (stackFrames a).
Definition set_Node (n : NodePtr) (a : AerospikeError) : AerospikeError :=
  mkAerospikeError (wrapped a) (msg a) n (ResultCode a) (InDoubt a) (Iteration a) (stackFrames a).
Definition set_InDoubt (b : bool) (a : AerospikeError) : AerospikeError :=
  mkAerospikeError (wrapped a) (msg a) (Node a) (ResultCode a) b (Iteration a) (stackFrames a).
Definition set_Iteration (i : Z) (a : AerospikeError) : AerospikeError :=
  mkAerospikeError (wrapped a) (msg a) (Node a) (ResultCode a) (InDoubt a) i (stackFrames a).

(** The dynamic type implements the [Error] interface (a nil interface value
    holds no type and fails the type assertion [inner.(Error)]). *)
Definition is_Error (e : error) : bool :=
  match e with
  | ptr_AerospikeError _ | ptr_constAerospikeError _ => true
  | _ => false
  end.

(** *** The heap and its monad *)

Abbreviation heap := (list AerospikeError).

(** A computation reads and writes the heap; [None] is a run-time panic
    (nil or invalid pointer dereference). *)
Definition M (A : Type) : Type := heap → option (A * heap).

Global Instance M_ret : MRet M := λ A x h, Some (x, h).
Global Instance M_bind : MBind M := λ A B f m h,
  match m h with
  | Some (x, h') => f x h'
  | None => None
  end.

Definition panic {A} : M A := λ _, None.

(** [*l] *)
Definition load (l : loc) : M AerospikeError := λ h,
  match h !! l with
  | Some a => Some (a, h)
  | None => None
  end.

(** [*l = a] *)
Definition store (l : loc) (a : AerospikeError) : M unit := λ h,
  if decide (l < length h) then Some (tt, <[l := a]> h) else None.

(** A struct value that escapes: a fresh address holding [a]. *)
Definition alloc (a : AerospikeError) : M loc := λ h, Some (length h, h ++ [a]).

(** Two's-complement wrap-around of Go's 64-bit [int]. *)
Definition wrap_int (z : Z) : Z := ((z + 2 ^ 63) mod 2 ^ 64 - 2 ^ 63)%Z.

Section Errors.
Context {decls : Decls} {runtime : GoRuntime}.

(** [stackTrace]: at most [maxDepth + 1] frames, starting at caller 3. *)
Fixpoint stackTrace_loop (n i : nat) (sFrames : list stackFrame) : list stackFrame :=
  match n with
  | 0 => sFrames
  | S n' =>
    match runtime_Caller i with
    | None => sFrames
    | Some sFrame => stackTrace_loop n' (S i) (sFrames ++ [sFrame])
    end
  end.

Definition stackTrace (err : error) : list stackFrame :=
  let maxDepth := 10 in
  let sFrames := stackTrace_loop (maxDepth + 1) 3 [] in
  if bool_decide (0 < length sFrames) then sFrames else [].

(** [strings.Join] *)
Fixpoint strings_Join (elems : list string) (sep : string) : string :=
  match elems with
  | [] => ""
  | [s] => s
  | s :: rest => s +:+ sep +:+ strings_Join rest sep
  end.

Definition newError (code : types_ResultCode) (messages : list string) : M error :=
  let messages :=
    if bool_decide (length messages = 0) then [ResultCodeToString code] else messages in
  l ← alloc (mkAerospikeError nil_error (strings_Join messages " ") None code false 0
               (stackTrace nil_error));
  mret (ptr_AerospikeError l).

(** The receiver of a method of [*AerospikeError]: for a
    [*constAerospikeError] the promoted method receives the address of the
    embedded struct. *)
Definition receiver (e : error) : M loc :=
  match e with
  | ptr_AerospikeError l | ptr_constAerospikeError l => mret l
  | _ => panic
  end.

Definition wrap (ase : loc) (err : error) : M error :=
  a ← load ase;
  _ ← store ase (set_wrapped err a);
  mret (ptr_AerospikeError ase).

Definition newCommonError (e : error) (messages : list string) : M error :=
  ne ← newError COMMON_ERROR messages;
  l ← receiver ne;
  _ ← wrap l e;
  mret ne.

Definition setInDoubt (ase : loc) (isRead commandWasSent : bool) : M error :=
  a ← load ase;
  _ ← (if negb isRead && commandWasSent then store ase (set_InDoubt true a) else mret tt);
  mret (ptr_AerospikeError ase).

Definition setNode (ase : loc) (node : NodePtr) : M error :=
  a ← load ase;
  _ ← store ase (set_Node node a);
  mret (ptr_AerospikeError ase).

Definition markInDoubt (ase : loc) (v : bool) : M error :=
  a ← load ase;
  _ ← store ase (set_InDoubt v a);
  mret (ptr_AerospikeError ase).

Definition markInDoubtIf (ase : loc) (inDoubt : bool) : M error :=
  a ← load ase;
  _ ← store ase (set_InDoubt inDoubt a);
  mret (ptr_AerospikeError ase).

Definition resultCode (ase : loc) : M types_ResultCode :=
  a ← load ase; mret (ResultCode a).

(** [iter] accepts a nil receiver. *)
Definition iter (ase : option loc) (i : Z) : M error :=
  match ase with
  | None => mret nil_error
  | Some l =>
    a ← load l;
    _ ← store l (set_Iteration (wrap_int (i - 1)) a);
    mret (ptr_AerospikeError l)
  end.

Definition IsInDoubt (ase : loc) : M bool :=
  a ← load ase; mret (InDoubt a).

Definition Unwrap (ase : loc) : M error :=
  a ← load ase; mret (wrapped a).

(** The dynamic value of the [target] argument of the method [As]: a
    pointer to an [AerospikeError] struct, or a value of any other type, such
    as the pointer to a variable of type [*AerospikeError] that [errors.As]
    hands to the method. *)
Inductive As_target : Type :=
  | target_AerospikeError (ae : loc)
  | target_other.

(** The method [As]: only a target that is itself a [*AerospikeError] passes
    the type assertion; it then receives five fields of the receiver. *)
Definition As (ase : loc) (target : As_target) : M bool :=
  match target with
  | target_AerospikeError ae =>
    a ← load ase;
    t ← load ae;
    _ ← store ae (mkAerospikeError (wrapped a) (msg a) (Node a) (ResultCode a) (InDoubt a)
                    (Iteration t) (stackFrames t));
    mret true
  | target_other => mret false
  end.

(** [errors.As(err, &ae)] with [ae] of type [*AerospikeError], as [Matches]
    calls it.  The standard library walks the chain of [err]:
    - a [*AerospikeError] is assignable to the target and is stored in [ae];
    - a [*constAerospikeError] is not assignable; its promoted method [As]
      receives the pointer to the variable [ae], that is [As _ target_other],
      which answers false and writes nothing; the walk goes on with its
      promoted [Unwrap];
    - [fmt.Errorf] values are unwrapped, [errors.New] values end the walk.
    The result is [Some (Some l)] when [ae] was set to [l], [Some None] when
    the answer is false, and [None] when the walk did not end within [fuel]
    steps. *)
Fixpoint errors_As (fuel : nat) (h : heap) (err : error) : option (option loc) :=
  match fuel with
  | 0 => None
  | S fuel' =>
    match err with
    | nil_error => Some None
    | ptr_AerospikeError l => Some (Some l)
    | ptr_constAerospikeError l =>
      match h !! l with
      | Some a => errors_As fuel' h (wrapped a)
      | None => None
      end
    | errorString _ => Some None
    | wrapError _ err' => errors_As fuel' h err'
    end
  end.

(** [Matches] reads the heap only.  [None]: no answer within [fuel] nested
    calls (the method recurses along the wrap chain without a bound). *)
Fixpoint Matches (fuel : nat) (h : heap) (ase : option loc) (rcs : list types_ResultCode)
  : option bool :=
  match fuel with
  | 0 => None
  | S fuel' =>
    match ase with
    | None => Some false
    | Some l =>
      if bool_decide (length rcs = 0) then Some false
      else
        match h !! l with
        | None => None
        | Some a =>
          if existsb (Z.eqb (ResultCode a)) rcs then Some true
          else
            match wrapped a with
            | nil_error => Some false
            | w =>
              match errors_As fuel' h w with
              | None => None
              | Some None => Some false
              | Some (Some ae) => Matches fuel' h (Some ae) rcs
              end
            end
        end
    end
  end.

(** [newConstError] builds one of the package-level sentinel instances. *)
Definition newConstError (code : types_ResultCode) (messages : list string) : M error :=
  let messages :=
    if bool_decide (length messages = 0) then [ResultCodeToString code] else messages in
  l ← alloc (mkAerospikeError nil_error (strings_Join messages " ") None code false 0 []);
  mret (ptr_constAerospikeError l).

(** The package-level variable [ErrInvalidPartitionMap] holds the address the
    sentinel got when the package was initialised. *)
Class Globals := { ErrInvalidPartitionMap : loc }.

Definition ErrInvalidPartitionMap_init : M error :=
  newConstError INVALID_CLUSTER_PARTITION_MAP
    ["Partition map errors normally occur when the cluster has partitioned due to network anomaly or node crash, or is not configured properly. Refer to https://www.aerospike.com/docs/operations/configure for more information."].

(** Method [err] of a sentinel: [v] is a copy of the embedded struct. *)
Definition err (ase : loc) : M error :=
  c ← load ase;
  v ← alloc c;
  _ ← wrap v nil_error;
  mret (ptr_AerospikeError v).

Definition chainErrors (outer inner : error) : M error :=
  match inner, outer with
  | nil_error, nil_error => mret nil_error
  | nil_error, _ => mret outer
  | _, nil_error => if is_Error inner then mret inner else newCommonError inner []
  | _, _ =>
    match outer with
    | ptr_constAerospikeError l | ptr_AerospikeError l =>
      t ← load l;
      ae ← alloc t;
      a ← load ae;
      _ ← store ae (set_wrapped inner a);
      mret (ptr_AerospikeError ae)
    | _ => panic
    end
  end.

(** The private mutators, as one family. *)
Inductive mutation : Type :=
  | by_setInDoubt (isRead commandWasSent : bool)
  | by_setNode (node : NodePtr)
  | by_markInDoubt (v : bool)
  | by_markInDoubtIf (inDoubt : bool)
  | by_wrap (e : error)
  | by_iter (i : Z).

Definition mutate (m : mutation) (ase : loc) : M error :=
  match m with
  | by_setInDoubt isRead commandWasSent => setInDoubt ase isRead commandWasSent
  | by_setNode node => setNode ase node
  | by_markInDoubt v => markInDoubt ase v
  | by_markInDoubtIf inDoubt => markInDoubtIf ase inDoubt
  | by_wrap e => wrap ase e
  | by_iter i => iter (Some ase) i
  end.

End Errors.

(** *** The wrap chain of an error *)

(** What unwrapping an error once yields, for the errors that have an
    [Unwrap] method. *)
Definition unwrap_of (h : heap) (e : error) : option error :=
  match e with
  | ptr_AerospikeError l | ptr_constAerospikeError l => wrapped <$> h !! l
  | wrapError _ e' => Some e'
  | _ => None
  end.

(** The result code carried by an error, when it is one of this package. *)
Definition code_of (h : heap) (e : error) : option types_ResultCode :=
  match e with
  | ptr_AerospikeError l | ptr_constAerospikeError l => ResultCode <$> h !! l
  | _ => None
  end.

(** [in_chain h e e']: [e'] is [e] or one of the errors wrapped down its
    chain. *)
Inductive in_chain (h : heap) : error → error → Prop :=
  | in_chain_here e : e ≠ nil_error → in_chain h e e
  | in_chain_next e w e' : unwrap_of h e = Some w → in_chain h w e' → in_chain h e e'.

(** Some error of the chain of [e] carries one of the codes [rcs]. *)
Definition chain_has_code (h : heap) (e : error) (rcs : list types_ResultCode) : Prop :=
  ∃ e' c, in_chain h e e' ∧ code_of h e' = Some c ∧ c ∈ rcs.

(** What [Matches] looks at.  [As_finds h e ae]: the walk of [errors.As]
    from [e] stops at the [*AerospikeError] [ae]. *)
Inductive As_finds (h : heap) : error → loc → Prop :=
  | As_here l : As_finds h (ptr_AerospikeError l) l
  | As_through_sentinel l a ae :
      h !! l = Some a → As_finds h (wrapped a) ae →
      As_finds h (ptr_constAerospikeError l) ae
  | As_through_wrapError s e ae :
      As_finds h e ae → As_finds h (wrapError s e) ae.

(** [Matches_visits h l l']: a call of [Matches] on [l] that finds no code on
    the way compares the code of [l']. *)
Inductive Matches_visits (h : heap) : loc → loc → Prop :=
  | visits_receiver l : Matches_visits h l l
  | visits_next l a ae l' :
      h !! l = Some a → As_finds h (wrapped a) ae → Matches_visits h ae l' →
      Matches_visits h l l'.

(** The chain of [e] ends: following [Unwrap] from [e] reaches an error with
    nothing wrapped (the chain is not cyclic). *)
Inductive chain_ends (h : heap) : error → Prop :=
  | ends_nil : chain_ends h nil_error
  | ends_errorString s : chain_ends h (errorString s)
  | ends_wrapError s e : chain_ends h e → chain_ends h (wrapError s e)
  | ends_AerospikeError l a :
      h !! l = Some a → chain_ends h (wrapped a) → chain_ends h (ptr_AerospikeError l)
  | ends_sentinel l a :
      h !! l = Some a → chain_ends h (wrapped a) → chain_ends h (ptr_constAerospikeError l).

(** The chain of [e] ends and holds no [*constAerospikeError]. *)
Inductive plain_chain (h : heap) : error → Prop :=
  | plain_nil : plain_chain h nil_error
  | plain_errorString s : plain_chain h (errorString s)
  | plain_wrapError s e : plain_chain h e → plain_chain h (wrapError s e)
  | plain_AerospikeError l a :
      h !! l = Some a → plain_chain h (wrapped a) → plain_chain h (ptr_AerospikeError l).

(** *** The other constructors, [Is] and [newNodeError] *)

(** The other result codes of package [types] that [error.go] names. *)
Class ResultCodes := {
  OK : types_ResultCode;
  TIMEOUT : types_ResultCode;
  NETWORK_ERROR : types_ResultCode;
  SERVER_ERROR : types_ResultCode;
  BATCH_FAILED : types_ResultCode;
  NO_RESPONSE : types_ResultCode;
  MAX_ERROR_RATE : types_ResultCode;
  MAX_RETRIES_EXCEEDED : types_ResultCode;
  SERIALIZE_ERROR : types_ResultCode;
  SERVER_NOT_AVAILABLE : types_ResultCode;
  NO_AVAILABLE_CONNECTIONS_TO_NODE : types_ResultCode;
  QUERY_TERMINATED : types_ResultCode;
  SCAN_TERMINATED : types_ResultCode;
  INVALID_NODE_ERROR : types_ResultCode;
  PARSE_ERROR : types_ResultCode;
}.

(** What the code reads of a [*kvs.AerospikeResponsePayload]: the answers of
    its two getters. *)
Record kvs_AerospikeResponsePayload := mkPayload {
  GetStatus : Z;
  GetInDoubt : bool;
}.

(** [new(AerospikeError)], [&AerospikeError{}]: the zero value of the
    struct. *)
Definition zero_AerospikeError : AerospikeError :=
  mkAerospikeError nil_error "" None 0 false 0 [].

Section Constructors.
Context {decls : Decls} {codes : ResultCodes} {runtime : GoRuntime}.

Definition newErrorAndWrap (e : error) (code : types_ResultCode) (messages : list string)
  : M error :=
  ne ← newError code messages;
  l ← receiver ne;
  _ ← wrap l e;
  mret ne.

Definition newTimeoutError (e : error) (messages : list string) : M error :=
  ne ← newError TIMEOUT messages;
  l ← receiver ne;
  _ ← wrap l e;
  mret ne.

Definition newWrapNetworkError (err : error) (messages : list string) : M error :=
  ne ← newError NETWORK_ERROR messages;
  l ← receiver ne;
  _ ← wrap l err;
  mret ne.

Definition newCustomNodeError (node : NodePtr) (code : types_ResultCode)
    (messages : list string) : M error :=
  ne ← newError code messages;
  l ← receiver ne;
  _ ← setNode l node;
  mret ne.

(** [newError(resultCode).markInDoubt(res.GetInDoubt())] *)
Definition newError_markInDoubt (code : types_ResultCode) (messages : list string)
    (v : bool) : M error :=
  ne ← newError code messages;
  l ← receiver ne;
  markInDoubt l v.

(** [newGrpcStatusError]: a status that is not negative is the result code;
    the [switch] translates the negative ones it lists, one of them ([-9])
    returning at once, and leaves [resultCode] at [types.OK] for the others. *)
Definition newGrpcStatusError (res : kvs_AerospikeResponsePayload) : M error :=
  if decide (0 ≤ GetStatus res)%Z then
    newError_markInDoubt (GetStatus res) [] (GetInDoubt res)
  else
    match GetStatus res with
    | (-16)%Z => newError_markInDoubt BATCH_FAILED [] (GetInDoubt res)
    | (-15)%Z => newError_markInDoubt NO_RESPONSE [] (GetInDoubt res)
    | (-12)%Z => newError_markInDoubt MAX_ERROR_RATE [] (GetInDoubt res)
    | (-11)%Z => newError_markInDoubt MAX_RETRIES_EXCEEDED [] (GetInDoubt res)
    | (-10)%Z => newError_markInDoubt SERIALIZE_ERROR [] (GetInDoubt res)
    | (-9)%Z =>
      newError_markInDoubt SERVER_ERROR ["Server ASYNC_QUEUE_FULL"] (GetInDoubt res)
    | (-8)%Z => newError_markInDoubt SERVER_NOT_AVAILABLE [] (GetInDoubt res)
    | (-7)%Z => newError_markInDoubt NO_AVAILABLE_CONNECTIONS_TO_NODE [] (GetInDoubt res)
    | (-5)%Z => newError_markInDoubt QUERY_TERMINATED [] (GetInDoubt res)
    | (-4)%Z => newError_markInDoubt SCAN_TERMINATED [] (GetInDoubt res)
    | (-3)%Z => newError_markInDoubt INVALID_NODE_ERROR [] (GetInDoubt res)
    | (-2)%Z => newError_markInDoubt PARSE_ERROR [] (GetInDoubt res)
    | (-1)%Z => newError_markInDoubt COMMON_ERROR [] (GetInDoubt res)
    | _ => newError_markInDoubt OK [] (GetInDoubt res)
    end.

End Constructors.

(** The method [Is] reads the heap only.  It accepts a nil receiver; the
    target is the struct of a [*AerospikeError], or the struct embedded in a
    [*constAerospikeError]; any other error is no match. *)
Definition Is (h : heap) (ase : option loc) (e : error) : option bool :=
  match ase, e with
  | None, _ => Some false
  | Some _, nil_error => Some false
  | Some l, (ptr_AerospikeError t | ptr_constAerospikeError t) =>
    a ← h !! l;
    target ← h !! t;
    let res := bool_decide (ResultCode a = ResultCode target)
               && (bool_decide (Node a = Node target) || bool_decide (Node target = None)) in
    Some (if InDoubt target then res && bool_decide (InDoubt a = InDoubt target) else res)
  | Some _, _ => Some false
  end.

Global Arguments Is : simpl never.

(** [errors.Is(err, target)] of the standard library.  For a nil [target] the
    answer is [err == nil].  Otherwise it walks the chain of [err]: it answers
    true at an error that is [target] itself (error values of this package are
    pointers, compared by address) or whose method [Is] accepts [target]
    (both error types of this package have the method, the errors of other
    packages modelled here have none), and goes on with what [Unwrap] yields
    until that is nil or an error with no [Unwrap].  [None]: an invalid
    pointer, or the walk did not end within [fuel] steps. *)
Fixpoint errors_Is (fuel : nat) (h : heap) (err target : error) : option bool :=
  match fuel with
  | 0 => None
  | S fuel' =>
    if bool_decide (target = nil_error) then Some (bool_decide (err = nil_error))
    else if bool_decide (err = target) then Some true
    else
      match err with
      | nil_error => Some false
      | ptr_AerospikeError l | ptr_constAerospikeError l =>
        match Is h (Some l) target with
        | None => None
        | Some true => Some true
        | Some false =>
          match h !! l with
          | None => None
          | Some a => errors_Is fuel' h (wrapped a) target
          end
        end
      | errorString _ => Some false
      | wrapError _ err' => errors_Is fuel' h err' target
      end
  end.

(** [newNodeError]: [errors.As] makes [ae] point to the first
    [*AerospikeError] of the chain of [err]; when there is none, [ae] still
    points to the zero struct it was initialised with.  The result is a copy
    [res] of the struct [ae] points to, with [node] set, wrapping [err].
    [None]: an invalid pointer, or [errors.As] did not end within [fuel]
    steps. *)
Definition newNodeError (fuel : nat) (node : NodePtr) (err : error) : M error := λ h,
  match err with
  | nil_error => Some (nil_error, h)
  | _ =>
    match errors_As fuel h err with
    | None => None
    | Some found =>
      (ae ← match found with
            | Some l => load l
            | None => mret zero_AerospikeError
            end;
       res ← alloc (set_Node node ae);
       _ ← wrap res err;
       mret (ptr_AerospikeError res)) h
    end
  end.

(** [stackFrame.String]; [strconv.Itoa] prints the line number in decimal. *)
Definition stackFrame_String (st : stackFrame) : string :=
  fl st +:+ ":" +:+ pretty (ln st) +:+ " " +:+ fn st +:+ "()".

(** The line feed character. *)
Definition newline : string := String (Ascii.ascii_of_nat 10) EmptyString.

(** The loop [for i := range ase.stackFrames] of [Trace]: one line per
    frame. *)
Definition frame_lines (a : AerospikeError) : string :=
  foldl (λ sb st, sb +:+ stackFrame_String st +:+ newline) "" (stackFrames a).

(** [Trace]: the lines of the frames; when [errors.As] finds an
    [*AerospikeError] down the chain, its trace follows.  [None]: an invalid
    pointer, or no answer within [fuel] nested calls. *)
Fixpoint Trace (fuel : nat) (h : heap) (ase : loc) : option string :=
  match fuel with
  | 0 => None
  | S fuel' =>
    a ← h !! ase;
    let sb := frame_lines a in
    match wrapped a with
    | nil_error => Some sb
    | w =>
      match errors_As fuel' h w with
      | None => None
      | Some None => Some sb
      | Some (Some ae) => t ← Trace fuel' h ae; Some (sb +:+ "Embedded:" +:+ newline +:+ t)
      end
    end
  end.

(** ** Partition maps ([partitions.go]) *)

(** The contents of a [Partitions] struct: what its slices hold. *)
Record Partitions := mkPartitions {
  Replicas : list (list NodePtr);
  SCMode : bool;
  regimes : list Z;
}.

(** [make([]T, n)] panics when [n] is negative. *)
Definition make {A : Type} (zero : A) (n : Z) : option (list A) :=
  if decide (0 ≤ n)%Z then Some (replicate (Z.to_nat n) zero) else None.

(** The loop [for i := range replicas] of [newPartitions], [n] rows to go. *)
Fixpoint newPartitions_rows (partitionCount : Z) (n i : nat)
    (replicas : list (list NodePtr)) : option (list (list NodePtr)) :=
  match n with
  | 0 => Some replicas
  | S n' =>
    row ← make None partitionCount;
    newPartitions_rows partitionCount n' (S i) (<[i := row]> replicas)
  end.

Definition newPartitions (partitionCount replicaCount : Z) (cpMode : bool)
  : option Partitions :=
  replicas ← make [] replicaCount;
  replicas ← newPartitions_rows partitionCount (length replicas) 0 replicas;
  regimes ← make 0%Z partitionCount;
  Some (mkPartitions replicas cpMode regimes).

(** The map from namespace names to [Partitions]. *)
Abbreviation partitionMap := (gmap string Partitions).

(** [for i, x := range l] with a body that updates the variables [s]. *)
Fixpoint for_range {A St : Type} (body : nat → A → St → St) (i : nat) (l : list A) (s : St)
  : St :=
  match l with
  | [] => s
  | x :: l' => for_range body (S i) l' (body i x s)
  end.

Fixpoint for_range_M {A St : Type} (body : nat → A → St → M St) (i : nat) (l : list A)
    (s : St) : M St :=
  match l with
  | [] => mret s
  | x :: l' => s' ← body i x s; for_range_M body (S i) l' s'
  end.

(** A loop over the entries a map yields. *)
Fixpoint for_each_M {A St : Type} (body : A → St → M St) (l : list A) (s : St) : M St :=
  match l with
  | [] => mret s
  | x :: l' => s' ← body x s; for_each_M body l' s'
  end.

(** The variables the callback of [validate] captures. *)
Record validate_vars := mkVars {
  masterNodePartitionNotDefined : gmap string (list nat);
  replicaNodePartitionNotDefined : gmap string (list nat);
  errs : error;
}.

(** [m[nsName] = append(m[nsName], pIndex)] *)
Definition append_at (nsName : string) (pIndex : nat) (m : gmap string (list nat))
  : gmap string (list nat) :=
  <[nsName := default [] (m !! nsName) ++ [pIndex]]> m.

Section PartitionMap.
Context {decls : Decls} {runtime : GoRuntime} {globals : Globals}.

(** The loop [for ; i < replicaCount; i++] of [setReplicaCount], [n] rounds
    to go. *)
Fixpoint setReplicaCount_extend (n : nat) (replicas : list (list NodePtr))
  : list (list NodePtr) :=
  match n with
  | 0 => replicas
  | S n' => setReplicaCount_extend n' (replicas ++ [replicate _PARTITIONS None])
  end.

(** The slice expression [p.Replicas[:replicaCount]] panics for a negative
    bound. *)
Definition setReplicaCount (p : Partitions) (replicaCount : Z) : option Partitions :=
  if decide (Z.of_nat (length (Replicas p)) < replicaCount)%Z then
    let i := length (Replicas p) in
    Some (mkPartitions (setReplicaCount_extend (Z.to_nat replicaCount - i) (Replicas p))
            (SCMode p) (regimes p))
  else if decide (0 ≤ replicaCount)%Z then
    Some (mkPartitions (take (Z.to_nat replicaCount) (Replicas p)) (SCMode p) (regimes p))
  else None.

(** The methods [get], [set], [delete] and [len] of the map. *)
Definition pm_get (pm : partitionMap) (key : string) : option Partitions := pm !! key.
Definition pm_set (pm : partitionMap) (key : string) (value : Partitions) : partitionMap :=
  <[key := value]> pm.
Definition pm_delete (pm : partitionMap) (key : string) : partitionMap := delete key pm.
Definition pm_len (pm : partitionMap) : nat :=
  fold_left (λ n _, S n) (range_map pm) 0.

(** [errs = chainErrors(newError(types.COMMON_ERROR, message), errs)] *)
Definition chain_newError (message : string) (errs : error) : M error :=
  outer ← newError COMMON_ERROR [message];
  chainErrors outer errs.

(** The body of the loop [for pIndex, node := range partitionNodes]. *)
Definition validate_node (nsName : string) (replica pIndex : nat) (node : NodePtr)
    (v : validate_vars) : validate_vars :=
  match node with
  | None =>
    if bool_decide (replica = 0) then
      mkVars (append_at nsName pIndex (masterNodePartitionNotDefined v))
        (replicaNodePartitionNotDefined v) (errs v)
    else
      mkVars (masterNodePartitionNotDefined v)
        (append_at nsName pIndex (replicaNodePartitionNotDefined v)) (errs v)
  | Some _ => v
  end.

(** The body of the loop [for replica, partitionNodes := range
    partition.Replicas]. *)
Definition validate_replica (nsName : string) (replica : nat) (partitionNodes : list NodePtr)
    (v : validate_vars) : M validate_vars :=
  v ← (if bool_decide (length partitionNodes ≠ _PARTITIONS) then
         e ← chain_newError
               ("Wrong number of partitions for namespace `" +:+ nsName +:+ "`, replica `"
                +:+ pretty replica +:+ "`. Must be " +:+ pretty _PARTITIONS
                +:+ ", but found " +:+ pretty (length partitionNodes) +:+ ".") (errs v);
         mret (mkVars (masterNodePartitionNotDefined v) (replicaNodePartitionNotDefined v) e)
       else mret v);
  mret (for_range (validate_node nsName replica) 0 partitionNodes v).

(** The callback given to [pm.iterate]; it always answers true, so every
    namespace is visited. *)
Definition validate_namespace (nsName : string) (partition : Partitions) (v : validate_vars)
  : M validate_vars :=
  v ← (if bool_decide (length (regimes partition) ≠ _PARTITIONS) then
         e ← chain_newError
               ("Wrong number of regimes for namespace `" +:+ nsName +:+ "`. Must be "
                +:+ pretty _PARTITIONS +:+ ", but found "
                +:+ pretty (length (regimes partition)) +:+ ".") (errs v);
         mret (mkVars (masterNodePartitionNotDefined v) (replicaNodePartitionNotDefined v) e)
       else mret v);
  for_range_M (validate_replica nsName) 0 (Replicas partition) v.

(** The two messages of the report, as [fmt.Sprintf] builds them. *)
Definition master_message (nsName : string) (partitionList : list nat) : string :=
  "Master partition nodes not defined for namespace `" +:+ nsName +:+ "`: "
  +:+ pretty (length partitionList) +:+ " out of " +:+ pretty _PARTITIONS.

Definition replica_message (nsName : string) (partitionList : list nat) : string :=
  "Replica partition nodes not defined for namespace `" +:+ nsName +:+ "`: "
  +:+ pretty (length partitionList).

(** The body of the final [if] of [validate]: one more error per recorded
    namespace, and the sentinel on top. *)
Definition validate_report (v : validate_vars) : M error :=
  errs ← for_each_M
            (λ '(nsName, partitionList), chain_newError (master_message nsName partitionList))
            (range_map (masterNodePartitionNotDefined v)) (errs v);
  errs ← for_each_M
            (λ '(nsName, partitionList), chain_newError (replica_message nsName partitionList))
            (range_map (replicaNodePartitionNotDefined v)) errs;
  sentinel ← err ErrInvalidPartitionMap;
  chainErrors sentinel errs.

Definition validate (pm : partitionMap) : M error :=
  v ← for_each_M (λ '(nsName, partition), validate_namespace nsName partition)
        (range_map pm) (mkVars ∅ ∅ nil_error);
  if bool_decide (errs v ≠ nil_error)
     || bool_decide (0 < size (masterNodePartitionNotDefined v))
     || bool_decide (0 < size (replicaNodePartitionNotDefined v))
  then validate_report v
  else mret nil_error.

End PartitionMap.

(** *** Regime fencing *)

(** Modelled from the spec: the regime check applied when a node reports that
    it owns a partition; the code that applies it (the partition parser) is
    not among the verified files.  The spec: "A regime update for a partition
    is accepted only if its value is ≥ the currently stored regime; lower
    values are discarded as stale", and an accepted update "replaces the prior
    node assignment for that partition". *)
Definition applyRegimeUpdate (p : Partitions) (replica partition : nat) (regime : Z)
    (node : NodePtr) : Partitions :=
  match regimes p !! partition with
  | Some stored =>
    if decide (stored ≤ regime)%Z then
      mkPartitions (alter (λ row, <[partition := node]> row) replica (Replicas p))
        (SCMode p) (<[partition := regime]> (regimes p))
    else p
  | None => p
  end.

(** *** What [validate] accepts and what it records *)

(** The partition indices [pIndex], counted from [i], of the nil slots of a
    row. *)
Fixpoint nil_indices (i : nat) (row : list NodePtr) : list nat :=
  match row with
  | [] => []
  | None :: row' => i :: nil_indices (S i) row'
  | Some _ :: row' => nil_indices (S i) row'
  end.

(** Several [append_at] in a row. *)
Definition extend_at (nsName : string) (pIndexes : list nat) (m : gmap string (list nat))
  : gmap string (list nat) :=
  match pIndexes with
  | [] => m
  | _ => <[nsName := default [] (m !! nsName) ++ pIndexes]> m
  end.

(** A [Partitions] value in which [validate] finds nothing to report. *)
Definition well_formed {decls : Decls} (p : Partitions) : Prop :=
  length (regimes p) = _PARTITIONS
  ∧ ∀ replica row, Replicas p !! replica = Some row →
      length row = _PARTITIONS ∧ ∀ pIndex node, row !! pIndex = Some node → node ≠ None.

(** The lists [validate] has recorded for [nsName] after the loop over the
    rows [rows] of a namespace, the first of them having replica index [i]. *)
Definition rows_master (nsName : string) (i : nat) (rows : list (list NodePtr))
    (m : gmap string (list nat)) : gmap string (list nat) :=
  match i, rows with
  | 0, row :: _ => extend_at nsName (nil_indices 0 row) m
  | _, _ => m
  end.

Definition rows_replica (nsName : string) (i : nat) (rows : list (list NodePtr))
    (m : gmap string (list nat)) : gmap string (list nat) :=
  foldl (λ m row, extend_at nsName (nil_indices 0 row) m) m
    (match i with 0 => tail rows | _ => rows end).

Global Arguments rows_master : simpl never.
Global Arguments rows_replica : simpl never.

(** Nothing recorded and no error so far. *)
Definition clean (v : validate_vars) : Prop :=
  errs v = nil_error
  ∧ masterNodePartitionNotDefined v = ∅
  ∧ replicaNodePartitionNotDefined v = ∅.

(** *** What [validate] reports *)

Section Reports.
Context {decls : Decls}.

(** The messages of [validate] for a wrong length, as [fmt.Sprintf] builds
    them. *)
Definition regimes_message (nsName : string) (found : nat) : string :=
  "Wrong number of regimes for namespace `" +:+ nsName +:+ "`. Must be "
  +:+ pretty _PARTITIONS +:+ ", but found " +:+ pretty found +:+ ".".

Definition partitions_message (nsName : string) (replica found : nat) : string :=
  "Wrong number of partitions for namespace `" +:+ nsName +:+ "`, replica `"
  +:+ pretty replica +:+ "`. Must be " +:+ pretty _PARTITIONS
  +:+ ", but found " +:+ pretty found +:+ ".".

(** [reported h e message]: the chain of [e] holds a [COMMON_ERROR] error
    with this message. *)
Definition reported (h : heap) (e : error) (message : string) : Prop :=
  ∃ l a, in_chain h e (ptr_AerospikeError l) ∧ h !! l = Some a
    ∧ ResultCode a = COMMON_ERROR ∧ msg a = message.

End Reports.

(** The partition indices of the nil slots in the rows of replica index
    above 0, in the order [validate] appends them. *)
Definition replica_gaps (p : Partitions) : list nat :=
  concat (nil_indices 0 <$> tail (Replicas p)).

(** [grows h e h' e']: the heap was only extended, and every error of the
    chain of [e] is still in the chain of [e']. *)
Definition grows (h : heap) (e : error) (h' : heap) (e' : error) : Prop :=
  h `prefix_of` h' ∧ ∀ x, in_chain h e x → in_chain h' e' x.

(** ** [clone]: slices and their backing arrays *)

Module Mem.

(** A slice header: the backing array, the offset of the first element in
    it and the length.  (The capacity plays no role in [clone].) *)
Record slice := mkSlice { arr : nat; off : nat; len : nat }.

(** The zero value of a slice type. *)
Definition nil_slice : slice := mkSlice 0 0 0.

(** The [Partitions] struct as it lies in memory. *)
Record struct_Partitions := mkStruct {
  f_Replicas : slice;
  f_SCMode : bool;
  f_regimes : slice;
}.

(** The store: the backing arrays of the three slice types in use, and the
    [Partitions] structs; a pointer or an array is its index. *)
Record store := mkStore {
  nodeArrays : list (list NodePtr);
  rowArrays : list (list slice);
  intArrays : list (list Z);
  structs : list struct_Partitions;
}.

Definition St (A : Type) : Type := store → option (A * store).

Global Instance St_ret : MRet St := λ A x σ, Some (x, σ).
Global Instance St_bind : MBind St := λ A B f m σ,
  match m σ with
  | Some (x, σ') => f x σ'
  | None => None
  end.

(** *** Arrays of one element type *)

(** [s[i]], with its bounds check. *)
Definition arr_read {A : Type} (hp : list (list A)) (s : slice) (i : nat) : option A :=
  if decide (i < len s) then a ← hp !! arr s; a !! (off s + i) else None.

(** [s[i] = x] *)
Definition arr_write {A : Type} (hp : list (list A)) (s : slice) (i : nat) (x : A)
  : option (list (list A)) :=
  if decide (i < len s) then
    a ← hp !! arr s;
    if decide (off s + i < length a) then Some (<[arr s := <[off s + i := x]> a]> hp)
    else None
  else None.

(** [make([]T, n)] *)
Definition arr_make {A : Type} (hp : list (list A)) (zero : A) (n : nat)
  : slice * list (list A) :=
  (mkSlice (length hp) 0 n, hp ++ [replicate n zero]).

(** The elements of a slice. *)
Definition arr_contents {A : Type} (hp : list (list A)) (s : slice) : option (list A) :=
  if decide (len s = 0) then Some []
  else
    a ← hp !! arr s;
    if decide (off s + len s ≤ length a) then Some (take (len s) (drop (off s) a)) else None.

(** The writes [dst[i] = x] for the elements [x] of [xs], from index [i]. *)
Fixpoint arr_write_from {A : Type} (hp : list (list A)) (dst : slice) (i : nat) (xs : list A)
  : option (list (list A)) :=
  match xs with
  | [] => Some hp
  | x :: xs' => hp' ← arr_write hp dst i x; arr_write_from hp' dst (S i) xs'
  end.

(** [copy(dst, src)]: the first [min(len(dst), len(src))] elements of [src],
    read before any is written. *)
Definition arr_copy {A : Type} (hp : list (list A)) (dst src : slice)
  : option (list (list A)) :=
  xs ← arr_contents hp src;
  arr_write_from hp dst 0 (take (len dst `min` len src) xs).

(** *** The store operations [clone] uses *)

Definition load_struct (p : nat) : St struct_Partitions := λ σ,
  match structs σ !! p with
  | Some pv => Some (pv, σ)
  | None => None
  end.

Definition alloc_struct (pv : struct_Partitions) : St nat := λ σ,
  Some (length (structs σ),
        mkStore (nodeArrays σ) (rowArrays σ) (intArrays σ) (structs σ ++ [pv])).

Definition make_nodes (n : nat) : St slice := λ σ,
  let '(s, hp) := arr_make (nodeArrays σ) None n in
  Some (s, mkStore hp (rowArrays σ) (intArrays σ) (structs σ)).

Definition make_rows (n : nat) : St slice := λ σ,
  let '(s, hp) := arr_make (rowArrays σ) nil_slice n in
  Some (s, mkStore (nodeArrays σ) hp (intArrays σ) (structs σ)).

Definition make_ints (n : nat) : St slice := λ σ,
  let '(s, hp) := arr_make (intArrays σ) 0%Z n in
  Some (s, mkStore (nodeArrays σ) (rowArrays σ) hp (structs σ)).

Definition read_row (rows : slice) (i : nat) : St slice := λ σ,
  match arr_read (rowArrays σ) rows i with
  | Some r => Some (r, σ)
  | None => None
  end.

Definition write_row (rows : slice) (i : nat) (r : slice) : St unit := λ σ,
  match arr_write (rowArrays σ) rows i r with
  | Some hp => Some (tt, mkStore (nodeArrays σ) hp (intArrays σ) (structs σ))
  | None => None
  end.

Definition store_node (row : slice) (j : nat) (node : NodePtr) : St unit := λ σ,
  match arr_write (nodeArrays σ) row j node with
  | Some hp => Some (tt, mkStore hp (rowArrays σ) (intArrays σ) (structs σ))
  | None => None
  end.

Definition store_int (s : slice) (k : nat) (v : Z) : St unit := λ σ,
  match arr_write (intArrays σ) s k v with
  | Some hp => Some (tt, mkStore (nodeArrays σ) (rowArrays σ) hp (structs σ))
  | None => None
  end.

Definition copy_nodes (dst src : slice) : St unit := λ σ,
  match arr_copy (nodeArrays σ) dst src with
  | Some hp => Some (tt, mkStore hp (rowArrays σ) (intArrays σ) (structs σ))
  | None => None
  end.

Definition copy_ints (dst src : slice) : St unit := λ σ,
  match arr_copy (intArrays σ) dst src with
  | Some hp => Some (tt, mkStore (nodeArrays σ) (rowArrays σ) hp (structs σ))
  | None => None
  end.

(** *** [Partitions.clone] *)

(** The loop [for i := range p.Replicas], [n] rows to go. *)
Fixpoint clone_rows (pReplicas replicas : slice) (n i : nat) : St unit :=
  match n with
  | 0 => mret tt
  | S n' =>
    pr ← read_row pReplicas i;
    r ← make_nodes (len pr);
    _ ← copy_nodes r pr;
    _ ← write_row replicas i r;
    clone_rows pReplicas replicas n' (S i)
  end.

Definition clone (p : nat) : St nat :=
  pv ← load_struct p;
  replicas ← make_rows (len (f_Replicas pv));
  _ ← clone_rows (f_Replicas pv) replicas (len (f_Replicas pv)) 0;
  regimes ← make_ints (len (f_regimes pv));
  _ ← copy_ints regimes (f_regimes pv);
  alloc_struct (mkStruct replicas (f_SCMode pv) regimes).

(** *** Writes through a [Partitions] pointer *)

(** [p.Replicas[i][j] = node] *)
Definition write_node (p : nat) (i j : nat) (node : NodePtr) : St unit :=
  pv ← load_struct p;
  row ← read_row (f_Replicas pv) i;
  store_node row j node.

(** [p.regimes[k] = v] *)
Definition write_regime (p : nat) (k : nat) (v : Z) : St unit :=
  pv ← load_struct p;
  store_int (f_regimes pv) k v.

Inductive write : Type :=
  | to_node (i j : nat) (node : NodePtr)
  | to_regime (k : nat) (v : Z).

Definition apply_write (p : nat) (w : write) : St unit :=
  match w with
  | to_node i j node => write_node p i j node
  | to_regime k v => write_regime p k v
  end.

(** Several writes, one after the other. *)
Fixpoint apply_writes (p : nat) (ws : list write) : St unit :=
  match ws with
  | [] => mret tt
  | w :: ws' => _ ← apply_write p w; apply_writes p ws'
  end.

(** The headers of the rows [clone] makes: one array each, allocated one
    after the other from [base]. *)
Fixpoint fresh_rows (base : nat) (rows : list slice) : list slice :=
  match rows with
  | [] => []
  | r :: rows' => mkSlice base 0 (len r) :: fresh_rows (S base) rows'
  end.

(** The arrays a write through [pv] can reach: the arrays of its rows, and
    the array of its regimes. *)
Definition node_footprint (R : list (list slice)) (pv : struct_Partitions) (k : nat) : Prop :=
  ∃ i r, arr_read R (f_Replicas pv) i = Some r ∧ len r ≠ 0 ∧ arr r = k.

Definition int_footprint (pv : struct_Partitions) (k : nat) : Prop :=
  len (f_regimes pv) ≠ 0 ∧ arr (f_regimes pv) = k.

(** *** What a [Partitions] pointer denotes *)

(** The contents of the grid and of the regimes that the struct at [p]
    gives access to; [None] when a slice reaches outside its array. *)
Definition contents (σ : store) (pv : struct_Partitions) : option Partitions :=
  rows ← arr_contents (rowArrays σ) (f_Replicas pv);
  grid ← mapM (arr_contents (nodeArrays σ)) rows;
  regs ← arr_contents (intArrays σ) (f_regimes pv);
  Some (mkPartitions grid (f_SCMode pv) regs).

Definition view (σ : store) (p : nat) : option Partitions :=
  pv ← structs σ !! p; contents σ pv.

End Mem.

(** ** The map of [Partitions] pointers: [clone] and [cleanup] *)

Module MemMap.
Import Mem.

(** A loop over the entries a map yields, in the monad of the store. *)
Fixpoint for_each_St {A S : Type} (body : A → S → St S) (l : list A) (s : S) : St S :=
  match l with
  | [] => mret s
  | x :: l' => s' ← body x s; for_each_St body l' s'
  end.

(** [*p = pv] *)
Definition store_struct (p : nat) (pv : struct_Partitions) : St unit := λ σ,
  if decide (p < length (structs σ)) then
    Some (tt, mkStore (nodeArrays σ) (rowArrays σ) (intArrays σ) (<[p := pv]> (structs σ)))
  else None.

(** The loop [for j := range partitions.Replicas[i]] of [cleanup], [n] slots
    to go. *)
Fixpoint cleanup_row (partitions i n j : nat) : St unit :=
  match n with
  | 0 => mret tt
  | S n' => _ ← write_node partitions i j None; cleanup_row partitions i n' (S j)
  end.

(** The loop [for i := range partitions.Replicas], [n] rows to go: the
    inner loop ranges over the row as it is when it starts, then the row
    header is set to nil. *)
Fixpoint cleanup_rows (partitions n i : nat) : St unit :=
  match n with
  | 0 => mret tt
  | S n' =>
    pv ← load_struct partitions;
    row ← read_row (f_Replicas pv) i;
    _ ← cleanup_row partitions i (len row) 0;
    pv ← load_struct partitions;
    _ ← write_row (f_Replicas pv) i nil_slice;
    cleanup_rows partitions n' (S i)
  end.

(** What the callback of [cleanup] does to one [Partitions]. *)
Definition cleanup_partitions (partitions : nat) : St unit :=
  pv ← load_struct partitions;
  _ ← cleanup_rows partitions (len (f_Replicas pv)) 0;
  pv ← load_struct partitions;
  _ ← store_struct partitions (mkStruct nil_slice (f_SCMode pv) (f_regimes pv));
  pv ← load_struct partitions;
  store_struct partitions (mkStruct (f_Replicas pv) (f_SCMode pv) nil_slice).

Section WithRuntime.
Context {runtime : GoRuntime}.

(** [partitionMap.clone]: a new map with a clone of every entry. *)
Definition partitionMap_clone (pm : gmap string nat) : St (gmap string nat) :=
  for_each_St (λ '(ns, partitions) newPm, q ← clone partitions; mret (<[ns := q]> newPm))
    (range_map pm) ∅.

(** [partitionMap.cleanup]: every entry is emptied and deleted.  The
    callback deletes the key it is called with, so every key the map holds
    when [cleanup] starts is visited once. *)
Definition cleanup (pm : gmap string nat) : St (gmap string nat) :=
  for_each_St (λ '(ns, partitions) pm, _ ← cleanup_partitions partitions; mret (delete ns pm))
    (range_map pm) pm.

End WithRuntime.

(** A slice lies within its backing array. *)
Definition ok_slice {A : Type} (hp : list (list A)) (s : slice) : Prop :=
  len s = 0 ∨ ∃ a, hp !! arr s = Some a ∧ off s + len s ≤ length a.

(** The slices of a struct, and the rows it lists, lie within their
    arrays. *)
Definition valid (σ : store) (pv : struct_Partitions) : Prop :=
  ok_slice (rowArrays σ) (f_Replicas pv)
  ∧ (∀ i r, arr_read (rowArrays σ) (f_Replicas pv) i = Some r → ok_slice (nodeArrays σ) r)
  ∧ ok_slice (intArrays σ) (f_regimes pv).

(** Two stages of one struct: the two slices are nil or as they were. *)
Definition shrunk_struct (pv0 pv : struct_Partitions) : Prop :=
  f_SCMode pv = f_SCMode pv0
  ∧ (f_Replicas pv = nil_slice ∨ f_Replicas pv = f_Replicas pv0)
  ∧ (f_regimes pv = nil_slice ∨ f_regimes pv = f_regimes pv0).

(** [shrunk σ0 σ]: [σ] has the arrays and structs of [σ0], of the same
    sizes; a row header is nil or as it was, so are the slices of a struct;
    the regimes are as they were. *)
Definition shrunk (σ0 σ : store) : Prop :=
  Forall2 (λ a0 a, length a = length a0) (nodeArrays σ0) (nodeArrays σ)
  ∧ Forall2 (Forall2 (λ r0 r, r = nil_slice ∨ r = r0)) (rowArrays σ0) (rowArrays σ)
  ∧ intArrays σ = intArrays σ0
  ∧ Forall2 shrunk_struct (structs σ0) (structs σ).

(** Only the structs, row arrays and node arrays that [PS], [PR] and [PN]
    allow may differ between [σ] and [σ']. *)
Definition confined (PS PR PN : nat → Prop) (σ σ' : store) : Prop :=
  (∀ q, ¬ PS q → structs σ' !! q = structs σ !! q)
  ∧ (∀ k, ¬ PR k → rowArrays σ' !! k = rowArrays σ !! k)
  ∧ (∀ k, ¬ PN k → nodeArrays σ' !! k = nodeArrays σ !! k)
  ∧ intArrays σ' = intArrays σ.

(** The struct at [p], the array of its row headers and the arrays of its
    rows are among those that [PS], [PR] and [PN] allow. *)
Definition inside (PS PR PN : nat → Prop) (σ : store) (p : nat) : Prop :=
  PS p ∧ ∀ pv, structs σ !! p = Some pv →
    (len (f_Replicas pv) ≠ 0 → PR (arr (f_Replicas pv)))
    ∧ ∀ k, node_footprint (rowArrays σ) pv k → PN k.

(** [σ'] has everything [σ] has, and more arrays and structs after it. *)
Definition extends (σ σ' : store) : Prop :=
  nodeArrays σ `prefix_of` nodeArrays σ'
  ∧ rowArrays σ `prefix_of` rowArrays σ'
  ∧ intArrays σ `prefix_of` intArrays σ'
  ∧ structs σ `prefix_of` structs σ'.

(** The node slot [x] of the array [k] holds nil. *)
Definition nil_cell (σ : store) (k x : nat) : Prop :=
  ∃ a, nodeArrays σ !! k = Some a ∧ a !! x = Some None.

(** Every slot of the row [r] holds nil. *)
Definition row_nil (σ : store) (r : slice) : Prop :=
  ∀ j, j < len r → nil_cell σ (arr r) (off r + j).

(** [cleared σ σ']: a slot that held nil still does, and a row header is
    where it was unless every slot of its row holds nil. *)
Definition cleared (σ σ' : store) : Prop :=
  (∀ k x, nil_cell σ k x → nil_cell σ' k x)
  ∧ ∀ k a x r, rowArrays σ !! k = Some a → a !! x = Some r →
      (∃ a', rowArrays σ' !! k = Some a' ∧ a' !! x = Some r) ∨ row_nil σ' r.

(** Every row that the struct [pv0] listed in [σ0] holds only nil in [σ]. *)
Definition rows_nil (σ0 σ : store) (pv0 : struct_Partitions) : Prop :=
  ∀ i r0, arr_read (rowArrays σ0) (f_Replicas pv0) i = Some r0 → row_nil σ r0.

(** Every struct of [σ0] still lists its rows, or they hold only nil. *)
Definition settled (σ0 σ : store) : Prop :=
  ∀ p pv0, structs σ0 !! p = Some pv0 →
    (∃ pv, structs σ !! p = Some pv ∧ f_Replicas pv = f_Replicas pv0) ∨ rows_nil σ0 σ pv0.

End MemMap.

(** ** The random number generator ([types/rand/xor_shift128.go]) *)

Module Rand.

(** Arithmetic on [uint64] wraps around at [2^64]. *)
Definition uint64 (z : Z) : Z := (z mod 2 ^ 64)%Z.

(** [int64(u)] of a [uint64]: the same 64 bits, read in two's complement. *)
Definition int64 (u : Z) : Z := ((u + 2 ^ 63) mod 2 ^ 64 - 2 ^ 63)%Z.

(** The struct [Xor128Rand]: the two words of [src]. *)
Record Xor128Rand := mkXor128Rand { src_0 : Z; src_1 : Z }.

(** Both words are [uint64] values. *)
Definition in_range (r : Xor128Rand) : Prop :=
  (0 ≤ src_0 r < 2 ^ 64)%Z ∧ (0 ≤ src_1 r < 2 ^ 64)%Z.

(** [Uint64]: the number returned and the generator after the call. *)
Definition Uint64 (r : Xor128Rand) : Z * Xor128Rand :=
  let s1 := src_0 r in
  let s0 := src_1 r in
  let s1 := Z.lxor s1 (uint64 (Z.shiftl s1 23)) in
  let src1 := Z.lxor (Z.lxor (Z.lxor s1 s0) (Z.shiftr s1 17)) (Z.shiftr s0 26) in
  let res := uint64 (src1 + s0) in
  (res, mkXor128Rand s0 src1).

Definition Int64 (r : Xor128Rand) : Z * Xor128Rand :=
  let '(u, r') := Uint64 r in (int64 u, r').

(** [buf[i] = b], with its bounds check. *)
Definition put (buf : list Z) (i : nat) (b : Z) : option (list Z) :=
  if decide (i < length buf) then Some (<[i := b]> buf) else None.

(** The loop of [binary.PutUvarint] of the standard library,
    [for x >= 0x80 { buf[i] = byte(x) | 0x80; x >>= 7; i++ }], followed by
    [buf[i] = byte(x); return i + 1].  [n] bounds the number of rounds. *)
Fixpoint PutUvarint_loop (n : nat) (buf : list Z) (i : nat) (x : Z) : option (list Z * nat) :=
  match n with
  | 0 => None
  | S n' =>
    if decide (128 ≤ x)%Z then
      buf' ← put buf i (Z.lor (x mod 256) 128);
      PutUvarint_loop n' buf' (S i) (Z.shiftr x 7)
    else
      buf' ← put buf i (x mod 256)%Z;
      Some (buf', S i)
  end.

(** A [uint64] has ten groups of seven bits: the loop body runs at most nine
    times.  [None] is the panic of a write beyond the slice. *)
Definition PutUvarint (buf : list Z) (x : Z) : option (list Z * nat) :=
  PutUvarint_loop 10 buf 0 x.

(** The loop [for i := 0; i < l; i += 8] of [Read], [n] rounds to go:
    [binary.PutUvarint(p[i:], r.Uint64())] writes into [p] from index [i]. *)
Fixpoint Read_loop (n i : nat) (p : list Z) (r : Xor128Rand)
  : option (list Z * Xor128Rand) :=
  match n with
  | 0 => Some (p, r)
  | S n' =>
    let '(x, r') := Uint64 r in
    '(buf, _) ← PutUvarint (drop i p) x;
    Read_loop n' (i + 8) (take i p ++ buf) r'
  end.

(** [Read]: the loop runs for [i = 0, 8, 16, ...] below [l = len(p) / 8];
    the result is [len(p)] (with a nil error), the bytes of [p] and the
    generator after the call. *)
Definition Read (p : list Z) (r : Xor128Rand) : option (nat * list Z * Xor128Rand) :=
  let l := length p / 8 in
  '(p', r') ← Read_loop ((l + 7) / 8) 0 p r;
  Some (length p, p', r').

End Rand.

(** ** Sample declarations, for the closed examples *)

Module Sample.

(** Any values would do; the codes only need to be distinct. *)
Definition decls : Decls := {|
  _PARTITIONS := 4096;
  COMMON_ERROR := (-17)%Z;
  INVALID_CLUSTER_PARTITION_MAP := (-12)%Z;
  ResultCodeToString := λ c, "ResultCode " +:+ pretty c;
|}.

(** The codes as the package [types] numbers them. *)
Definition codes : ResultCodes := {|
  OK := 0%Z;
  TIMEOUT := 9%Z;
  NETWORK_ERROR := (-18)%Z;
  SERVER_ERROR := 1%Z;
  BATCH_FAILED := (-20)%Z;
  NO_RESPONSE := (-19)%Z;
  MAX_ERROR_RATE := (-15)%Z;
  MAX_RETRIES_EXCEEDED := (-16)%Z;
  SERIALIZE_ERROR := (-1)%Z;
  SERVER_NOT_AVAILABLE := (-11)%Z;
  NO_AVAILABLE_CONNECTIONS_TO_NODE := (-8)%Z;
  QUERY_TERMINATED := (-5)%Z;
  SCAN_TERMINATED := (-4)%Z;
  INVALID_NODE_ERROR := (-3)%Z;
  PARSE_ERROR := (-2)%Z;
|}.

Definition TIMEOUT : types_ResultCode := 9%Z.

Definition runtime : GoRuntime := {|
  runtime_Caller := λ _, None;
  range_map := λ A m, map_to_list m;
  range_map_perm := λ A m, reflexivity (map_to_list m);
|}.

Definition globals : Globals := {| ErrInvalidPartitionMap := 0 |}.

(** The struct of the sentinel [ErrInvalidPartitionMap]. *)
Definition invalid_partition_map : AerospikeError :=
  mkAerospikeError nil_error
    "Partition map errors normally occur when the cluster has partitioned due to network anomaly or node crash, or is not configured properly. Refer to https://www.aerospike.com/docs/operations/configure for more information."
    None (-12)%Z false 0 [].

(** An error as [newError(TIMEOUT, "network timeout")] makes it. *)
Definition timeout_error : AerospikeError :=
  mkAerospikeError nil_error "network timeout" None TIMEOUT false 0 [].

(** A namespace with one replica row, every slot assigned. *)
Definition full_row : list NodePtr := replicate 4096 (Some 1%positive).
Definition one_master_row : Partitions := mkPartitions [full_row] false (replicate 4096 0%Z).

(** A namespace with two rows; one slot of the second row is nil. *)
Definition one_replica_missing : Partitions :=
  mkPartitions [full_row; <[7 := None]> full_row] false (replicate 4096 0%Z).

(** What [newPartitions(4096, 2, false)] returns. *)
Definition empty_partitions : Partitions :=
  mkPartitions (replicate 2 (replicate 4096 None)) false (replicate 4096 0%Z).

(** A small grid: two rows of two partitions. *)
Definition small_partitions : Partitions :=
  mkPartitions [[None; Some 1%positive]; [Some 2%positive; None]] false [3%Z; 5%Z].

(** A store with one [Partitions] struct of three rows; the first two rows
    share a backing array, the regimes start at offset 1 of theirs. *)
Definition small_store : Mem.store :=
  Mem.mkStore
    [[Some 1%positive; None; Some 2%positive; Some 3%positive]; [None; None]]
    [[Mem.mkSlice 0 0 2; Mem.mkSlice 0 2 2; Mem.mkSlice 1 0 2]]
    [[5%Z; 6%Z; 7%Z]]
    [Mem.mkStruct (Mem.mkSlice 0 0 3) true (Mem.mkSlice 0 1 2)].

Definition small_store_contents : Partitions :=
  mkPartitions [[Some 1%positive; None]; [Some 2%positive; Some 3%positive]; [None; None]]
    true [6%Z; 7%Z].

(** The heap once the package is initialised, as far as the code below
    depends on it: the sentinel [ErrInvalidPartitionMap] at address 0. *)
Definition initial_heap : heap := [invalid_partition_map].

(** The heap [chain_onto_sentinel] below leaves: the sentinel, the outer
    error and its copy that wraps the sentinel. *)
Definition sentinel_chain : heap :=
  [mkAerospikeError nil_error "network timeout" None 9%Z false 0 [];
   mkAerospikeError nil_error "read failed" None (-17)%Z false 0 [];
   mkAerospikeError (ptr_constAerospikeError 0) "read failed" None (-17)%Z false 0 []].

(** [timeout_error] and an error that wraps it. *)
Definition wrapped_timeout : heap :=
  [timeout_error;
   mkAerospikeError (ptr_AerospikeError 0) "read failed" None (-17)%Z false 0 []].

(** [chainErrors(newError(COMMON_ERROR, "read failed"), ErrNetTimeout)]: the
    sentinel is chained as it is, without [err()]. *)
Definition chain_onto_sentinel : M (error * error) :=
  sentinel ← newConstError (decls := decls) TIMEOUT ["network timeout"];
  outer ← newError (decls := decls) (runtime := runtime)
             (COMMON_ERROR (Decls := decls)) ["read failed"];
  e ← chainErrors (decls := decls) (runtime := runtime) outer sentinel;
  mret (sentinel, e).

End Sample.

(** * Properties *)

(** ** The heap *)

Lemma lookup_alloc (h : heap) (a : AerospikeError) : (h ++ [a]) !! length h = Some a.
Proof. by rewrite list_lookup_middle. Qed.

Lemma lookup_alloc_old (h : heap) (a x : AerospikeError) (l : loc) :
  h !! l = Some x → (h ++ [a]) !! l = Some x.
Proof. apply lookup_app_l_Some. Qed.

Lemma lookup_fresh_ne (h : heap) (x : AerospikeError) (l : loc) :
  h !! l = Some x → l ≠ length h.
Proof. intros Hl%lookup_lt_Some. lia. Qed.

Lemma insert_alloc (h : heap) (a b : AerospikeError) :
  <[length h := b]> (h ++ [a]) = h ++ [b].
Proof. by rewrite insert_app_r_alt, Nat.sub_diag by lia. Qed.

Lemma existsb_eqb_elem (c : Z) (rcs : list Z) : existsb (Z.eqb c) rcs = true ↔ c ∈ rcs.
Proof.
  rewrite existsb_exists. split.
  - intros (x & Hin & Heq). apply Z.eqb_eq in Heq. subst x. by apply list_elem_of_In.
  - intros Hin. exists c. split; [by apply list_elem_of_In | apply Z.eqb_refl].
Qed.

Ltac run :=
  unfold mbind, M_bind, mret, M_ret, load, store, alloc, panic in *; simpl in *.

Section ErrorFacts.
Context {decls : Decls} {runtime : GoRuntime}.

(** Every private mutator writes one struct only: the one its receiver
    points to. *)
Lemma mutate_frame (m : mutation) (ase l : loc) (h h' : heap) (r : error) :
  mutate m ase h = Some (r, h') → l ≠ ase → h' !! l = h !! l.
Proof.
  intros Hm Hne.
  destruct m; unfold mutate, setInDoubt, setNode, markInDoubt, markInDoubtIf, wrap, iter in Hm;
    run; destruct (h !! ase) eqn:Ha; try discriminate;
    repeat match type of Hm with
    | context [if ?c then _ else _] => destruct c; simpl in Hm
    end; try discriminate; simplify_eq; try done;
    apply list_lookup_insert_ne; congruence.
Qed.

Lemma setInDoubt_run (h : heap) (ase : loc) (a : AerospikeError) (isRead commandWasSent : bool) :
  h !! ase = Some a →
  setInDoubt ase isRead commandWasSent h =
    Some (ptr_AerospikeError ase,
          if negb isRead && commandWasSent then <[ase := set_InDoubt true a]> h else h).
Proof.
  intros Ha. unfold setInDoubt. run. rewrite Ha.
  destruct (negb isRead && commandWasSent); [|done].
  destruct (decide (ase < length h)) as [|Hge]; [done|].
  apply lookup_lt_Some in Ha. lia.
Qed.

(** C2.  [setInDoubt] writes [true] into the [InDoubt] flag of its receiver
    exactly when the command is write-class ([isRead] false) and its bytes
    were sent ([commandWasSent] true).  In every other case, and so for every
    read-class command whatever [commandWasSent] is, it writes nothing: the
    heap is the one before the call.  On an error whose flag is clear, the
    flag is set after the call if and only if the command is write-class and
    was sent.  No other struct and no other field is touched. *)
Theorem setInDoubt_sets_iff_write_and_sent
    (h : heap) (ase : loc) (a : AerospikeError) (isRead commandWasSent : bool) :
  h !! ase = Some a →
  ∃ h', setInDoubt ase isRead commandWasSent h = Some (ptr_AerospikeError ase, h')
    ∧ (isRead = false ∧ commandWasSent = true → h' !! ase = Some (set_InDoubt true a))
    ∧ (isRead = true ∨ commandWasSent = false → h' = h)
    ∧ (InDoubt a = false →
         (IsInDoubt ase h' = Some (true, h') ↔ isRead = false ∧ commandWasSent = true))
    ∧ (∀ l, l ≠ ase → h' !! l = h !! l).
Proof.
  intros Ha. eexists. split; [by apply setInDoubt_run|].
  pose proof (lookup_lt_Some _ _ _ Ha) as Hlt.
  split_and!.
  - intros [-> ->]. simpl. by rewrite list_lookup_insert_eq.
  - intros [-> | ->]; [done|]. by rewrite andb_false_r.
  - intros Hclear. unfold IsInDoubt. run.
    destruct isRead, commandWasSent; simpl; rewrite ?Ha, ?list_lookup_insert_eq by done;
      simpl; rewrite ?Hclear; split; (intros [??] || intros ?); by simplify_eq.
  - intros l Hne. destruct (negb isRead && commandWasSent); [|done].
    apply list_lookup_insert_ne; congruence.
Qed.

Lemma err_run (h : heap) (c : loc) (a : AerospikeError) :
  h !! c = Some a →
  err c h = Some (ptr_AerospikeError (length h), h ++ [set_wrapped nil_error a]).
Proof.
  intros Ha. unfold err, wrap. run. rewrite Ha, lookup_alloc. simpl.
  rewrite length_app. simpl.
  destruct (decide (length h < length h + 1)); [|lia].
  do 2 f_equal. by rewrite insert_alloc.
Qed.

Lemma chainErrors_copy (h : heap) (outer inner : error) (l : loc) (a : AerospikeError) :
  outer = ptr_AerospikeError l ∨ outer = ptr_constAerospikeError l →
  h !! l = Some a → inner ≠ nil_error →
  chainErrors outer inner h = Some (ptr_AerospikeError (length h), h ++ [set_wrapped inner a]).
Proof.
  intros Ho Ha Hi.
  assert (∀ (k : M error), (match inner with nil_error => k | _ =>
            t ← load l; ae ← alloc t; a0 ← load ae;
            _ ← store ae (set_wrapped inner a0); mret (ptr_AerospikeError ae) end) h
          = Some (ptr_AerospikeError (length h), h ++ [set_wrapped inner a])) as Hrun.
  { intros k. destruct inner; try done; run; rewrite Ha, lookup_alloc; simpl;
      rewrite length_app; simpl;
      (destruct (decide (length h < length h + 1)); [|lia]);
      by rewrite insert_alloc. }
  destruct Ho as [-> | ->]; unfold chainErrors; destruct inner; try done; apply (Hrun (mret nil_error)).
Qed.

(** C9.  Attaching context to a shared sentinel instance works on a copy.
    For a sentinel stored at [c]: [err] allocates a fresh struct (its address
    is not one of the heap before the call) holding the fields of the
    sentinel with [wrapped] reset, and leaves the heap before the call as it
    was; [chainErrors] with the sentinel as outer error returns the sentinel
    itself and an unchanged heap when there is nothing to chain, and otherwise
    allocates a fresh copy whose [wrapped] is the inner error; in all cases the
    struct at [c] keeps every field.  Any mutator applied afterwards to the
    fresh copy (node, iteration, in-doubt, wrapped) still leaves the struct at
    [c] with every field as it was. *)
Theorem sentinel_context_on_private_copy
    (h : heap) (c : loc) (a : AerospikeError) (inner : error) :
  h !! c = Some a →
  (∃ v h', err c h = Some (ptr_AerospikeError v, h')
      ∧ h !! v = None ∧ h' = h ++ [set_wrapped nil_error a]
      ∧ h' !! v = Some (set_wrapped nil_error a) ∧ h' !! c = Some a
      ∧ ∀ m r h'', mutate m v h' = Some (r, h'') → h'' !! c = Some a)
  ∧ (∃ r h', chainErrors (ptr_constAerospikeError c) inner h = Some (r, h')
      ∧ h' !! c = Some a
      ∧ (inner = nil_error → r = ptr_constAerospikeError c ∧ h' = h)
      ∧ (inner ≠ nil_error →
           ∃ v, r = ptr_AerospikeError v ∧ h !! v = None
             ∧ h' = h ++ [set_wrapped inner a]
             ∧ h' !! v = Some (set_wrapped inner a)
             ∧ ∀ m r' h'', mutate m v h' = Some (r', h'') → h'' !! c = Some a)).
Proof.
  intros Ha. pose proof (lookup_fresh_ne _ _ _ Ha) as Hne. split.
  - eexists _, _. split; [by apply err_run|]. split_and!.
    + by apply lookup_ge_None.
    + done.
    + apply lookup_alloc.
    + by apply lookup_alloc_old.
    + intros m r h'' Hm. rewrite (mutate_frame _ _ _ _ _ _ Hm) by done.
      by apply lookup_alloc_old.
  - destruct (decide (inner = nil_error)) as [-> | Hi].
    + eexists _, _. split; [done|]. split_and!; done.
    + eexists _, _. split; [by eapply chainErrors_copy; eauto|]. split_and!.
      * by apply lookup_alloc_old.
      * done.
      * intros _. eexists. split_and!; [done | by apply lookup_ge_None | done | apply lookup_alloc |].
        intros m r h'' Hm. rewrite (mutate_frame _ _ _ _ _ _ Hm) by done.
        by apply lookup_alloc_old.
Qed.

(** The call of [As] that [errors.As] makes answers false and writes
    nothing. *)
Lemma As_on_pointer_to_variable (ase : loc) (h : heap) :
  As ase target_other h = Some (false, h).
Proof. done. Qed.

Lemma Matches_nil_receiver (fuel : nat) (h : heap) (rcs : list types_ResultCode) :
  Matches (S fuel) h None rcs = Some false.
Proof. done. Qed.

Lemma Matches_own_code (fuel : nat) (h : heap) (l : loc) (a : AerospikeError)
    (rcs : list types_ResultCode) :
  h !! l = Some a → ResultCode a ∈ rcs → Matches (S fuel) h (Some l) rcs = Some true.
Proof.
  intros Ha Hin. simpl. rewrite Ha.
  destruct rcs as [|c rcs]; [by apply elem_of_nil in Hin|].
  rewrite bool_decide_eq_false_2 by done.
  by apply existsb_eqb_elem in Hin as ->.
Qed.

Lemma Matches_wrapped_AerospikeError (fuel : nat) (h : heap) (l li : loc)
    (a b : AerospikeError) (rcs : list types_ResultCode) :
  h !! l = Some a → wrapped a = ptr_AerospikeError li →
  h !! li = Some b → ResultCode b ∈ rcs →
  Matches (S (S fuel)) h (Some l) rcs = Some true.
Proof.
  intros Ha Hw Hb Hin.
  destruct (existsb (Z.eqb (ResultCode a)) rcs) eqn:Hown.
  { apply existsb_eqb_elem in Hown. by eapply Matches_own_code. }
  destruct rcs as [|c rcs]; [by apply elem_of_nil in Hin|].
  apply existsb_eqb_elem in Hin.
  simpl in *. by rewrite Ha, Hown, Hw, Hb, Hin.
Qed.

Lemma newCommonError_run (h : heap) (e : error) :
  newCommonError e [] h =
    Some (ptr_AerospikeError (length h),
          h ++ [mkAerospikeError e (ResultCodeToString COMMON_ERROR) None COMMON_ERROR
                  false 0 (stackTrace nil_error)]).
Proof.
  unfold newCommonError, newError, receiver, wrap. run. rewrite lookup_alloc. simpl.
  rewrite length_app. simpl.
  destruct (decide (length h < length h + 1)); [|lia].
  by rewrite insert_alloc.
Qed.

(** C4, as the code has it.  [chainErrors(nil, inner)] returns [inner]
    itself, with the heap unchanged, when [inner] is nil or implements
    [Error]; for an error of another package it returns a fresh
    [COMMON_ERROR] error that wraps [inner].  [chainErrors(outer, nil)]
    returns [outer] itself, with the heap unchanged.  When neither is nil,
    the result is a fresh copy of the struct of [outer] whose [Unwrap()] is
    [inner]; [Matches] on it recognises the result code of [outer], and the
    result code of [inner] when [inner] is an [*AerospikeError]. *)
Theorem chainErrors_nil_and_chain (h : heap) (outer inner : error) :
  (inner = nil_error ∨ is_Error inner = true →
     chainErrors nil_error inner h = Some (inner, h))
  ∧ (inner ≠ nil_error → is_Error inner = false →
     ∃ a, chainErrors nil_error inner h = Some (ptr_AerospikeError (length h), h ++ [a])
       ∧ ResultCode a = COMMON_ERROR ∧ wrapped a = inner)
  ∧ chainErrors outer nil_error h = Some (outer, h)
  ∧ (∀ l a, outer = ptr_AerospikeError l ∨ outer = ptr_constAerospikeError l →
       h !! l = Some a → inner ≠ nil_error →
       ∃ ae h', chainErrors outer inner h = Some (ptr_AerospikeError ae, h')
         ∧ h !! ae = None
         ∧ h' = h ++ [set_wrapped inner a]
         ∧ Unwrap ae h' = Some (inner, h')
         ∧ (∀ fuel rcs, ResultCode a ∈ rcs →
              Matches (S fuel) h' (Some ae) rcs = Some true)
         ∧ (∀ li b fuel rcs, inner = ptr_AerospikeError li → h !! li = Some b →
              ResultCode b ∈ rcs →
              Matches (S (S fuel)) h' (Some ae) rcs = Some true)).
Proof.
  split_and!.
  - intros [-> | He]; [reflexivity|]. destruct inner; try discriminate; reflexivity.
  - intros Hi He. eexists.
    replace (chainErrors nil_error inner h) with (newCommonError inner [] h)
      by (by destruct inner).
    split; [apply newCommonError_run | done].
  - destruct outer; reflexivity.
  - intros l a Ho Ha Hi. eexists _, _. split; [by eapply chainErrors_copy|].
    split_and!.
    + by apply lookup_ge_None.
    + done.
    + unfold Unwrap. run. by rewrite lookup_alloc.
    + intros fuel rcs Hin. eapply Matches_own_code; [apply lookup_alloc | done].
    + intros li b fuel rcs -> Hb Hin.
      eapply Matches_wrapped_AerospikeError;
        [apply lookup_alloc | done | by apply lookup_alloc_old | done].
Qed.

(** *** What [Matches] answers *)

Lemma in_chain_trans (h : heap) (e1 e2 e3 : error) :
  in_chain h e1 e2 → in_chain h e2 e3 → in_chain h e1 e3.
Proof.
  induction 1 as [e He | e w e' Hw Hc IH]; [done|].
  intros H3. eapply in_chain_next; eauto.
Qed.

Lemma As_finds_in_chain (h : heap) (e : error) (ae : loc) :
  As_finds h e ae → in_chain h e (ptr_AerospikeError ae).
Proof.
  induction 1 as [l | l a ae Ha Hf IH | s e ae Hf IH].
  - by apply in_chain_here.
  - eapply in_chain_next; [|exact IH]. simpl. by rewrite Ha.
  - eapply in_chain_next; [|exact IH]. done.
Qed.

Lemma Matches_visits_in_chain (h : heap) (l l' : loc) :
  Matches_visits h l l' → in_chain h (ptr_AerospikeError l) (ptr_AerospikeError l').
Proof.
  induction 1 as [l | l a ae l' Ha Hf Hv IH].
  - by apply in_chain_here.
  - eapply in_chain_next; [simpl; by rewrite Ha|].
    eapply in_chain_trans; [by apply As_finds_in_chain | done].
Qed.

Lemma errors_As_finds (fuel : nat) (h : heap) (e : error) (ae : loc) :
  errors_As fuel h e = Some (Some ae) → As_finds h e ae.
Proof.
  revert e. induction fuel as [|fuel IH]; intros e; [done|]. simpl.
  destruct e as [|l|l|s|s e']; try done.
  - intros [= ->]. constructor.
  - destruct (h !! l) as [a|] eqn:Ha; [|done]. intros Hf. econstructor; eauto.
  - intros Hf. constructor. eauto.
Qed.

Lemma errors_As_mono (fuel k : nat) (h : heap) (e : error) (r : option loc) :
  errors_As fuel h e = Some r → errors_As (fuel + k) h e = Some r.
Proof.
  revert e. induction fuel as [|fuel IH]; intros e; [done|]. simpl.
  destruct e as [|l|l|s|s e']; try done.
  - destruct (h !! l); [apply IH | done].
  - apply IH.
Qed.

Lemma Matches_unfold (fuel : nat) (h : heap) (l : loc) (rcs : list types_ResultCode) :
  Matches (S fuel) h (Some l) rcs =
    if bool_decide (length rcs = 0) then Some false
    else match h !! l with
         | None => None
         | Some a =>
           if existsb (Z.eqb (ResultCode a)) rcs then Some true
           else if decide (wrapped a = nil_error) then Some false
           else match errors_As fuel h (wrapped a) with
                | None => None
                | Some None => Some false
                | Some (Some ae) => Matches fuel h (Some ae) rcs
                end
         end.
Proof.
  simpl. destruct (bool_decide (length rcs = 0)); [done|].
  destruct (h !! l) as [a|]; [|done].
  destruct (existsb (Z.eqb (ResultCode a)) rcs); [done|]. by destruct (wrapped a).
Qed.

Lemma Matches_mono (fuel k : nat) (h : heap) (ase : option loc)
    (rcs : list types_ResultCode) (b : bool) :
  Matches fuel h ase rcs = Some b → Matches (fuel + k) h ase rcs = Some b.
Proof.
  revert ase. induction fuel as [|fuel IH]; intros ase; [done|].
  destruct ase as [l|]; [|done].
  replace (S fuel + k) with (S (fuel + k)) by lia. rewrite !Matches_unfold.
  destruct (bool_decide (length rcs = 0)); [done|].
  destruct (h !! l) as [a|]; [|done].
  destruct (existsb (Z.eqb (ResultCode a)) rcs); [done|].
  destruct (decide (wrapped a = nil_error)); [done|].
  destruct (errors_As fuel h (wrapped a)) as [r|] eqn:Has; [|done].
  rewrite (errors_As_mono _ k _ _ _ Has). destruct r; [apply IH | done].
Qed.

(** Whenever [Matches] answers true, one of the codes is the code of the
    receiver or of an [*AerospikeError] that the walk visits. *)
Lemma Matches_true_visits (fuel : nat) (h : heap) (l : loc) (rcs : list types_ResultCode) :
  Matches fuel h (Some l) rcs = Some true →
  ∃ l' a', Matches_visits h l l' ∧ h !! l' = Some a' ∧ ResultCode a' ∈ rcs.
Proof.
  revert l. induction fuel as [|fuel IH]; intros l; [done|].
  rewrite Matches_unfold.
  destruct (bool_decide (length rcs = 0)); [done|].
  destruct (h !! l) as [a|] eqn:Ha; [|done].
  destruct (existsb (Z.eqb (ResultCode a)) rcs) eqn:Hown.
  { intros _. exists l, a. split_and!; [constructor | done | by apply existsb_eqb_elem]. }
  destruct (decide (wrapped a = nil_error)); [done|].
  destruct (errors_As fuel h (wrapped a)) as [[ae|]|] eqn:Has; try done.
  intros (l' & a' & Hv & Ha' & Hin)%IH. exists l', a'. split_and!; [|done..].
  econstructor; eauto using errors_As_finds.
Qed.

(** An answer true is always backed by a code in the chain. *)
Lemma Matches_sound (fuel : nat) (h : heap) (l : loc) (rcs : list types_ResultCode) :
  Matches fuel h (Some l) rcs = Some true → chain_has_code h (ptr_AerospikeError l) rcs.
Proof.
  intros (l' & a' & Hv & Ha' & Hin)%Matches_true_visits.
  exists (ptr_AerospikeError l'), (ResultCode a'). split_and!.
  - by apply Matches_visits_in_chain.
  - simpl. by rewrite Ha'.
  - done.
Qed.

Lemma As_finds_errors_As (h : heap) (e : error) (ae : loc) :
  As_finds h e ae → ∃ fuel, ∀ k, errors_As (fuel + k) h e = Some (Some ae).
Proof.
  induction 1 as [l | l a ae Ha Hf [fuel IH] | s e ae Hf [fuel IH]].
  - by exists 1.
  - exists (S fuel). intros k. simpl. by rewrite Ha.
  - exists (S fuel). intros k. simpl. done.
Qed.

Lemma As_finds_not_nil (h : heap) (e : error) (ae : loc) :
  As_finds h e ae → e ≠ nil_error.
Proof. by destruct 1. Qed.

(** With enough nested calls allowed, [Matches] answers true as soon as a
    visited error carries one of the codes. *)
Lemma Matches_visits_true (h : heap) (l l' : loc) (a' : AerospikeError)
    (rcs : list types_ResultCode) :
  Matches_visits h l l' → h !! l' = Some a' → ResultCode a' ∈ rcs →
  ∃ fuel, ∀ k, Matches (fuel + k) h (Some l) rcs = Some true.
Proof.
  intros Hv Ha' Hin. induction Hv as [l | l a ae l' Ha Hf Hv IH].
  - exists 1. intros k. by eapply Matches_own_code.
  - destruct (IH Ha') as [f1 IH1]. destruct (As_finds_errors_As _ _ _ Hf) as [f2 Hf2].
    exists (S (f1 + f2)). intros k.
    replace (S (f1 + f2) + k) with (S (f1 + f2 + k)) by lia. rewrite Matches_unfold, Ha.
    destruct rcs as [|c rcs]; [by apply elem_of_nil in Hin|].
    rewrite bool_decide_eq_false_2 by done.
    destruct (existsb (Z.eqb (ResultCode a)) (c :: rcs)); [done|].
    destruct (decide (wrapped a = nil_error)) as [Hn|_];
      [by apply As_finds_not_nil in Hf|].
    replace (f1 + f2 + k) with (f2 + (f1 + k)) at 1 by lia. rewrite Hf2.
    replace (f1 + f2 + k) with (f1 + (f2 + k)) by lia. apply IH1.
Qed.

(** On a chain that ends, [errors.As] and [Matches] return. *)
Lemma chain_ends_returns (h : heap) (e : error) (rcs : list types_ResultCode) :
  chain_ends h e →
  (∃ fuel r, ∀ k, errors_As (fuel + k) h e = Some r)
  ∧ (∀ ae, As_finds h e ae → ∃ fuel b, ∀ k, Matches (fuel + k) h (Some ae) rcs = Some b).
Proof.
  induction 1 as [|s|s e He [[f [r IH1]] IH2]|l a Ha He [[f [r IH1]] IH2]
                  |l a Ha He [[f [r IH1]] IH2]].
  - split; [by exists 1, None|]. inversion 1.
  - split; [by exists 1, None|]. inversion 1.
  - split; [exists (S f), r; intros k; apply IH1|].
    intros ae Hf. inversion Hf; subst. eauto.
  - split; [by exists 1, (Some l)|].
    intros ae Hf. inversion Hf; subst.
    destruct (bool_decide (length rcs = 0)) eqn:Hrcs.
    { exists 1, false. intros k. simpl. by rewrite Hrcs. }
    destruct (existsb (Z.eqb (ResultCode a)) rcs) eqn:Hown.
    { exists 1, true. intros k. simpl. by rewrite Hrcs, Ha, Hown. }
    destruct (decide (wrapped a = nil_error)) as [Hn|Hn].
    { exists 1, false. intros k. simpl. by rewrite Hrcs, Ha, Hown, Hn. }
    destruct r as [ae'|].
    + destruct (IH2 ae') as (f' & b & Hm).
      { eapply errors_As_finds. apply (IH1 0). }
      exists (S (f + f')), b. intros k.
      replace (S (f + f') + k) with (S (f + f' + k)) by lia.
      rewrite Matches_unfold, Hrcs, Ha, Hown. destruct (decide _); [done|].
      replace (f + f' + k) with (f + (f' + k)) at 1 by lia. rewrite IH1.
      replace (f + f' + k) with (f' + (f + k)) by lia. apply Hm.
    + exists (S f), false. intros k.
      replace (S f + k) with (S (f + k)) by lia.
      rewrite Matches_unfold, Hrcs, Ha, Hown. destruct (decide _); [done|].
      by rewrite IH1.
  - split; [exists (S f), r; intros k; simpl; rewrite Ha; apply IH1|].
    intros ae Hf. inversion Hf; simplify_eq. eauto.
Qed.

(** [Matches] on a chain that ends: it returns, and it answers true exactly
    when the list of codes is not empty and one of them is the code of the
    receiver or of an [*AerospikeError] reached by [errors.As] down the
    chain. *)
Lemma Matches_spec (h : heap) (l : loc) (rcs : list types_ResultCode) :
  chain_ends h (ptr_AerospikeError l) →
  ∃ fuel b, (∀ k, Matches (fuel + k) h (Some l) rcs = Some b)
    ∧ (b = true ↔ ∃ l' a', Matches_visits h l l' ∧ h !! l' = Some a' ∧ ResultCode a' ∈ rcs).
Proof.
  intros Hends.
  destruct (chain_ends_returns h _ rcs Hends) as [_ Hret].
  destruct (Hret l (As_here h l)) as (fuel & b & Hm).
  exists fuel, b. split; [done|]. split.
  - intros ->. eapply Matches_true_visits. apply (Hm 0).
  - intros (l' & a' & Hv & Ha' & Hin).
    destruct (Matches_visits_true _ _ _ _ _ Hv Ha' Hin) as [f' Ht].
    specialize (Hm f'). specialize (Ht fuel).
    replace (f' + fuel) with (fuel + f') in Ht by lia. congruence.
Qed.

Lemma plain_chain_ends (h : heap) (e : error) : plain_chain h e → chain_ends h e.
Proof. induction 1; econstructor; eauto. Qed.

Lemma plain_chain_visits (h : heap) (w e' : error) (c : types_ResultCode) :
  plain_chain h w → in_chain h w e' → code_of h e' = Some c →
  ∃ ae l', As_finds h w ae ∧ Matches_visits h ae l' ∧ e' = ptr_AerospikeError l'.
Proof.
  intros Hplain. revert e'.
  induction Hplain as [|s|s e Hplain IH|l a Ha Hplain IH]; intros e' Hchain Hcode.
  - inversion Hchain; simplify_eq/=.
  - inversion Hchain; simplify_eq/=.
  - inversion Hchain as [|? w ? Hw Hrest]; simplify_eq/=.
    destruct (IH _ Hrest Hcode) as (ae & l' & Hf & Hv & ->).
    exists ae, l'. split_and!; [by constructor | done..].
  - inversion Hchain as [|? w ? Hw Hrest]; simplify_eq/=.
    + exists l, l. split_and!; [constructor | constructor | done].
    + rewrite Ha in Hw. simplify_eq/=.
      destruct (IH _ Hrest Hcode) as (ae & l' & Hf & Hv & ->).
      exists l, l'. split_and!; [constructor | | done]. econstructor; eauto.
Qed.

(** X24.  Where no sentinel is wrapped as it is, [Matches] is exact: on a receiver
    (a [*AerospikeError], or the struct of a sentinel) whose wrapped chain
    ends and holds no [*constAerospikeError], it returns, and it answers true
    exactly when one of the codes is the code of the receiver or of an error
    in its chain. *)
Lemma Matches_exact_on_plain_chain (h : heap) (l : loc) (a : AerospikeError)
    (rcs : list types_ResultCode) :
  h !! l = Some a → plain_chain h (wrapped a) →
  ∃ fuel b, (∀ k, Matches (fuel + k) h (Some l) rcs = Some b)
    ∧ (b = true ↔ chain_has_code h (ptr_AerospikeError l) rcs).
Proof.
  intros Ha Hplain.
  destruct (Matches_spec h l rcs) as (fuel & b & Hret & Hb).
  { econstructor; [done|]. by apply plain_chain_ends. }
  exists fuel, b. split; [done|]. rewrite Hb. split.
  - intros (l' & a' & Hv & Ha' & Hin). exists (ptr_AerospikeError l'), (ResultCode a').
    split_and!; [by apply Matches_visits_in_chain | simpl; by rewrite Ha' | done].
  - intros (e' & c & Hchain & Hcode & Hin).
    inversion Hchain as [|? w ? Hw Hrest]; simplify_eq/=.
    + rewrite Ha in Hcode. simplify_eq/=. exists l, a. split_and!; [constructor | done..].
    + rewrite Ha in Hw. simplify_eq/=.
      destruct (plain_chain_visits _ _ _ _ Hplain Hrest Hcode) as (ae & l' & Hf & Hv & ->).
      simpl in Hcode. destruct (h !! l') as [a'|] eqn:Ha'; simplify_eq/=.
      exists l', a'. split_and!; [econstructor; eauto | done..].
Qed.

End ErrorFacts.

(** ** [validate] *)

Lemma nil_indices_nil (i : nat) (row : list NodePtr) :
  nil_indices i row = [] ↔ ∀ pIndex node, row !! pIndex = Some node → node ≠ None.
Proof.
  revert i. induction row as [|node row IH]; intros i; simpl.
  - split; [|done]. intros _ pIndex node. by rewrite lookup_nil.
  - destruct node as [n|].
    + rewrite IH. split.
      * intros Hrow [|pIndex] node; simpl; [by intros [= <-] | apply Hrow].
      * intros Hrow pIndex node. apply (Hrow (S pIndex)).
    + split; [done|]. intros Hrow. by specialize (Hrow 0 None eq_refl).
Qed.

Lemma nil_indices_replicate (i n : nat) :
  nil_indices i (replicate n None) = seq i n.
Proof. revert i. induction n as [|n IH]; intros i; simpl; [done|]. by rewrite IH. Qed.

Lemma extend_at_append_at (nsName : string) (i : nat) (l : list nat) (m : gmap string (list nat)) :
  extend_at nsName l (append_at nsName i m) = extend_at nsName (i :: l) m.
Proof.
  unfold append_at. destruct l as [|j l]; simpl; [done|].
  rewrite lookup_insert_eq. simpl. rewrite insert_insert_eq. by rewrite <- app_assoc.
Qed.

Lemma extend_at_empty (nsName : string) (l : list nat) (m : gmap string (list nat)) :
  extend_at nsName l m = ∅ ↔ m = ∅ ∧ l = [].
Proof.
  destruct l as [|j l]; simpl; [split; [by intros -> | by intros [-> _]]|].
  split; [|by intros [_ ?]]. intros Hm. by apply insert_non_empty in Hm.
Qed.

Lemma extend_at_lookup (nsName : string) (l : list nat) (m : gmap string (list nat)) :
  extend_at nsName l m !! nsName =
    match l with [] => m !! nsName | _ => Some (default [] (m !! nsName) ++ l) end.
Proof. destruct l; simpl; [done|]. by rewrite lookup_insert_eq. Qed.

Lemma extend_at_lookup_ne (nsName ns : string) (l : list nat) (m : gmap string (list nat)) :
  nsName ≠ ns → extend_at nsName l m !! ns = m !! ns.
Proof. intros Hne. destruct l; simpl; [done|]. by rewrite lookup_insert_ne. Qed.

Section ValidateFacts.
Context {decls : Decls} {runtime : GoRuntime} {globals : Globals}.

(** The inner loop only records the nil slots of the row: in the master
    list for replica index 0, in the replica list otherwise. *)
Lemma for_range_validate_node (nsName : string) (replica i : nat) (row : list NodePtr)
    (v : validate_vars) :
  for_range (validate_node nsName replica) i row v =
    if bool_decide (replica = 0) then
      mkVars (extend_at nsName (nil_indices i row) (masterNodePartitionNotDefined v))
        (replicaNodePartitionNotDefined v) (errs v)
    else
      mkVars (masterNodePartitionNotDefined v)
        (extend_at nsName (nil_indices i row) (replicaNodePartitionNotDefined v)) (errs v).
Proof.
  revert i v. induction row as [|node row IH]; intros i v; simpl.
  - destruct v. by case_bool_decide.
  - rewrite IH. destruct node as [n|]; simpl; [done|].
    case_bool_decide; simpl; by rewrite extend_at_append_at.
Qed.

Lemma in_chain_prefix (h h' : heap) (e x : error) :
  h `prefix_of` h' → in_chain h e x → in_chain h' e x.
Proof.
  intros Hpre. induction 1 as [e He | e w e' Hw Hc IH]; [by constructor|].
  eapply in_chain_next; [|exact IH].
  destruct e as [|l|l|s|s e0]; simpl in *; try done;
    destruct (h !! l) as [a|] eqn:Ha; simplify_eq/=;
    by rewrite (prefix_lookup_Some _ _ _ _ Ha Hpre).
Qed.

(** One more error on top of [errs]: the call returns, the result is a
    struct that carries the message and wraps the former [errs]. *)
Lemma chain_newError_run (message : string) (errs : error) (h : heap) :
  ∃ l a h', chain_newError message errs h = Some (ptr_AerospikeError l, h')
    ∧ h `prefix_of` h' ∧ h' !! l = Some a
    ∧ ResultCode a = COMMON_ERROR ∧ msg a = message ∧ wrapped a = errs.
Proof.
  unfold chain_newError, newError. run.
  set (a := mkAerospikeError nil_error message None COMMON_ERROR false 0 (stackTrace nil_error)).
  destruct (decide (errs = nil_error)) as [-> | Herrs].
  - exists (length h), a, (h ++ [a]). split_and!; try done.
    + by apply prefix_app_r.
    + apply lookup_alloc.
  - exists (length (h ++ [a])), (set_wrapped errs a), ((h ++ [a]) ++ [set_wrapped errs a]).
    split_and!; try done.
    + eapply chainErrors_copy; [by left | apply lookup_alloc | done].
    + rewrite <- app_assoc. by apply prefix_app_r.
    + apply lookup_alloc.
Qed.

Lemma in_chain_wrapped (h : heap) (l : loc) (a : AerospikeError) (x : error) :
  h !! l = Some a → in_chain h (wrapped a) x → in_chain h (ptr_AerospikeError l) x.
Proof. intros Ha Hx. eapply in_chain_next; [|done]. simpl. by rewrite Ha. Qed.

(** A loop that chains one new error per entry: every entry has its message
    in the chain of the result, on top of the chain the loop started with. *)
Lemma for_each_chain_newError {A : Type} (body : A → error → M error) (message : A → string)
    (entries : list A) (errs : error) (h : heap) :
  (∀ x, body x = chain_newError (message x)) →
  ∃ e h', for_each_M body entries errs h = Some (e, h')
    ∧ h `prefix_of` h'
    ∧ (e = nil_error ↔ errs = nil_error ∧ entries = [])
    ∧ (∀ x, in_chain h errs x → in_chain h' e x)
    ∧ (∀ y, y ∈ entries → ∃ l a, in_chain h' e (ptr_AerospikeError l) ∧ h' !! l = Some a
          ∧ ResultCode a = COMMON_ERROR ∧ msg a = message y).
Proof.
  intros Hbody. revert errs h.
  induction entries as [|y entries IH]; intros errs h; simpl.
  - exists errs, h. split_and!; [done | done | split; [by intros -> | by intros [-> _]] | done |].
    intros y Hy. by apply elem_of_nil in Hy.
  - destruct (chain_newError_run (message y) errs h) as (l & a & h1 & Hrun & Hpre & Ha & Hc & Hm & Hw).
    destruct (IH (ptr_AerospikeError l) h1) as (e & h' & Hloop & Hpre' & Hnil & Hold & Hnew).
    exists e, h'. run. rewrite Hbody, Hrun. split_and!.
    + done.
    + by etrans.
    + split; [|by intros [_ ?]]. intros He. by apply Hnil in He as [? _].
    + intros x Hx. apply Hold. eapply in_chain_wrapped; [done|]. rewrite Hw.
      by eapply in_chain_prefix.
    + intros y' [-> | Hy']%elem_of_cons; [|by apply Hnew].
      exists l, a. split_and!; [|by eapply prefix_lookup_Some|done..].
      apply Hold. by constructor.
Qed.

Lemma validate_replica_run (nsName : string) (replica : nat) (row : list NodePtr)
    (v : validate_vars) (h : heap) :
  ∃ e h', validate_replica nsName replica row v h =
      Some (for_range (validate_node nsName replica) 0 row
              (mkVars (masterNodePartitionNotDefined v) (replicaNodePartitionNotDefined v) e), h')
    ∧ h `prefix_of` h'
    ∧ (e = nil_error ↔ errs v = nil_error ∧ length row = _PARTITIONS)
    ∧ (e = nil_error → h' = h).
Proof.
  unfold validate_replica. case_bool_decide as Hlen.
  - match goal with |- context [chain_newError ?m] =>
      destruct (chain_newError_run m (errs v) h) as (l & a & h' & Hrun & Hpre & _) end.
    exists (ptr_AerospikeError l), h'. run. rewrite Hrun. split_and!; [done | done | | done].
    split; [done | by intros [_ ?]].
  - exists (errs v), h. run. destruct v as [m r e]; simpl. split_and!; [done | done | | done].
    split; [intros ->; split; [done | lia] | by intros [? _]].
Qed.

Lemma rows_replica_cons (nsName : string) (i : nat) (row : list NodePtr)
    (rows : list (list NodePtr)) (m : gmap string (list nat)) :
  rows_replica nsName (S i) (row :: rows) m =
    rows_replica nsName (S (S i)) rows (extend_at nsName (nil_indices 0 row) m).
Proof. done. Qed.

Lemma for_range_M_validate_replica (nsName : string) (i : nat) (rows : list (list NodePtr))
    (v : validate_vars) (h : heap) :
  ∃ e h', for_range_M (validate_replica nsName) i rows v h =
      Some (mkVars (rows_master nsName i rows (masterNodePartitionNotDefined v))
              (rows_replica nsName i rows (replicaNodePartitionNotDefined v)) e, h')
    ∧ h `prefix_of` h'
    ∧ (e = nil_error ↔ errs v = nil_error ∧ Forall (λ row, length row = _PARTITIONS) rows)
    ∧ (e = nil_error → h' = h).
Proof.
  revert i v h. induction rows as [|row rows IH]; intros i v h.
  - exists (errs v), h. unfold rows_master, rows_replica. destruct v as [m r e], i; simpl.
    all: split_and!; [done | done | | done].
    all: split; [by intros -> | by intros [? _]].
  - destruct (validate_replica_run nsName i row v h) as (e1 & h1 & Hrun & Hpre1 & He1 & Hh1).
    rewrite for_range_validate_node in Hrun.
    match type of Hrun with _ = Some (?v1, _) =>
      destruct (IH (S i) v1 h1) as (e & h' & Hloop & Hpre & He & Hh) end.
    exists e, h'. simpl. run. rewrite Hrun, Hloop. split_and!.
    + unfold rows_master, rows_replica. destruct i; simpl; [done|].
      case_bool_decide; [lia | done].
    + by etrans.
    + rewrite He, Forall_cons. case_bool_decide; simpl; rewrite He1; tauto.
    + intros He'. rewrite Hh by done. apply Hh1.
      apply He in He' as [He' _]. revert He'. by case_bool_decide.
Qed.

Lemma validate_namespace_run (nsName : string) (p : Partitions) (v : validate_vars) (h : heap) :
  ∃ e h', validate_namespace nsName p v h =
      Some (mkVars (rows_master nsName 0 (Replicas p) (masterNodePartitionNotDefined v))
              (rows_replica nsName 0 (Replicas p) (replicaNodePartitionNotDefined v)) e, h')
    ∧ h `prefix_of` h'
    ∧ (e = nil_error ↔ errs v = nil_error ∧ length (regimes p) = _PARTITIONS
         ∧ Forall (λ row, length row = _PARTITIONS) (Replicas p))
    ∧ (e = nil_error → h' = h).
Proof.
  unfold validate_namespace. case_bool_decide as Hlen.
  - match goal with |- context [chain_newError ?m] =>
      destruct (chain_newError_run m (errs v) h) as (l & a & h1 & Hrun & Hpre1 & _) end.
    match goal with |- context [mkVars ?m ?r] =>
      destruct (for_range_M_validate_replica nsName 0 (Replicas p)
                  (mkVars m r (ptr_AerospikeError l)) h1)
        as (e & h' & Hloop & Hpre & He & Hh) end.
    exists e, h'. run. rewrite Hrun, Hloop. simpl in *. split_and!.
    + done.
    + by etrans.
    + split; [by intros [? _]%He | by intros (_ & ? & _)].
    + by intros [? _]%He.
  - destruct (for_range_M_validate_replica nsName 0 (Replicas p) v h)
      as (e & h' & Hloop & Hpre & He & Hh).
    exists e, h'. run. rewrite Hloop. split_and!; [done | done | | done].
    rewrite He. split; [intros [? ?]; split_and!; [done | lia | done] | tauto].
Qed.

Lemma rows_master_empty (nsName : string) (rows : list (list NodePtr))
    (m : gmap string (list nat)) :
  rows_master nsName 0 rows m = ∅ ↔
    m = ∅ ∧ ∀ row, rows !! 0 = Some row →
      ∀ pIndex node, row !! pIndex = Some node → node ≠ None.
Proof.
  unfold rows_master. destruct rows as [|row rows]; simpl.
  - split; [by intros -> | by intros [-> _]].
  - rewrite extend_at_empty, nil_indices_nil. split.
    + intros [-> Hrow]. split; [done|]. by intros ? [= <-].
    + intros [-> Hrow]. split; [done|]. by apply Hrow.
Qed.

Lemma foldl_extend_at_empty (nsName : string) (rows : list (list NodePtr))
    (m : gmap string (list nat)) :
  foldl (λ m row, extend_at nsName (nil_indices 0 row) m) m rows = ∅ ↔
    m = ∅ ∧ ∀ r row, rows !! r = Some row →
      ∀ pIndex node, row !! pIndex = Some node → node ≠ None.
Proof.
  revert m. induction rows as [|row rows IH]; intros m; simpl.
  - split; [intros ->; split; [done|]; intros r row; by rewrite lookup_nil | by intros [-> _]].
  - rewrite IH, extend_at_empty, nil_indices_nil. split.
    + intros [[-> Hrow] Hrows]. split; [done|].
      intros [|r] row'; simpl; [by intros [= <-] | apply Hrows].
    + intros [-> Hrows]. split_and!; [done | apply (Hrows 0); done |].
      intros r row'. apply (Hrows (S r)).
Qed.

Lemma rows_replica_empty (nsName : string) (rows : list (list NodePtr))
    (m : gmap string (list nat)) :
  rows_replica nsName 0 rows m = ∅ ↔
    m = ∅ ∧ ∀ r row, rows !! S r = Some row →
      ∀ pIndex node, row !! pIndex = Some node → node ≠ None.
Proof.
  unfold rows_replica. rewrite foldl_extend_at_empty.
  destruct rows as [|row rows]; simpl; [|done].
  split; intros [-> _]; (split; [done|]); intros r row; by rewrite ?lookup_nil.
Qed.

Lemma rows_master_lookup_ne (nsName ns : string) (i : nat) (rows : list (list NodePtr))
    (m : gmap string (list nat)) :
  nsName ≠ ns → rows_master nsName i rows m !! ns = m !! ns.
Proof.
  intros Hne. unfold rows_master. destruct i, rows; simpl; try done.
  by apply extend_at_lookup_ne.
Qed.

Lemma rows_master_lookup_eq (ns : string) (i : nat) (rows : list (list NodePtr))
    (m1 m2 : gmap string (list nat)) :
  m1 !! ns = m2 !! ns → rows_master ns i rows m1 !! ns = rows_master ns i rows m2 !! ns.
Proof.
  intros Hm. unfold rows_master. destruct i, rows; simpl; try done.
  by rewrite !extend_at_lookup, Hm.
Qed.

(** One namespace keeps the variables clean exactly when it is well formed;
    and the variables never become clean again. *)
Lemma validate_namespace_clean (nsName : string) (p : Partitions) (v v' : validate_vars)
    (h h' : heap) :
  validate_namespace nsName p v h = Some (v', h') →
  (clean v' ↔ clean v ∧ well_formed p) ∧ (errs v' = nil_error → h' = h).
Proof.
  destruct (validate_namespace_run nsName p v h) as (e & h1 & Hrun & _ & He & Hh).
  rewrite Hrun. intros [= <- <-]. split; [|done].
  unfold clean, well_formed.
  cbn [errs masterNodePartitionNotDefined replicaNodePartitionNotDefined].
  rewrite He, rows_master_empty, rows_replica_empty, Forall_lookup.
  split.
  - intros ((He1 & Hreg & Hlen) & [Hm Hrow0] & [Hr Hrows]). split_and!; try done.
    intros replica row Hrow. split; [by eapply Hlen|].
    destruct replica as [|r]; [by apply Hrow0 | by eapply Hrows].
  - intros ((He1 & Hm & Hr) & Hreg & Hrows). split_and!; try done.
    + intros i row Hrow. by apply (Hrows i row).
    + intros row Hrow. by apply (Hrows 0 row).
    + intros r row Hrow. by apply (Hrows (S r) row).
Qed.

Lemma for_each_validate_namespace (entries : list (string * Partitions)) (v : validate_vars)
    (h : heap) :
  ∃ v' h', for_each_M (λ '(nsName, partition), validate_namespace nsName partition)
             entries v h = Some (v', h')
    ∧ h `prefix_of` h'
    ∧ (clean v' ↔ clean v ∧ ∀ nsName p, (nsName, p) ∈ entries → well_formed p)
    ∧ (errs v' = nil_error → errs v = nil_error ∧ h' = h)
    ∧ (∀ ns, ns ∉ entries.*1 →
         masterNodePartitionNotDefined v' !! ns = masterNodePartitionNotDefined v !! ns)
    ∧ (NoDup entries.*1 → ∀ ns p, (ns, p) ∈ entries →
         masterNodePartitionNotDefined v' !! ns =
           rows_master ns 0 (Replicas p) (masterNodePartitionNotDefined v) !! ns).
Proof.
  revert v h. induction entries as [|[nsName p] entries IH]; intros v h; simpl.
  - exists v, h. split_and!; try done.
    + split; [intros Hc; split; [done|]; by intros ?? ?%elem_of_nil | by intros [? _]].
    + by intros _ ?? ?%elem_of_nil.
  - destruct (validate_namespace_run nsName p v h) as (e1 & h1 & Hrun & Hpre1 & He1 & Hh1).
    pose proof (validate_namespace_clean _ _ _ _ _ _ Hrun) as [Hclean1 _].
    match type of Hrun with _ = Some (?v1, _) =>
      destruct (IH v1 h1) as (v' & h' & Hloop & Hpre & Hclean & Hh & Hother & Hmine) end.
    exists v', h'. run. rewrite Hrun, Hloop.
    cbn [errs masterNodePartitionNotDefined replicaNodePartitionNotDefined] in *.
    split_and!.
    + done.
    + by etrans.
    + rewrite Hclean, Hclean1. split.
      * intros [[Hv Hp] Hrest]. split; [done|].
        intros ns q [[= -> ->] | Hin]%elem_of_cons; [done | by eapply Hrest].
      * intros [Hv Hall]. split_and!; [done | apply (Hall nsName); left |].
        intros ns q Hin. apply (Hall ns). by right.
    + intros [Hnil ->]%Hh. split; [by apply He1 in Hnil as [? _] | by apply Hh1].
    + intros ns [Hne Hnin]%not_elem_of_cons. rewrite Hother by done.
      by apply rows_master_lookup_ne.
    + intros [Hnin Hnd]%NoDup_cons ns q [[= -> ->] | Hin]%elem_of_cons.
      * by rewrite Hother.
      * rewrite (Hmine Hnd ns q Hin).
        assert (nsName ≠ ns) as Hne.
        { intros ->. apply Hnin. apply list_elem_of_fmap. by exists (ns, q). }
        apply rows_master_lookup_eq. by apply rows_master_lookup_ne.
Qed.

Lemma elem_of_range_map {A : Type} (m : gmap string A) (k : string) (x : A) :
  (k, x) ∈ range_map m ↔ m !! k = Some x.
Proof. by rewrite range_map_perm, elem_of_map_to_list. Qed.

Lemma NoDup_fst_range_map {A : Type} (m : gmap string A) : NoDup (range_map m).*1.
Proof. rewrite range_map_perm. apply NoDup_fst_map_to_list. Qed.

Lemma range_map_nil {A : Type} (m : gmap string A) : range_map m = [] ↔ m = ∅.
Proof. by rewrite <- map_to_list_empty_iff, <- !Permutation_nil_r, range_map_perm. Qed.

Lemma validate_condition (v : validate_vars) :
  bool_decide (errs v ≠ nil_error)
  || bool_decide (0 < size (masterNodePartitionNotDefined v))
  || bool_decide (0 < size (replicaNodePartitionNotDefined v)) = false ↔ clean v.
Proof.
  unfold clean. rewrite !orb_false_iff, !bool_decide_eq_false.
  rewrite <- !map_size_empty_iff.
  destruct (decide (errs v = nil_error)) as [He|He]; split.
  - intros [[_ ?] ?]. split_and!; [done | lia | lia].
  - intros (_ & ? & ?). split_and!; [by intros ? | lia | lia].
  - by intros [[? _] _].
  - by intros [? _].
Qed.

(** The report, on variables that are not clean: the sentinel's result code
    on top of a chain that holds one message per recorded namespace. *)
Lemma validate_report_run (v : validate_vars) (h : heap) (c : AerospikeError) :
  h !! ErrInvalidPartitionMap = Some c → ¬ clean v →
  ∃ l a h', validate_report v h = Some (ptr_AerospikeError l, h')
    ∧ h `prefix_of` h' ∧ h' !! l = Some a
    ∧ ResultCode a = ResultCode c ∧ msg a = msg c
    ∧ (∀ nsName partitionList,
         masterNodePartitionNotDefined v !! nsName = Some partitionList →
         ∃ l' a', in_chain h' (ptr_AerospikeError l) (ptr_AerospikeError l')
           ∧ h' !! l' = Some a' ∧ ResultCode a' = COMMON_ERROR
           ∧ msg a' = master_message nsName partitionList)
    ∧ (∀ nsName partitionList,
         replicaNodePartitionNotDefined v !! nsName = Some partitionList →
         ∃ l' a', in_chain h' (ptr_AerospikeError l) (ptr_AerospikeError l')
           ∧ h' !! l' = Some a' ∧ ResultCode a' = COMMON_ERROR
           ∧ msg a' = replica_message nsName partitionList).
Proof.
  intros Hc Hdirty. unfold validate_report.
  destruct (for_each_chain_newError
              (λ '(nsName, partitionList), chain_newError (master_message nsName partitionList))
              (λ '(nsName, partitionList), master_message nsName partitionList)
              (range_map (masterNodePartitionNotDefined v)) (errs v) h)
    as (e2 & h2 & Hrun2 & Hpre2 & Hnil2 & _ & Hnew2); [by intros []|].
  destruct (for_each_chain_newError
              (λ '(nsName, partitionList), chain_newError (replica_message nsName partitionList))
              (λ '(nsName, partitionList), replica_message nsName partitionList)
              (range_map (replicaNodePartitionNotDefined v)) e2 h2)
    as (e3 & h3 & Hrun3 & Hpre3 & Hnil3 & Hold3 & Hnew3); [by intros []|].
  assert (e3 ≠ nil_error) as He3.
  { rewrite Hnil3, Hnil2, !range_map_nil. intros [[??]?]. apply Hdirty. by split_and!. }
  assert (h3 !! ErrInvalidPartitionMap = Some c) as Hc3.
  { eapply prefix_lookup_Some; [exact Hc | by etrans]. }
  set (h4 := h3 ++ [set_wrapped nil_error c]).
  set (a := set_wrapped e3 (set_wrapped nil_error c)).
  assert (h3 `prefix_of` h4 ++ [a]) as Hpre4.
  { unfold h4. rewrite <- app_assoc. by apply prefix_app_r. }
  exists (length h4), a, (h4 ++ [a]). run. rewrite Hrun2, Hrun3.
  rewrite (err_run _ _ _ Hc3).
  split_and!.
  - eapply chainErrors_copy; [by left | apply lookup_alloc | done].
  - by do 2 (etrans; [eassumption|]).
  - apply lookup_alloc.
  - done.
  - done.
  - intros nsName partitionList Hm.
    destruct (Hnew2 (nsName, partitionList)) as (l' & a' & Hch & Ha' & Hcode & Hmsg);
      [by apply elem_of_range_map|].
    exists l', a'. split_and!; [| |done..].
    + eapply in_chain_wrapped; [apply lookup_alloc|]. simpl.
      eapply in_chain_prefix; [exact Hpre4|]. by apply Hold3.
    + eapply prefix_lookup_Some; [done | by etrans].
  - intros nsName partitionList Hm.
    destruct (Hnew3 (nsName, partitionList)) as (l' & a' & Hch & Ha' & Hcode & Hmsg);
      [by apply elem_of_range_map|].
    exists l', a'. split_and!; [| |done..].
    + eapply in_chain_wrapped; [apply lookup_alloc|]. simpl.
      by eapply in_chain_prefix.
    + by eapply prefix_lookup_Some.
Qed.

Lemma err_not_nil (c : loc) (h h' : heap) (e : error) :
  err c h = Some (e, h') → e ≠ nil_error.
Proof.
  unfold err, wrap. run. destruct (h !! c); [|done].
  rewrite lookup_alloc. simpl. destruct (decide _); [|done]. by intros [= <- _].
Qed.

Lemma chainErrors_outer_not_nil (outer inner : error) (h h' : heap) (e : error) :
  outer ≠ nil_error → chainErrors outer inner h = Some (e, h') → e ≠ nil_error.
Proof.
  intros Ho. destruct (decide (inner = nil_error)) as [-> | Hi].
  { destruct outer; try done; by intros [= <- _]. }
  destruct outer as [|l|l|s|s e0]; try done.
  - destruct (h !! l) as [a|] eqn:Hl.
    + erewrite chainErrors_copy; [|by left|done..]. by intros [= <- _].
    + destruct inner; try done; unfold chainErrors; run; by rewrite Hl.
  - destruct (h !! l) as [a|] eqn:Hl.
    + erewrite chainErrors_copy; [|by right|done..]. by intros [= <- _].
    + destruct inner; try done; unfold chainErrors; run; by rewrite Hl.
  - by destruct inner.
  - by destruct inner.
Qed.

(** The report is never nil. *)
Lemma validate_report_not_nil (v : validate_vars) (h h' : heap) (e : error) :
  validate_report v h = Some (e, h') → e ≠ nil_error.
Proof.
  unfold validate_report. run.
  destruct (for_each_M _ _ (errs v) h) as [[e2 h2]|]; [|done].
  destruct (for_each_M _ _ e2 h2) as [[e3 h3]|]; [|done].
  destruct (err ErrInvalidPartitionMap h3) as [[s h4]|] eqn:Herr; [|done].
  apply chainErrors_outer_not_nil. by eapply err_not_nil.
Qed.

(** [validate] answers nil exactly on the maps whose [Partitions] are all
    well formed, and then it allocates nothing. *)
Lemma validate_nil_iff (pm : partitionMap) (h : heap) :
  (validate pm h = Some (nil_error, h) ↔ ∀ nsName p, pm !! nsName = Some p → well_formed p)
  ∧ (∀ h', validate pm h = Some (nil_error, h') → h' = h).
Proof.
  unfold validate.
  destruct (for_each_validate_namespace (range_map pm) (mkVars ∅ ∅ nil_error) h)
    as (v & h1 & Hloop & Hpre & Hclean & Hh & _).
  run. rewrite Hloop.
  assert (clean v ↔ ∀ nsName p, pm !! nsName = Some p → well_formed p) as Hwf.
  { rewrite Hclean. split.
    - intros [_ Hall] nsName p Hp. apply (Hall nsName). by apply elem_of_range_map.
    - intros Hall. split; [done|]. intros nsName p Hp. apply (Hall nsName).
      by apply elem_of_range_map. }
  rewrite <- Hwf.
  destruct (_ || _) eqn:Hcond.
  - assert (¬ clean v) as Hdirty by (rewrite <- validate_condition; congruence).
    split; [split; [|done]|].
    + by intros Hv%validate_report_not_nil.
    + by intros h' Hv%validate_report_not_nil.
  - apply validate_condition in Hcond as Hc. destruct (Hh (proj1 Hc)) as [_ ->].
    split; [done|]. by intros h' [= <-].
Qed.

(** What [validate] returns on a map that is not well formed everywhere. *)
Lemma validate_reports (pm : partitionMap) (h : heap) (c : AerospikeError) :
  h !! ErrInvalidPartitionMap = Some c →
  ¬ (∀ nsName p, pm !! nsName = Some p → well_formed p) →
  ∃ l a h', validate pm h = Some (ptr_AerospikeError l, h')
    ∧ h `prefix_of` h' ∧ h' !! l = Some a
    ∧ ResultCode a = ResultCode c ∧ msg a = msg c
    ∧ (∀ nsName p row,
         pm !! nsName = Some p → Replicas p !! 0 = Some row → nil_indices 0 row ≠ [] →
         ∃ l' a', in_chain h' (ptr_AerospikeError l) (ptr_AerospikeError l')
           ∧ h' !! l' = Some a' ∧ ResultCode a' = COMMON_ERROR
           ∧ msg a' = master_message nsName (nil_indices 0 row)).
Proof.
  intros Hc Hbad. unfold validate.
  destruct (for_each_validate_namespace (range_map pm) (mkVars ∅ ∅ nil_error) h)
    as (v & h1 & Hloop & Hpre & Hclean & _ & _ & Hmaster).
  assert (¬ clean v) as Hdirty.
  { intros [_ Hall]%Hclean. apply Hbad. intros nsName p Hp.
    apply (Hall nsName). by apply elem_of_range_map. }
  assert (h1 !! ErrInvalidPartitionMap = Some c) as Hc1 by by eapply prefix_lookup_Some.
  destruct (validate_report_run v h1 c Hc1 Hdirty)
    as (l & a & h' & Hrun & Hpre' & Ha & Hcode & Hmsg & Hmasters & _).
  exists l, a, h'. run. rewrite Hloop.
  destruct (_ || _) eqn:Hcond; [|by apply validate_condition in Hcond].
  split_and!; [done | by etrans | done..|].
  intros nsName p row Hp Hrow Hnil. apply Hmasters.
  rewrite (Hmaster (NoDup_fst_range_map pm) nsName p) by by apply elem_of_range_map.
  unfold rows_master. destruct (Replicas p) as [|row' rows]; simplify_eq/=.
  rewrite extend_at_lookup, lookup_empty. simpl. by destruct (nil_indices 0 row).
Qed.

(** C1, as the code has it.  When [validate] returns nil, every namespace
    whose [Partitions] has a row at replica index 0 has a non-nil node in that
    row at every partition index below [_PARTITIONS].  ([validate] looks at
    the rows that exist: a [Partitions] with no replica row passes.) *)
Theorem validate_nil_master_defined
    (pm : partitionMap) (h h' : heap) (nsName : string) (p : Partitions)
    (row : list NodePtr) (pIndex : nat) :
  validate pm h = Some (nil_error, h') →
  pm !! nsName = Some p →
  Replicas p !! 0 = Some row →
  pIndex < _PARTITIONS →
  ∃ node, row !! pIndex = Some (Some node).
Proof.
  intros Hv Hp Hrow Hlt.
  destruct (validate_nil_iff pm h) as [Hiff Hheap].
  rewrite (Hheap _ Hv) in Hv. pose proof (proj1 Hiff Hv) as Hwf.
  destruct (Hwf nsName p Hp) as [_ Hrows].
  destruct (Hrows 0 row Hrow) as [Hlen Hslots].
  destruct (lookup_lt_is_Some_2 row pIndex) as [node Hnode]; [lia|].
  destruct node as [n|]; [by exists n|]. by destruct (Hslots pIndex None).
Qed.

(** C10.  [validate] returns nil only when, in every namespace, the regimes
    and every replica row have exactly [_PARTITIONS] entries and every slot of
    every replica row, whatever its replica index, is non-nil.  A nil slot in
    a row of replica index above 0 is enough for [validate] to return a
    non-nil error, whatever the master row holds. *)
Theorem validate_nil_needs_every_replica_slot (pm : partitionMap) (h : heap) :
  (∀ h', validate pm h = Some (nil_error, h') →
     ∀ nsName p, pm !! nsName = Some p →
       length (regimes p) = _PARTITIONS
       ∧ ∀ replica row, Replicas p !! replica = Some row →
           length row = _PARTITIONS
           ∧ ∀ pIndex node, row !! pIndex = Some node → node ≠ None)
  ∧ (∀ c nsName p replica row pIndex,
       h !! ErrInvalidPartitionMap = Some c →
       pm !! nsName = Some p → Replicas p !! replica = Some row → 0 < replica →
       row !! pIndex = Some None →
       ∃ e h', validate pm h = Some (e, h') ∧ e ≠ nil_error).
Proof.
  destruct (validate_nil_iff pm h) as [Hiff Hheap]. split.
  - intros h' Hv. rewrite (Hheap _ Hv) in Hv. exact (proj1 Hiff Hv).
  - intros c nsName p replica row pIndex Hc Hp Hrow _ Hslot.
    destruct (validate_reports pm h c Hc) as (l & a & h' & Hv & _).
    + intros Hall. destruct (Hall nsName p Hp) as [_ Hrows].
      destruct (Hrows replica row Hrow) as [_ Hslots]. by destruct (Hslots pIndex None).
    + by exists (ptr_AerospikeError l), h'.
Qed.

End ValidateFacts.

(** ** [newPartitions] and [setReplicaCount] *)

Lemma newPartitions_rows_run (partitionCount : Z) (n : nat) (rows : list (list NodePtr)) :
  (0 ≤ partitionCount)%Z →
  newPartitions_rows partitionCount n (length rows) (rows ++ replicate n []) =
    Some (rows ++ replicate n (replicate (Z.to_nat partitionCount) None)).
Proof.
  intros Hpc. revert rows. induction n as [|n IH]; intros rows; simpl; [done|].
  unfold make. rewrite decide_True by done. simpl.
  rewrite insert_app_r_alt, Nat.sub_diag by lia. simpl.
  rewrite (cons_middle _ rows), app_assoc.
  replace (S (length rows)) with (length (rows ++ [replicate (Z.to_nat partitionCount) None]))
    by (rewrite length_app; simpl; lia).
  rewrite IH. by rewrite <- app_assoc.
Qed.

Lemma newPartitions_run (partitionCount replicaCount : Z) (cpMode : bool) :
  (0 ≤ partitionCount)%Z → (0 ≤ replicaCount)%Z →
  newPartitions partitionCount replicaCount cpMode =
    Some (mkPartitions
            (replicate (Z.to_nat replicaCount) (replicate (Z.to_nat partitionCount) None))
            cpMode (replicate (Z.to_nat partitionCount) 0%Z)).
Proof.
  intros Hpc Hrc. unfold newPartitions, make. rewrite !decide_True by done. simpl.
  rewrite length_replicate.
  pose proof (newPartitions_rows_run partitionCount (Z.to_nat replicaCount) [] Hpc) as Hrows.
  simpl in Hrows. by rewrite Hrows.
Qed.

Section PartitionsFacts.
Context {decls : Decls} {runtime : GoRuntime} {globals : Globals}.

(** C6.  [newPartitions(4096, 2, cpMode)] has two rows of 4096 nil slots and
    4096 regimes.  On any map that holds it for some namespace, [validate]
    returns a non-nil error: its own result code is that of the sentinel
    [ErrInvalidPartitionMap], so [Matches] recognises
    [INVALID_CLUSTER_PARTITION_MAP], and its chain holds a [COMMON_ERROR]
    error whose message is the one for the master list made of the partition
    indices 0 to 4095 of that namespace: it reports 4096 master partitions
    not defined. *)
Theorem validate_newPartitions_4096
    (pm : partitionMap) (nsName : string) (cpMode : bool) (h : heap) (c : AerospikeError) :
  pm !! nsName = newPartitions 4096 2 cpMode →
  h !! ErrInvalidPartitionMap = Some c →
  ResultCode c = INVALID_CLUSTER_PARTITION_MAP →
  newPartitions 4096 2 cpMode =
    Some (mkPartitions (replicate 2 (replicate 4096 None)) cpMode (replicate 4096 0%Z))
  ∧ ∃ l h', validate pm h = Some (ptr_AerospikeError l, h')
      ∧ (∀ fuel, Matches (S fuel) h' (Some l) [INVALID_CLUSTER_PARTITION_MAP] = Some true)
      ∧ ∃ l' a', in_chain h' (ptr_AerospikeError l) (ptr_AerospikeError l')
          ∧ h' !! l' = Some a' ∧ ResultCode a' = COMMON_ERROR
          ∧ msg a' = master_message nsName (seq 0 4096)
          ∧ msg a' = "Master partition nodes not defined for namespace `" +:+ nsName
                     +:+ "`: 4096 out of " +:+ pretty _PARTITIONS.
Proof.
  intros Hpm Hc Hcode.
  assert (newPartitions 4096 2 cpMode =
    Some (mkPartitions (replicate 2 (replicate 4096 None)) cpMode (replicate 4096 0%Z))) as Hnew.
  { by rewrite newPartitions_run by lia. }
  split; [done|]. rewrite Hnew in Hpm.
  set (row := replicate 4096 (@None positive)).
  assert (nil_indices 0 row = seq 0 4096) as Hnil by apply nil_indices_replicate.
  destruct (validate_reports pm h c Hc) as (l & a & h' & Hv & _ & Ha & Hcode' & _ & Hmasters).
  { intros Hall. destruct (Hall nsName _ Hpm) as [_ Hrows].
    destruct (Hrows 0 row eq_refl) as [_ Hslots].
    by destruct (Hslots 0 None). }
  exists l, h'. split_and!; [done| |].
  - intros fuel. eapply Matches_own_code; [done|]. rewrite Hcode', Hcode. by left.
  - destruct (Hmasters nsName _ row Hpm eq_refl) as (l' & a' & Hch & Ha' & Hc' & Hmsg).
    { by rewrite Hnil. }
    exists l', a'. split_and!; [done.. | by rewrite Hmsg, Hnil |].
    rewrite Hmsg, Hnil. unfold master_message. rewrite length_seq.
    by replace (pretty 4096) with "4096" by by vm_compute.
Qed.

Lemma setReplicaCount_extend_app (n : nat) (replicas : list (list NodePtr)) :
  setReplicaCount_extend n replicas = replicas ++ replicate n (replicate _PARTITIONS None).
Proof.
  revert replicas. induction n as [|n IH]; intros replicas; simpl.
  - by rewrite app_nil_r.
  - by rewrite IH, <- app_assoc.
Qed.

(** C8.  For every replica count [n], [setReplicaCount] returns.  When [n]
    is above the number of rows, every row there was is still there, element
    for element, followed by fresh rows of [_PARTITIONS] nil slots up to the
    new count.  Otherwise the rows are truncated to the first [n] ones, each
    unchanged.  [SCMode] and the regimes are not touched. *)
Theorem setReplicaCount_grows_or_truncates (p : Partitions) (n : nat) :
  ∃ p', setReplicaCount p (Z.of_nat n) = Some p'
    ∧ SCMode p' = SCMode p ∧ regimes p' = regimes p
    ∧ length (Replicas p') = n
    ∧ (length (Replicas p) < n →
         Replicas p' = Replicas p ++
           replicate (n - length (Replicas p)) (replicate _PARTITIONS None)
         ∧ (∀ i row, Replicas p !! i = Some row → Replicas p' !! i = Some row)
         ∧ (∀ i, length (Replicas p) ≤ i → i < n →
              Replicas p' !! i = Some (replicate _PARTITIONS None)))
    ∧ (n ≤ length (Replicas p) →
         Replicas p' = take n (Replicas p)
         ∧ ∀ i, i < n → Replicas p' !! i = Replicas p !! i).
Proof.
  unfold setReplicaCount.
  destruct (decide (Z.of_nat (length (Replicas p)) < Z.of_nat n)%Z) as [Hlt|Hge].
  - eexists. split; [done|]. simpl. rewrite setReplicaCount_extend_app, Nat2Z.id.
    split_and!; [done | done | rewrite length_app, length_replicate; lia | | intros; lia].
    intros _. split_and!; [done | |].
    + intros i row Hrow. by apply lookup_app_l_Some.
    + intros i Hi Hi'. rewrite lookup_app_r by done.
      apply lookup_replicate_2. lia.
  - rewrite decide_True by lia. eexists. split; [done|]. simpl. rewrite Nat2Z.id.
    split_and!; [done | done | rewrite length_take; lia | intros; lia |].
    intros _. split; [done|]. intros i Hi. by apply lookup_take_lt.
Qed.

(** A negative argument is no replica count: the slice expression panics. *)
Lemma setReplicaCount_negative_panics (p : Partitions) (replicaCount : Z) :
  (replicaCount < 0)%Z → setReplicaCount p replicaCount = None.
Proof.
  intros Hneg. unfold setReplicaCount.
  rewrite decide_False by lia. by rewrite decide_False by lia.
Qed.

(** C5.  In the fencing rule of the spec, an update for a partition is
    applied exactly when its regime is at least the stored one: then the
    stored regime becomes the incoming one and the node of the partition is
    the incoming node; a strictly smaller regime leaves the [Partitions]
    value as it was, stored regime and node included. *)
Theorem applyRegimeUpdate_accepts_iff_not_stale
    (p : Partitions) (replica partition : nat) (regime stored : Z) (node : NodePtr)
    (row : list NodePtr) :
  regimes p !! partition = Some stored →
  Replicas p !! replica = Some row →
  partition < length row →
  let p' := applyRegimeUpdate p replica partition regime node in
  ((stored ≤ regime)%Z →
     regimes p' !! partition = Some regime
     ∧ Replicas p' !! replica = Some (<[partition := node]> row)
     ∧ <[partition := node]> row !! partition = Some node)
  ∧ ((regime < stored)%Z →
     p' = p ∧ regimes p' !! partition = Some stored ∧ Replicas p' !! replica = Some row)
  ∧ (regimes p' !! partition = Some regime ↔ (stored ≤ regime)%Z).
Proof.
  intros Hreg Hrow Hlt. unfold applyRegimeUpdate. rewrite Hreg.
  pose proof (lookup_lt_Some _ _ _ Hreg) as Hlt'.
  destruct (decide (stored ≤ regime)%Z) as [Hle|Hgt]; simpl.
  - split_and!.
    + intros _. split_and!.
      * by apply list_lookup_insert_eq.
      * by rewrite list_lookup_alter_eq, Hrow.
      * by apply list_lookup_insert_eq.
    + intros; lia.
    + split; [done|]. intros _. by apply list_lookup_insert_eq.
  - split_and!; [intros; lia | done |].
    rewrite Hreg. split; [intros [= ->]; lia | done].
Qed.

End PartitionsFacts.

(** ** [clone] *)

Module CloneFacts.
Import Mem.

Section Arrays.
Context {A : Type}.
Implicit Types (hp : list (list A)) (s : slice) (xs : list A).

Lemma arr_contents_length hp s xs : arr_contents hp s = Some xs → length xs = len s.
Proof.
  unfold arr_contents. destruct (decide (len s = 0)) as [->|]; [by intros [= <-]|].
  destruct (hp !! arr s) as [a|]; simpl; [|done].
  destruct (decide _); [|done]. intros [= <-].
  rewrite length_take, length_drop. lia.
Qed.

Lemma arr_contents_bound hp s xs :
  arr_contents hp s = Some xs → len s ≠ 0 → arr s < length hp.
Proof.
  unfold arr_contents. intros Hc Hlen. rewrite decide_False in Hc by done.
  destruct (hp !! arr s) as [a|] eqn:Ha; [|done]. by apply lookup_lt_Some in Ha.
Qed.

Lemma arr_contents_ext hp1 hp2 s :
  (len s ≠ 0 → hp1 !! arr s = hp2 !! arr s) → arr_contents hp1 s = arr_contents hp2 s.
Proof.
  intros Hagree. unfold arr_contents. destruct (decide (len s = 0)); [done|].
  by rewrite Hagree.
Qed.

Lemma arr_contents_app hp hp' s xs :
  arr_contents hp s = Some xs → arr_contents (hp ++ hp') s = Some xs.
Proof.
  intros Hc. rewrite <- Hc. apply arr_contents_ext. intros Hlen.
  apply lookup_app_l. by eapply arr_contents_bound.
Qed.

Lemma arr_read_contents hp s xs i :
  arr_contents hp s = Some xs → i < len s → arr_read hp s i = xs !! i.
Proof.
  unfold arr_contents, arr_read. intros Hc Hi.
  rewrite decide_False in Hc by lia. rewrite decide_True by done.
  destruct (hp !! arr s) as [a|]; simpl in *; [|done].
  destruct (decide _); [|done]. simplify_eq.
  by rewrite lookup_take_lt, lookup_drop by done.
Qed.

Lemma arr_read_bound hp s i (x : A) : arr_read hp s i = Some x → i < len s.
Proof. unfold arr_read. by destruct (decide (i < len s)). Qed.

(** A write changes one array, and only if the index is within the slice. *)
Lemma arr_write_effect hp hp' s i (x : A) :
  arr_write hp s i x = Some hp' →
  i < len s ∧ arr s < length hp ∧ length hp' = length hp
  ∧ ∀ k, k ≠ arr s → hp' !! k = hp !! k.
Proof.
  unfold arr_write. destruct (decide (i < len s)); [|done].
  destruct (hp !! arr s) as [a|] eqn:Ha; simpl; [|done].
  destruct (decide _); [|done]. intros [= <-].
  split_and!; [done | by eapply lookup_lt_Some | by rewrite length_insert |].
  intros k Hk. by rewrite list_lookup_insert_ne.
Qed.

(** Writing into the array that was allocated last. *)
Lemma arr_write_fresh hp (a : list A) n i (x : A) :
  i < n → i < length a →
  arr_write (hp ++ [a]) (mkSlice (length hp) 0 n) i x = Some (hp ++ [<[i := x]> a]).
Proof.
  intros Hi Hi'. unfold arr_write. simpl. rewrite decide_True by done.
  rewrite list_lookup_middle by done. simpl. rewrite decide_True by done.
  by rewrite insert_app_r_alt, Nat.sub_diag by lia.
Qed.

Lemma arr_write_from_fresh hp (a : list A) n i xs :
  i + length xs ≤ n → n = length a →
  arr_write_from (hp ++ [a]) (mkSlice (length hp) 0 n) i xs =
    Some (hp ++ [take i a ++ xs ++ drop (i + length xs) a]).
Proof.
  revert i a. induction xs as [|x xs IH]; intros i a Hle Hn; simpl in *.
  - by rewrite Nat.add_0_r, take_drop.
  - rewrite arr_write_fresh by lia. simpl. rewrite IH by (rewrite ?length_insert; lia).
    do 3 f_equal.
    rewrite (take_S_r _ _ x) by (apply list_lookup_insert_eq; lia).
    rewrite take_insert_ge by done. rewrite <- app_assoc. simpl.
    rewrite drop_insert_lt by lia.
    by replace (i + S (length xs)) with (S (i + length xs)) by lia.
Qed.

(** [copy] into a slice just made with the length of the source. *)
Lemma arr_copy_fresh hp s xs (zero : A) :
  arr_contents hp s = Some xs →
  arr_copy (hp ++ [replicate (len s) zero]) (mkSlice (length hp) 0 (len s)) s =
    Some (hp ++ [xs]).
Proof.
  intros Hc. unfold arr_copy. rewrite (arr_contents_app _ _ _ _ Hc). simpl.
  pose proof (arr_contents_length _ _ _ Hc) as Hlen.
  rewrite Nat.min_id, take_ge by lia.
  rewrite arr_write_from_fresh by (rewrite ?length_replicate; lia).
  rewrite take_0, drop_ge by (rewrite length_replicate; lia).
  by rewrite app_nil_r.
Qed.

(** The contents of a slice that spans the whole of an array. *)
Lemma arr_contents_whole hp s xs :
  hp !! arr s = Some xs → off s = 0 → len s = length xs → arr_contents hp s = Some xs.
Proof.
  intros Ha Hoff Hlen. unfold arr_contents. destruct (decide (len s = 0)) as [Hz|].
  { destruct xs; [done | simpl in *; lia]. }
  rewrite Ha. simpl. rewrite Hoff. simpl. rewrite decide_True by lia.
  rewrite drop_0. by rewrite take_ge by lia.
Qed.

End Arrays.

Ltac run_St :=
  unfold mbind, St_bind, mret, St_ret, load_struct, alloc_struct, make_nodes, make_rows,
    make_ints, read_row, write_row, store_node, store_int, copy_nodes, copy_ints in *;
  simpl in *.

Lemma arr_read_app {A : Type} (hp hp' : list (list A)) (s : slice) (xs : list A) (i : nat) :
  arr_contents hp s = Some xs → i < len s → arr_read (hp ++ hp') s i = xs !! i.
Proof. intros Hc Hi. eapply arr_read_contents; [by apply arr_contents_app | done]. Qed.

Section Clone.
Variables (N : list (list NodePtr)) (R : list (list slice)) (I : list (list Z))
  (S0 : list struct_Partitions).
Variables (pR : slice) (rows : list slice) (grid : list (list NodePtr)).
Hypothesis Hrows : arr_contents R pR = Some rows.
Hypothesis Hgrid : mapM (arr_contents N) rows = Some grid.

Lemma grid_length : length grid = length rows.
Proof. apply mapM_Some in Hgrid. symmetry. by eapply Forall2_length. Qed.

Lemma grid_lookup (k : nat) (r : slice) :
  rows !! k = Some r → ∃ g, grid !! k = Some g ∧ arr_contents N r = Some g.
Proof. apply mapM_Some in Hgrid. intros Hr. by eapply Forall2_lookup_l in Hgrid. Qed.

Lemma clone_rows_run (m k : nat) (copied : list slice) :
  k + m = len pR → length copied = k →
  clone_rows pR (mkSlice (length R) 0 (len pR)) m k
    (mkStore (N ++ take k grid) (R ++ [copied ++ replicate m nil_slice]) I S0) =
  Some (tt, mkStore (N ++ grid) (R ++ [copied ++ fresh_rows (length N + k) (drop k rows)]) I S0).
Proof.
  pose proof (arr_contents_length _ _ _ Hrows) as Hn. pose proof grid_length as Hg.
  revert k copied. induction m as [|m IH]; intros k copied Hk Hcopied.
  - simpl. rewrite take_ge, drop_ge by lia. done.
  - destruct (lookup_lt_is_Some_2 rows k) as [r Hr]; [lia|].
    destruct (grid_lookup k r Hr) as (g & Hg' & Hcont).
    cbn [clone_rows]. run_St.
    rewrite (arr_read_app _ _ _ _ _ Hrows) by lia. rewrite Hr.
    cbn [nodeArrays rowArrays intArrays structs].
    rewrite (arr_copy_fresh (N ++ take k grid) r g None) by by apply arr_contents_app.
    cbn [nodeArrays rowArrays intArrays structs].
    rewrite (arr_write_fresh R (copied ++ nil_slice :: replicate m nil_slice) (len pR) k)
      by (rewrite ?length_app; simpl; lia).
    cbn [nodeArrays rowArrays intArrays structs].
    rewrite insert_app_r_alt, Hcopied, Nat.sub_diag by lia. simpl.
    rewrite <- app_assoc, <- (take_S_r grid k g) by done.
    rewrite (cons_middle _ copied), app_assoc.
    rewrite IH by (rewrite ?length_app; simpl; lia).
    rewrite (drop_S rows r k) by done. simpl.
    rewrite <- app_assoc. simpl.
    rewrite length_app, length_take, Nat.min_l by lia.
    by replace (length N + S k) with (S (length N + k)) by lia.
Qed.

End Clone.

Lemma fresh_rows_length (base : nat) (rows : list slice) :
  length (fresh_rows base rows) = length rows.
Proof. revert base. induction rows as [|r rows IH]; intros base; simpl; [done|]. by rewrite IH. Qed.

Lemma fresh_rows_lookup (base : nat) (rows : list slice) (i : nat) (r : slice) :
  fresh_rows base rows !! i = Some r → base ≤ arr r.
Proof.
  revert base i. induction rows as [|r0 rows IH]; intros base i; simpl; [done|].
  destruct i as [|i]; simpl.
  - intros [= <-]. simpl. lia.
  - intros Hr%IH. lia.
Qed.

(** The rows [clone] made denote the grid it copied. *)
Lemma fresh_rows_contents (N : list (list NodePtr)) (rows : list slice)
    (grid : list (list NodePtr)) :
  Forall2 (λ r g, length g = len r) rows grid →
  mapM (arr_contents (N ++ grid)) (fresh_rows (length N) rows) = Some grid.
Proof.
  intros Hlen. apply mapM_Some. revert N.
  induction Hlen as [|r g rows grid Hg Hlen IH]; intros N; simpl; [constructor|].
  constructor.
  - apply arr_contents_whole; simpl; [by rewrite list_lookup_middle | done | done].
  - specialize (IH (N ++ [g])). rewrite <- app_assoc, length_app in IH. simpl in IH.
    by rewrite Nat.add_1_r in IH.
Qed.

Lemma clone_run (σ : store) (p : nat) (pv : struct_Partitions) (rows : list slice)
    (grid : list (list NodePtr)) (regs : list Z) :
  structs σ !! p = Some pv →
  arr_contents (rowArrays σ) (f_Replicas pv) = Some rows →
  mapM (arr_contents (nodeArrays σ)) rows = Some grid →
  arr_contents (intArrays σ) (f_regimes pv) = Some regs →
  clone p σ =
    Some (length (structs σ),
          mkStore (nodeArrays σ ++ grid)
            (rowArrays σ ++ [fresh_rows (length (nodeArrays σ)) rows])
            (intArrays σ ++ [regs])
            (structs σ ++
               [mkStruct (mkSlice (length (rowArrays σ)) 0 (len (f_Replicas pv))) (f_SCMode pv)
                  (mkSlice (length (intArrays σ)) 0 (len (f_regimes pv)))])).
Proof.
  intros Hp Hrows Hgrid Hregs. destruct σ as [N R I S0]. simpl in *.
  unfold clone. run_St. rewrite Hp. cbn [nodeArrays rowArrays intArrays structs].
  pose proof (clone_rows_run N R I S0 _ _ _ Hrows Hgrid (len (f_Replicas pv)) 0 []) as Hloop.
  simpl in Hloop. rewrite app_nil_r, drop_0, Nat.add_0_r in Hloop.
  rewrite Hloop by done.
  cbn [nodeArrays rowArrays intArrays structs].
  by rewrite (arr_copy_fresh I _ regs 0%Z).
Qed.

(** The contents a struct denotes depend on its footprint only. *)
Lemma contents_agree (σ1 σ2 : store) (pv : struct_Partitions) (c : Partitions) :
  contents σ1 pv = Some c →
  (len (f_Replicas pv) ≠ 0 →
     rowArrays σ2 !! arr (f_Replicas pv) = rowArrays σ1 !! arr (f_Replicas pv)) →
  (∀ k, node_footprint (rowArrays σ1) pv k → nodeArrays σ2 !! k = nodeArrays σ1 !! k) →
  (∀ k, int_footprint pv k → intArrays σ2 !! k = intArrays σ1 !! k) →
  contents σ2 pv = Some c.
Proof.
  unfold contents. intros Hc HR HN HI.
  destruct (arr_contents (rowArrays σ1) (f_Replicas pv)) as [rows|] eqn:Hrows; [|done].
  simpl in Hc.
  destruct (mapM (arr_contents (nodeArrays σ1)) rows) as [grid|] eqn:Hgrid; [|done].
  simpl in Hc.
  destruct (arr_contents (intArrays σ1) (f_regimes pv)) as [regs|] eqn:Hregs; [|done].
  simpl in Hc. simplify_eq.
  rewrite (arr_contents_ext (rowArrays σ2) (rowArrays σ1)), Hrows by done. simpl.
  assert (mapM (arr_contents (nodeArrays σ2)) rows = Some grid) as ->.
  { apply mapM_Some. apply mapM_Some in Hgrid.
    apply Forall2_same_length_lookup. split; [by eapply Forall2_length|].
    intros i r g Hr Hg.
    rewrite <- (Forall2_lookup_lr _ _ _ _ _ _ Hgrid Hr Hg).
    apply arr_contents_ext. intros Hlen. apply HN. exists i, r. split_and!; [|done..].
    rewrite (arr_read_contents _ _ _ _ Hrows); [done|].
    apply lookup_lt_Some in Hr. by rewrite (arr_contents_length _ _ _ Hrows) in Hr. }
  simpl.
  rewrite (arr_contents_ext (intArrays σ2) (intArrays σ1)), Hregs; [done|].
  intros Hlen. by apply HI.
Qed.

(** A write through a pointer stays within the footprint of its struct and
    leaves the structs and the row headers alone. *)
Lemma apply_write_effect (σ1 σ2 : store) (p : nat) (pv : struct_Partitions) (w : write) :
  structs σ1 !! p = Some pv →
  apply_write p w σ1 = Some (tt, σ2) →
  structs σ2 = structs σ1 ∧ rowArrays σ2 = rowArrays σ1
  ∧ (∀ k, ¬ node_footprint (rowArrays σ1) pv k → nodeArrays σ2 !! k = nodeArrays σ1 !! k)
  ∧ (∀ k, ¬ int_footprint pv k → intArrays σ2 !! k = intArrays σ1 !! k).
Proof.
  intros Hp. destruct w as [i j node | k0 v]; simpl; unfold write_node, write_regime; run_St;
    rewrite Hp.
  - destruct (arr_read (rowArrays σ1) (f_Replicas pv) i) as [r|] eqn:Hr; [|done].
    destruct (arr_write (nodeArrays σ1) r j node) as [hp|] eqn:Hw; [|done].
    intros [= <-]. simpl. split_and!; [done..| |done].
    apply arr_write_effect in Hw as (Hj & _ & _ & Hother).
    intros k Hk. apply Hother. intros ->. apply Hk. exists i, r. split_and!; [done | lia | done].
  - destruct (arr_write (intArrays σ1) (f_regimes pv) k0 v) as [hp|] eqn:Hw; [|done].
    intros [= <-]. simpl. split_and!; [done..|].
    apply arr_write_effect in Hw as (Hk0 & _ & _ & Hother).
    intros k Hk. apply Hother. intros ->. apply Hk. split; [lia | done].
Qed.

Lemma apply_writes_effect (σ1 σ2 : store) (p : nat) (pv : struct_Partitions) (ws : list write) :
  structs σ1 !! p = Some pv →
  apply_writes p ws σ1 = Some (tt, σ2) →
  structs σ2 = structs σ1 ∧ rowArrays σ2 = rowArrays σ1
  ∧ (∀ k, ¬ node_footprint (rowArrays σ1) pv k → nodeArrays σ2 !! k = nodeArrays σ1 !! k)
  ∧ (∀ k, ¬ int_footprint pv k → intArrays σ2 !! k = intArrays σ1 !! k).
Proof.
  intros Hp. revert σ1 Hp. induction ws as [|w ws IH]; intros σ1 Hp; simpl.
  - by intros [= <-].
  - unfold mbind, St_bind.
    destruct (apply_write p w σ1) as [[[] σm]|] eqn:Hw; [|done].
    destruct (apply_write_effect _ _ _ _ _ Hp Hw) as (HS & HR & HN & HI).
    intros Hws. destruct (IH σm) as (HS' & HR' & HN' & HI'); [by rewrite HS | done |].
    split_and!.
    + by rewrite HS'.
    + by rewrite HR'.
    + intros k Hk. rewrite HN', HN; [done | done | by rewrite HR].
    + intros k Hk. by rewrite HI', HI.
Qed.

(** The footprint of a struct whose slices are within bounds lies within the
    store. *)
Lemma node_footprint_bound (σ : store) (pv : struct_Partitions) (c : Partitions)
    (X : list (list slice)) (k : nat) :
  contents σ pv = Some c →
  node_footprint (rowArrays σ ++ X) pv k → k < length (nodeArrays σ).
Proof.
  unfold contents. intros Hc (i & r & Hr & Hlen & <-).
  destruct (arr_contents (rowArrays σ) (f_Replicas pv)) as [rows|] eqn:Hrows; [|done].
  simpl in Hc.
  destruct (mapM (arr_contents (nodeArrays σ)) rows) as [grid|] eqn:Hgrid; [|done].
  rewrite (arr_read_app _ _ _ _ _ Hrows) in Hr by by eapply arr_read_bound.
  destruct (grid_lookup _ _ _ Hgrid i r Hr) as (g & _ & Hg).
  by eapply arr_contents_bound.
Qed.

Lemma int_footprint_bound (σ : store) (pv : struct_Partitions) (c : Partitions) (k : nat) :
  contents σ pv = Some c → int_footprint pv k → k < length (intArrays σ).
Proof.
  unfold contents. intros Hc [Hlen <-].
  destruct (arr_contents (rowArrays σ) (f_Replicas pv)) as [rows|]; [|done]. simpl in Hc.
  destruct (mapM (arr_contents (nodeArrays σ)) rows) as [grid|]; [|done]. simpl in Hc.
  destruct (arr_contents (intArrays σ) (f_regimes pv)) as [regs|] eqn:Hregs; [|done].
  by eapply arr_contents_bound.
Qed.

Lemma row_footprint_bound (σ : store) (pv : struct_Partitions) (c : Partitions) :
  contents σ pv = Some c → len (f_Replicas pv) ≠ 0 →
  arr (f_Replicas pv) < length (rowArrays σ).
Proof.
  unfold contents. intros Hc Hlen.
  destruct (arr_contents (rowArrays σ) (f_Replicas pv)) as [rows|] eqn:Hrows; [|done].
  by eapply arr_contents_bound.
Qed.

(** The footprint of the struct [clone] made lies outside the store [clone]
    started from. *)
Lemma fresh_node_footprint (R : list (list slice)) (base n : nat) (rows : list slice)
    (sc : bool) (regs : slice) (k : nat) :
  node_footprint (R ++ [fresh_rows base rows]) (mkStruct (mkSlice (length R) 0 n) sc regs) k →
  base ≤ k.
Proof.
  intros (i & r & Hr & _ & <-). unfold arr_read in Hr. simpl in Hr.
  destruct (decide (i < n)); [|done].
  rewrite list_lookup_middle in Hr by done. simpl in Hr.
  by eapply fresh_rows_lookup.
Qed.

(** C7.  For a [Partitions] pointer [p] whose slices lie within their
    arrays and denote the contents [c], [clone] returns a pointer [q] to a new
    struct that denotes the same contents (grid, regimes and [SCMode]) and
    leaves what [p] denotes as it was.  After that, whatever entries of the
    grid or of the regimes are written through [q], [p] still denotes [c];
    and whatever entries are written through [p], [q] still denotes [c]. *)
Theorem clone_is_independent_copy (σ : store) (p : nat) (c : Partitions) :
  view σ p = Some c →
  ∃ q σ', clone p σ = Some (q, σ')
    ∧ structs σ !! q = None
    ∧ view σ' q = Some c
    ∧ view σ' p = Some c
    ∧ (∀ ws σ'', apply_writes q ws σ' = Some (tt, σ'') → view σ'' p = Some c)
    ∧ (∀ ws σ'', apply_writes p ws σ' = Some (tt, σ'') → view σ'' q = Some c).
Proof.
  unfold view. intros Hview.
  destruct (structs σ !! p) as [pv|] eqn:Hp; [|done]. simpl in Hview.
  pose proof Hview as Hc. unfold contents in Hc.
  destruct (arr_contents (rowArrays σ) (f_Replicas pv)) as [rows|] eqn:Hrows; [|done].
  simpl in Hc.
  destruct (mapM (arr_contents (nodeArrays σ)) rows) as [grid|] eqn:Hgrid; [|done].
  simpl in Hc.
  destruct (arr_contents (intArrays σ) (f_regimes pv)) as [regs|] eqn:Hregs; [|done].
  simpl in Hc. injection Hc as <-.
  pose proof (arr_contents_length _ _ _ Hrows) as Hnrows.
  pose proof (arr_contents_length _ _ _ Hregs) as Hnregs.
  set (qv := mkStruct (mkSlice (length (rowArrays σ)) 0 (len (f_Replicas pv))) (f_SCMode pv)
               (mkSlice (length (intArrays σ)) 0 (len (f_regimes pv)))).
  set (σ' := mkStore (nodeArrays σ ++ grid)
               (rowArrays σ ++ [fresh_rows (length (nodeArrays σ)) rows])
               (intArrays σ ++ [regs]) (structs σ ++ [qv])).
  assert (structs σ' !! length (structs σ) = Some qv) as Hq
    by (unfold σ'; simpl; apply list_lookup_middle; reflexivity).
  assert (structs σ' !! p = Some pv) as Hp'
    by (unfold σ'; simpl; apply lookup_app_l_Some; exact Hp).
  assert (contents σ' qv = Some (mkPartitions grid (f_SCMode pv) regs)) as Hqc.
  { unfold contents. simpl.
    rewrite (arr_contents_whole _ _ (fresh_rows (length (nodeArrays σ)) rows));
      [|by rewrite list_lookup_middle | done | by rewrite fresh_rows_length]. simpl.
    rewrite fresh_rows_contents. 2:{
      apply mapM_Some in Hgrid. eapply Forall2_impl; [exact Hgrid|].
      intros r g Hg. exact (arr_contents_length _ _ _ Hg). }
    simpl. rewrite (arr_contents_whole _ _ regs); [done | by rewrite list_lookup_middle | done..]. }
  assert (contents σ' pv = Some (mkPartitions grid (f_SCMode pv) regs)) as Hpc.
  { apply (contents_agree σ σ'); [done | ..]; simpl.
    - intros Hlen. apply lookup_app_l. by eapply row_footprint_bound.
    - intros k Hk. apply lookup_app_l. eapply (node_footprint_bound σ pv _ []); [done|].
      by rewrite app_nil_r.
    - intros k Hk. apply lookup_app_l. by eapply int_footprint_bound. }
  exists (length (structs σ)), σ'. split_and!.
  - by apply clone_run.
  - by apply lookup_ge_None.
  - by rewrite Hq.
  - by rewrite Hp'.
  - intros ws σ'' Hws.
    destruct (apply_writes_effect _ _ _ _ _ Hq Hws) as (HS & HR & HN & HI).
    rewrite HS, Hp'. simpl. apply (contents_agree σ' σ''); [done | by rewrite HR | |].
    + intros k Hk. apply HN. intros Hk'%fresh_node_footprint.
      apply (node_footprint_bound σ pv _ _ _ Hview) in Hk. lia.
    + intros k Hk. apply HI. intros [_ Hk']. simpl in Hk'.
      apply (int_footprint_bound σ pv _ _ Hview) in Hk. lia.
  - intros ws σ'' Hws.
    destruct (apply_writes_effect _ _ _ _ _ Hp' Hws) as (HS & HR & HN & HI).
    rewrite HS, Hq. simpl. apply (contents_agree σ' σ''); [done | by rewrite HR | |].
    + intros k Hk%fresh_node_footprint. apply HN. intros Hk'.
      apply (node_footprint_bound σ pv _ _ _ Hview) in Hk'. lia.
    + intros k [_ Hk]. simpl in Hk. apply HI. intros Hk'.
      apply (int_footprint_bound σ pv _ _ Hview) in Hk'. lia.
Qed.

End CloneFacts.

(** ** [partitionMap.clone] and [cleanup] *)

Module MemMapFacts.
Import Mem MemMap CloneFacts.

Lemma ok_slice_contents {A : Type} (hp : list (list A)) (s : slice) :
  ok_slice hp s ↔ is_Some (arr_contents hp s).
Proof.
  unfold ok_slice, arr_contents. destruct (decide (len s = 0)) as [Hz|Hnz].
  - split; [by eexists | by left].
  - destruct (hp !! arr s) as [a|]; simpl.
    + destruct (decide (off s + len s ≤ length a)).
      * split; [by eexists | intros _; right; by exists a].
      * split; [|by intros [? ?]]. intros [? | (a' & [= <-] & ?)]; done.
    + split; [|by intros [? ?]]. intros [? | (a' & ? & ?)]; done.
Qed.

Lemma ok_slice_same_lengths {A B : Type} (hp : list (list A)) (hp' : list (list B))
    (s : slice) :
  Forall2 (λ a a', length a' = length a) hp hp' → ok_slice hp s → ok_slice hp' s.
Proof.
  intros Hsame [Hz | (a & Ha & Hle)]; [by left|]. right.
  destruct (Forall2_lookup_l _ _ _ _ _ Hsame Ha) as (a' & Ha' & Hlen).
  exists a'. split; [done | lia].
Qed.

Lemma valid_contents (σ : store) (pv : struct_Partitions) :
  valid σ pv ↔ is_Some (contents σ pv).
Proof.
  unfold valid, contents. rewrite !ok_slice_contents. split.
  - intros ([rows Hrows] & Hrow & [regs Hregs]). rewrite Hrows, Hregs. simpl.
    assert (is_Some (mapM (arr_contents (nodeArrays σ)) rows)) as [grid ->]; [|by eexists].
    apply mapM_is_Some. apply Forall_lookup. intros i r Hr.
    apply ok_slice_contents. apply (Hrow i).
    rewrite (arr_read_contents _ _ _ _ Hrows); [done|].
    apply lookup_lt_Some in Hr. by rewrite (arr_contents_length _ _ _ Hrows) in Hr.
  - intros [c Hc].
    destruct (arr_contents (rowArrays σ) (f_Replicas pv)) as [rows|] eqn:Hrows; [|done].
    simpl in Hc.
    destruct (mapM (arr_contents (nodeArrays σ)) rows) as [grid|] eqn:Hgrid; [|done].
    simpl in Hc.
    destruct (arr_contents (intArrays σ) (f_regimes pv)) as [regs|] eqn:Hregs; [|done].
    split_and!; [by eexists | | by eexists].
    intros i r Hr. apply ok_slice_contents.
    rewrite (arr_read_contents _ _ _ _ Hrows) in Hr by by eapply arr_read_bound.
    destruct (grid_lookup _ _ _ Hgrid i r Hr) as (g & _ & Hg). by eexists.
Qed.

Lemma shrunk_struct_refl (pv : struct_Partitions) : shrunk_struct pv pv.
Proof. unfold shrunk_struct. auto. Qed.

Lemma shrunk_struct_trans (pv0 pv1 pv2 : struct_Partitions) :
  shrunk_struct pv0 pv1 → shrunk_struct pv1 pv2 → shrunk_struct pv0 pv2.
Proof.
  intros (Hsc1 & HR1 & HI1) (Hsc2 & HR2 & HI2). split_and!.
  - congruence.
  - destruct HR2 as [? | ->]; auto.
  - destruct HI2 as [? | ->]; auto.
Qed.

Lemma shrunk_refl (σ : store) : shrunk σ σ.
Proof.
  split_and!; [| |done|].
  - by apply Forall_Forall2_diag, Forall_true.
  - apply Forall_Forall2_diag, Forall_true. intros a.
    apply Forall_Forall2_diag, Forall_true. auto.
  - apply Forall_Forall2_diag, Forall_true. apply shrunk_struct_refl.
Qed.

Lemma shrunk_trans (σ0 σ1 σ2 : store) : shrunk σ0 σ1 → shrunk σ1 σ2 → shrunk σ0 σ2.
Proof.
  intros (HN1 & HR1 & HI1 & HS1) (HN2 & HR2 & HI2 & HS2). split_and!.
  - eapply Forall2_trans; [|done..]. simpl. intros a0 a1 a2 H01 H12. congruence.
  - eapply Forall2_trans; [|done..]. simpl. intros a0 a1 a2 H01 H12.
    eapply Forall2_trans; [|done..]. simpl. intros r0 r1 r2 [-> | ->] [-> | ->]; auto.
  - congruence.
  - eapply Forall2_trans; [|done..]. apply shrunk_struct_trans.
Qed.

(** A row header read after some shrinking is nil or the one that was
    there. *)
Lemma shrunk_read_row (σ0 σ : store) (s : slice) (i : nat) (r : slice) :
  shrunk σ0 σ → arr_read (rowArrays σ) s i = Some r →
  r = nil_slice ∨ arr_read (rowArrays σ0) s i = Some r.
Proof.
  intros (_ & HR & _) Hr. unfold arr_read in *.
  destruct (decide (i < len s)); [|done].
  destruct (rowArrays σ !! arr s) as [a|] eqn:Ha; [|done]. simpl in Hr.
  destruct (Forall2_lookup_r _ _ _ _ _ HR Ha) as (a0 & Ha0 & Hrel).
  destruct (Forall2_lookup_r _ _ _ _ _ Hrel Hr) as (r0 & Hr0 & [-> | ->]); [by left|].
  right. by rewrite Ha0.
Qed.

Lemma shrunk_valid (σ0 σ : store) (pv0 pv : struct_Partitions) :
  shrunk σ0 σ → shrunk_struct pv0 pv → valid σ0 pv0 → valid σ pv.
Proof.
  intros Hshrunk (_ & HR & HI) (HvR & Hvrows & HvI).
  pose proof Hshrunk as (HN' & HR' & HI' & _).
  assert (∀ r, ok_slice (nodeArrays σ0) r → ok_slice (nodeArrays σ) r) as Hnodes.
  { intros r. by apply ok_slice_same_lengths. }
  split_and!.
  - destruct HR as [-> | ->]; [by left|].
    eapply ok_slice_same_lengths; [|done].
    eapply Forall2_impl; [exact HR'|]. intros a0 a Ha. symmetry. by eapply Forall2_length.
  - intros i r Hr. destruct HR as [HR | HR]; rewrite HR in Hr.
    + unfold arr_read in Hr. simpl in Hr. by destruct (decide (i < 0)); [lia|].
    + destruct (shrunk_read_row _ _ _ _ _ Hshrunk Hr) as [-> | Hr0]; [by left|].
      apply Hnodes. by eapply Hvrows.
  - rewrite HI'. destruct HI as [-> | ->]; [by left | done].
Qed.

Lemma Forall2_insert_diag {A : Type} (P : A → A → Prop) (l : list A) (i : nat) (x y : A) :
  (∀ z, P z z) → l !! i = Some x → P x y → Forall2 P l (<[i := y]> l).
Proof.
  intros Hrefl Hx Hxy. rewrite <- (list_insert_id l i x) at 1 by done.
  apply Forall2_insert; [|done]. by apply Forall_Forall2_diag, Forall_true.
Qed.

Ltac run_St' :=
  unfold mbind, St_bind, mret, St_ret, load_struct, store_struct, read_row, write_row,
    store_node in *; simpl in *.

Lemma arr_read_ok {A : Type} (hp : list (list A)) (s : slice) (i : nat) :
  ok_slice hp s → i < len s → is_Some (arr_read hp s i).
Proof.
  intros [Hz | (a & Ha & Hle)] Hi; [lia|]. unfold arr_read.
  rewrite decide_True by done. rewrite Ha. simpl. apply lookup_lt_is_Some. lia.
Qed.

Lemma arr_write_ok {A : Type} (hp : list (list A)) (s : slice) (i : nat) (x : A) :
  ok_slice hp s → i < len s →
  ∃ a, hp !! arr s = Some a
    ∧ arr_write hp s i x = Some (<[arr s := <[off s + i := x]> a]> hp).
Proof.
  intros [Hz | (a & Ha & Hle)] Hi; [lia|]. exists a. split; [done|]. unfold arr_write.
  rewrite decide_True by done. rewrite Ha. simpl. by rewrite decide_True by lia.
Qed.

Lemma store_struct_run (σ : store) (p : nat) (pv0 pv : struct_Partitions) :
  structs σ !! p = Some pv0 →
  store_struct p pv σ =
    Some (tt, mkStore (nodeArrays σ) (rowArrays σ) (intArrays σ) (<[p := pv]> (structs σ))).
Proof. intros Hp%lookup_lt_Some. unfold store_struct. by rewrite decide_True. Qed.

(** The inner loop of [cleanup]: it writes the array of the row only. *)
Lemma cleanup_row_run (σ : store) (p : nat) (pv : struct_Partitions) (i : nat) (r : slice)
    (n j : nat) :
  structs σ !! p = Some pv →
  arr_read (rowArrays σ) (f_Replicas pv) i = Some r →
  ok_slice (nodeArrays σ) r →
  j + n = len r →
  ∃ σ', cleanup_row p i n j σ = Some (tt, σ')
    ∧ shrunk σ σ'
    ∧ rowArrays σ' = rowArrays σ ∧ structs σ' = structs σ ∧ intArrays σ' = intArrays σ
    ∧ ∀ k, (len r ≠ 0 → k ≠ arr r) → nodeArrays σ' !! k = nodeArrays σ !! k.
Proof.
  intros Hp Hr. revert j σ Hp Hr. induction n as [|n IH]; intros j σ Hp Hr Hok Hn.
  - exists σ. split_and!; [done | apply shrunk_refl | done..].
  - destruct (arr_write_ok (nodeArrays σ) r j None Hok) as (a & Ha & Hw); [lia|].
    set (σ1 := mkStore (<[arr r := <[off r + j := None]> a]> (nodeArrays σ))
                 (rowArrays σ) (intArrays σ) (structs σ)).
    assert (shrunk σ σ1) as Hs1.
    { split_and!; simpl; [ | | done | ].
      - eapply Forall2_insert_diag; [done | done | by rewrite length_insert].
      - apply Forall_Forall2_diag, Forall_true. intros a'.
        apply Forall_Forall2_diag, Forall_true. auto.
      - apply Forall_Forall2_diag, Forall_true. apply shrunk_struct_refl. }
    destruct (IH (S j) σ1) as (σ' & Hrun & Hs & HR & HS & HI & HN); [done | done | | lia |].
    { destruct Hs1 as (HN1 & _). by eapply ok_slice_same_lengths. }
    exists σ'. split_and!; [ | by eapply shrunk_trans | done..| ].
    + cbn [cleanup_row]. unfold write_node. run_St'. rewrite Hp, Hr. simpl. by rewrite Hw.
    + intros k Hk. rewrite HN by done. simpl. apply list_lookup_insert_ne.
      intros Heq. apply Hk; [lia | done].
Qed.

Lemma node_footprint_shrunk (σ0 σ : store) (pv0 pv : struct_Partitions) (k : nat) :
  shrunk σ0 σ → shrunk_struct pv0 pv →
  node_footprint (rowArrays σ) pv k → node_footprint (rowArrays σ0) pv0 k.
Proof.
  intros Hs (_ & HR & _) (i & r & Hr & Hlen & <-).
  destruct HR as [HR | HR]; rewrite HR in Hr.
  { unfold arr_read in Hr. simpl in Hr. by destruct (decide (i < 0)); [lia|]. }
  destruct (shrunk_read_row _ _ _ _ _ Hs Hr) as [-> | Hr0]; [done|].
  by exists i, r.
Qed.

(** The loop over the rows: it writes the arrays of the rows, and the array
    of row headers. *)
Lemma cleanup_rows_run (σ : store) (p : nat) (pv : struct_Partitions) (n i : nat) :
  structs σ !! p = Some pv → valid σ pv → i + n = len (f_Replicas pv) →
  ∃ σ', cleanup_rows p n i σ = Some (tt, σ')
    ∧ shrunk σ σ'
    ∧ structs σ' = structs σ ∧ intArrays σ' = intArrays σ
    ∧ (∀ k, ¬ node_footprint (rowArrays σ) pv k → nodeArrays σ' !! k = nodeArrays σ !! k)
    ∧ (∀ k, k ≠ arr (f_Replicas pv) → rowArrays σ' !! k = rowArrays σ !! k).
Proof.
  revert i σ. induction n as [|n IH]; intros i σ Hp Hvalid Hn.
  - exists σ. split_and!; [done | apply shrunk_refl | done..].
  - pose proof Hvalid as (HvR & Hvrows & HvI).
    destruct (arr_read_ok (rowArrays σ) (f_Replicas pv) i HvR) as [r Hr]; [lia|].
    destruct (cleanup_row_run σ p pv i r (len r) 0 Hp Hr) as
      (σ1 & Hrun1 & Hs1 & HR1 & HS1 & HI1 & HN1); [by eapply Hvrows | done |].
    assert (ok_slice (rowArrays σ1) (f_Replicas pv)) as HvR1 by by rewrite HR1.
    destruct (arr_write_ok (rowArrays σ1) (f_Replicas pv) i nil_slice HvR1) as (a & Ha & Hw);
      [lia|].
    set (σ2 := mkStore (nodeArrays σ1)
                 (<[arr (f_Replicas pv) := <[off (f_Replicas pv) + i := nil_slice]> a]>
                    (rowArrays σ1))
                 (intArrays σ1) (structs σ1)).
    assert (shrunk σ1 σ2) as Hs2.
    { split_and!; simpl; [ | | done | ].
      - by apply Forall_Forall2_diag, Forall_true.
      - eapply Forall2_insert_diag; [| done |].
        + intros a'. apply Forall_Forall2_diag, Forall_true. auto.
        + destruct (a !! (off (f_Replicas pv) + i)) as [r'|] eqn:Hr'.
          * eapply Forall2_insert_diag; [auto | done | auto].
          * rewrite list_insert_ge by by apply lookup_ge_None.
            apply Forall_Forall2_diag, Forall_true. auto.
      - apply Forall_Forall2_diag, Forall_true. apply shrunk_struct_refl. }
    pose proof (shrunk_trans _ _ _ Hs1 Hs2) as Hs12.
    destruct (IH (S i) σ2) as (σ' & Hrun & Hs & HS & HI & HN & HR).
    { simpl. by rewrite HS1. }
    { eapply shrunk_valid; [exact Hs12 | apply shrunk_struct_refl | done]. }
    { lia. }
    exists σ'. split_and!.
    + cbn [cleanup_rows]. run_St'. rewrite Hp, Hr. simpl. rewrite Hrun1. simpl.
      rewrite HS1, Hp. simpl. by rewrite Hw.
    + by eapply shrunk_trans.
    + by rewrite HS.
    + by rewrite HI.
    + intros k Hk. rewrite HN.
      * simpl. apply HN1. intros Hlen ->. apply Hk. by exists i, r.
      * intros Hk'. apply Hk.
        eapply node_footprint_shrunk; [exact Hs12 | apply shrunk_struct_refl | done].
    + intros k Hk. rewrite HR by done. simpl. rewrite list_lookup_insert_ne by done.
      by rewrite HR1.
Qed.

(** What [cleanup] does to one [Partitions]: the struct ends with two nil
    slices; only its footprint is written. *)
Lemma cleanup_partitions_run (σ : store) (p : nat) (pv : struct_Partitions) :
  structs σ !! p = Some pv → valid σ pv →
  ∃ σ', cleanup_partitions p σ = Some (tt, σ')
    ∧ shrunk σ σ'
    ∧ structs σ' = <[p := mkStruct nil_slice (f_SCMode pv) nil_slice]> (structs σ)
    ∧ intArrays σ' = intArrays σ
    ∧ (∀ k, ¬ node_footprint (rowArrays σ) pv k → nodeArrays σ' !! k = nodeArrays σ !! k)
    ∧ (∀ k, ¬ (len (f_Replicas pv) ≠ 0 ∧ k = arr (f_Replicas pv)) →
         rowArrays σ' !! k = rowArrays σ !! k).
Proof.
  intros Hp Hvalid.
  destruct (cleanup_rows_run σ p pv (len (f_Replicas pv)) 0 Hp Hvalid)
    as (σ1 & Hrun & Hs & HS & HI & HN & HR); [done|].
  pose proof (lookup_lt_Some _ _ _ Hp) as Hlt.
  set (pv' := mkStruct nil_slice (f_SCMode pv) nil_slice).
  exists (mkStore (nodeArrays σ1) (rowArrays σ1) (intArrays σ1) (<[p := pv']> (structs σ1))).
  split_and!; simpl.
  - assert (structs σ1 !! p = Some pv) as Hp1 by by rewrite HS.
    unfold cleanup_partitions, mbind, St_bind, load_struct. rewrite Hp, Hrun, Hp1.
    rewrite (store_struct_run _ _ _ _ Hp1). cbn [structs].
    rewrite list_lookup_insert_eq by by rewrite HS.
    erewrite store_struct_run by (cbn [structs]; apply list_lookup_insert_eq; by rewrite HS).
    cbn [structs nodeArrays rowArrays intArrays f_Replicas f_SCMode].
    by rewrite list_insert_insert_eq.
  - eapply shrunk_trans; [done|]. split_and!; simpl; [ | | done | ].
    + by apply Forall_Forall2_diag, Forall_true.
    + apply Forall_Forall2_diag, Forall_true. intros a'.
      apply Forall_Forall2_diag, Forall_true. auto.
    + eapply Forall2_insert_diag; [apply shrunk_struct_refl | by rewrite HS |].
      unfold shrunk_struct. simpl. auto.
  - by rewrite HS.
  - done.
  - done.
  - intros k Hk. destruct (decide (len (f_Replicas pv) = 0)) as [Hz|Hnz].
    + destruct (decide (k = arr (f_Replicas pv))) as [->|Hne]; [|by apply HR].
      (* no row: the loop did not run *)
      rewrite Hz in Hrun. simpl in Hrun. by injection Hrun as <-.
    + apply HR. intros ->. by apply Hk.
Qed.

Lemma view_valid (σ : store) (p : nat) :
  is_Some (view σ p) ↔ ∃ pv, structs σ !! p = Some pv ∧ valid σ pv.
Proof.
  unfold view. destruct (structs σ !! p) as [pv|]; simpl.
  - rewrite <- valid_contents. split; [by exists pv | by intros (? & [= <-] & ?)].
  - split; [by intros [? ?] | by intros (? & ? & ?)].
Qed.

Lemma confined_trans (PS PR PN : nat → Prop) (σ1 σ2 σ3 : store) :
  confined PS PR PN σ1 σ2 → confined PS PR PN σ2 σ3 → confined PS PR PN σ1 σ3.
Proof.
  intros (HS1 & HR1 & HN1 & HI1) (HS2 & HR2 & HN2 & HI2). split_and!.
  - intros q Hq. by rewrite HS2, HS1.
  - intros k Hk. by rewrite HR2, HR1.
  - intros k Hk. by rewrite HN2, HN1.
  - congruence.
Qed.

Section Cleanup.
Context {runtime : GoRuntime}.
Variables (PS PR PN : nat → Prop) (σ0 : store).

(** The loop of [cleanup] over some entries whose structs were valid in
    [σ0], from a store that has only shrunk since. *)
Lemma cleanup_loop (l : list (string * nat)) (m : gmap string nat) (σ : store) :
  shrunk σ0 σ →
  (∀ ns p, (ns, p) ∈ l →
     (∃ pv0, structs σ0 !! p = Some pv0 ∧ valid σ0 pv0) ∧ inside PS PR PN σ0 p) →
  ∃ m' σ',
    for_each_St (λ '(ns, partitions) pm, _ ← cleanup_partitions partitions; mret (delete ns pm))
      l m σ = Some (m', σ')
    ∧ shrunk σ σ'
    ∧ confined PS PR PN σ σ'
    ∧ (∀ ns, m' !! ns = if decide (ns ∈ l.*1) then None else m !! ns)
    ∧ (∀ ns p, (ns, p) ∈ l →
         ∃ pv, structs σ !! p = Some pv
           ∧ structs σ' !! p = Some (mkStruct nil_slice (f_SCMode pv) nil_slice)).
Proof.
  revert m σ. induction l as [|[ns p] l IH]; intros m σ Hs Hl.
  - exists m, σ. split_and!; [done | apply shrunk_refl | by split_and! | |].
    + intros ns. rewrite decide_False; [done|]. by intros ?%elem_of_nil.
    + by intros ns p ?%elem_of_nil.
  - destruct (Hl ns p) as [(pv0 & Hp0 & Hv0) [HPS Hin]]; [by left|].
    destruct (Hin pv0 Hp0) as [HPR HPN].
    pose proof Hs as (_ & _ & _ & HSS).
    destruct (Forall2_lookup_l _ _ _ _ _ HSS Hp0) as (pv & Hp & Hpv).
    pose proof (shrunk_valid _ _ _ _ Hs Hpv Hv0) as Hv.
    destruct (cleanup_partitions_run σ p pv Hp Hv) as (σ1 & Hrun & Hs1 & HS1 & HI1 & HN1 & HR1).
    destruct (IH (delete ns m) σ1) as (m' & σ' & Hloop & Hs' & Hc' & Hm' & Hl').
    { by eapply shrunk_trans. }
    { intros ns' p' Hin'. apply (Hl ns' p'). by right. }
    assert (confined PS PR PN σ σ1) as Hc1.
    { split_and!; [ | | | done].
      - intros q Hq. rewrite HS1. apply list_lookup_insert_ne. by intros ->.
      - intros k Hk. apply HR1. intros [Hlen ->]. apply Hk.
        destruct Hpv as (_ & [HR | HR] & _); rewrite HR in *; [done | by apply HPR].
      - intros k Hk. apply HN1. intros Hfoot. apply Hk. apply HPN.
        by eapply node_footprint_shrunk. }
    exists m', σ'. split_and!.
    + simpl. unfold mbind, St_bind. rewrite Hrun. simpl. done.
    + by eapply shrunk_trans.
    + by eapply confined_trans.
    + intros ns'. rewrite Hm'.
      destruct (decide (ns' ∈ ((ns, p) :: l).*1)) as [Hin'|Hnin'];
        destruct (decide (ns' ∈ l.*1)) as [Hin''|Hnin'']; try done.
      * rewrite fmap_cons in Hin'. apply elem_of_cons in Hin' as [-> | ?]; [|done].
        apply lookup_delete_eq.
      * destruct Hnin'. rewrite fmap_cons. by right.
      * apply lookup_delete_ne. intros ->. apply Hnin'. rewrite fmap_cons. by left.
    + intros ns' p' [[= -> ->] | Hin']%elem_of_cons.
      * exists pv. split; [done|].
        assert (structs σ1 !! p = Some (mkStruct nil_slice (f_SCMode pv) nil_slice)) as Hp1.
        { rewrite HS1. apply list_lookup_insert_eq. by eapply lookup_lt_Some. }
        destruct Hs' as (_ & _ & _ & HSS').
        destruct (Forall2_lookup_l _ _ _ _ _ HSS' Hp1) as ([sR sc sI] & Hp' & Hsc & HR' & HI').
        simpl in *. rewrite Hp'. f_equal. f_equal; [by destruct HR' | done | by destruct HI'].
      * destruct (Hl' ns' p' Hin') as (pv1 & Hp1 & Hp').
        destruct (Hl ns' p') as [(pv0' & Hp0' & _) _]; [by right|].
        destruct (Forall2_lookup_l _ _ _ _ _ HSS Hp0') as (pv' & Hpv' & _).
        exists pv'. split; [done|]. rewrite Hp'.
        destruct Hs1 as (_ & _ & _ & HSS1).
        destruct (Forall2_lookup_l _ _ _ _ _ HSS1 Hpv') as (pv1' & Hp1' & Hsc & _).
        rewrite Hp1 in Hp1'. injection Hp1' as <-. by rewrite Hsc.
Qed.

End Cleanup.

Section CleanupFacts.
Context {runtime : GoRuntime}.

(** A map from which every key it yields was deleted is empty. *)
Lemma all_deleted_empty (m m' : gmap string nat) :
  (∀ ns, m' !! ns = if decide (ns ∈ (range_map m).*1) then None else m !! ns) →
  m' = ∅.
Proof.
  intros Hm. apply map_eq. intros ns. rewrite Hm, lookup_empty.
  destruct (decide (ns ∈ (range_map m).*1)) as [|Hnin]; [done|].
  destruct (m !! ns) as [p|] eqn:Hp; [|done]. destruct Hnin.
  apply list_elem_of_fmap. exists (ns, p). split; [done | by apply elem_of_range_map].
Qed.

(** X15.  [cleanup] on a map whose pointers denote [Partitions] returns
    with the map empty; every struct the map held has nil [Replicas] and
    nil [regimes] and its [SCMode] as before, no struct is allocated and
    no regime array is written. *)
Theorem cleanup_empties_everything (pm : gmap string nat) (σ : store) :
  (∀ ns p, pm !! ns = Some p → is_Some (view σ p)) →
  ∃ σ', cleanup pm σ = Some (∅, σ')
    ∧ intArrays σ' = intArrays σ
    ∧ length (structs σ') = length (structs σ)
    ∧ ∀ ns p, pm !! ns = Some p →
        ∃ pv, structs σ !! p = Some pv
          ∧ structs σ' !! p = Some (mkStruct nil_slice (f_SCMode pv) nil_slice)
          ∧ view σ' p = Some (mkPartitions [] (f_SCMode pv) []).
Proof.
  intros Hvalid.
  destruct (cleanup_loop (λ _, True) (λ _, True) (λ _, True) σ (range_map pm) pm σ)
    as (m' & σ' & Hrun & Hs & Hc & Hm & Hl); [apply shrunk_refl | |].
  { intros ns p Hin%elem_of_range_map. split; [by apply view_valid, (Hvalid ns)|].
    split; [done|]. intros pv _. split; done. }
  rewrite (all_deleted_empty _ _ Hm) in Hrun.
  exists σ'. split_and!; [done | apply Hc | |].
  - destruct Hs as (_ & _ & _ & HSS). symmetry. by eapply Forall2_length.
  - intros ns p Hp. destruct (Hl ns p) as (pv & Hpv & Hp'); [by apply elem_of_range_map|].
    exists pv. split_and!; [done..|]. unfold view. rewrite Hp'. reflexivity.
Qed.

End CleanupFacts.

(** *** [partitionMap.clone] *)

Lemma extends_refl (σ : store) : extends σ σ.
Proof. by split_and!. Qed.

Lemma extends_trans (σ1 σ2 σ3 : store) : extends σ1 σ2 → extends σ2 σ3 → extends σ1 σ3.
Proof.
  intros (HN1 & HR1 & HI1 & HS1) (HN2 & HR2 & HI2 & HS2). split_and!; by etrans.
Qed.

Lemma contents_extends (σ σ' : store) (pv : struct_Partitions) (c : Partitions) :
  extends σ σ' → contents σ pv = Some c → contents σ' pv = Some c.
Proof.
  intros (HN & HR & HI & _) Hc. apply (contents_agree σ σ'); [done|..].
  - intros Hlen. symmetry. apply prefix_lookup_lt; [|done]. by eapply row_footprint_bound.
  - intros k Hk. symmetry. apply prefix_lookup_lt; [|done].
    eapply (node_footprint_bound σ pv _ []); [done|]. by rewrite app_nil_r.
  - intros k Hk. symmetry. apply prefix_lookup_lt; [|done]. by eapply int_footprint_bound.
Qed.

Lemma view_extends (σ σ' : store) (p : nat) (c : Partitions) :
  extends σ σ' → view σ p = Some c → view σ' p = Some c.
Proof.
  intros Hext. unfold view. destruct (structs σ !! p) as [pv|] eqn:Hp; [|done]. simpl.
  destruct Hext as (HN & HR & HI & HS). rewrite (prefix_lookup_Some _ _ _ _ Hp HS). simpl.
  apply contents_extends. by split_and!.
Qed.

Lemma node_footprint_extends (σ σ' : store) (pv : struct_Partitions) (c : Partitions)
    (k : nat) :
  extends σ σ' → contents σ pv = Some c →
  node_footprint (rowArrays σ') pv k → node_footprint (rowArrays σ) pv k.
Proof.
  intros (_ & [X HR] & _) Hc (i & r & Hr & Hlen & <-). exists i, r. split_and!; [|done..].
  unfold contents in Hc.
  destruct (arr_contents (rowArrays σ) (f_Replicas pv)) as [rows|] eqn:Hrows; [|done].
  pose proof (arr_read_bound _ _ _ _ Hr) as Hi.
  rewrite HR, (arr_read_app _ _ _ _ _ Hrows) in Hr by done.
  by rewrite (arr_read_contents _ _ _ _ Hrows).
Qed.

(** One call of [clone]: the new struct is the next one, it denotes what
    the original denotes, and it lies in arrays that were not there. *)
Lemma clone_step (σ : store) (p : nat) (c : Partitions) :
  view σ p = Some c →
  ∃ σ' qv, clone p σ = Some (length (structs σ), σ')
    ∧ extends σ σ'
    ∧ structs σ' = structs σ ++ [qv]
    ∧ contents σ' qv = Some c
    ∧ (len (f_Replicas qv) ≠ 0 → length (rowArrays σ) ≤ arr (f_Replicas qv))
    ∧ (∀ k, node_footprint (rowArrays σ') qv k → length (nodeArrays σ) ≤ k).
Proof.
  unfold view. intros Hview.
  destruct (structs σ !! p) as [pv|] eqn:Hp; [|done]. simpl in Hview.
  pose proof Hview as Hc. unfold contents in Hc.
  destruct (arr_contents (rowArrays σ) (f_Replicas pv)) as [rows|] eqn:Hrows; [|done].
  simpl in Hc.
  destruct (mapM (arr_contents (nodeArrays σ)) rows) as [grid|] eqn:Hgrid; [|done].
  simpl in Hc.
  destruct (arr_contents (intArrays σ) (f_regimes pv)) as [regs|] eqn:Hregs; [|done].
  simpl in Hc. injection Hc as <-.
  pose proof (arr_contents_length _ _ _ Hrows) as Hnrows.
  pose proof (arr_contents_length _ _ _ Hregs) as Hnregs.
  eexists _, _. split; [by apply clone_run|]. split_and!; simpl.
  - split_and!; simpl; by apply prefix_app_r.
  - done.
  - unfold contents. simpl.
    rewrite (arr_contents_whole _ _ (fresh_rows (length (nodeArrays σ)) rows));
      [|by rewrite list_lookup_middle | done | by rewrite fresh_rows_length]. simpl.
    rewrite fresh_rows_contents. 2:{
      apply mapM_Some in Hgrid. eapply Forall2_impl; [exact Hgrid|].
      intros r g Hg. exact (arr_contents_length _ _ _ Hg). }
    simpl. rewrite (arr_contents_whole _ _ regs); [done | by rewrite list_lookup_middle | done..].
  - done.
  - intros k Hk. by eapply fresh_node_footprint.
Qed.

Section CloneMap.
Context {runtime : GoRuntime}.
Variable σ0 : store.

Lemma partitionMap_clone_loop (l : list (string * nat)) (m : gmap string nat) (σ : store) :
  extends σ0 σ →
  (∀ ns p, (ns, p) ∈ l → is_Some (view σ0 p)) →
  NoDup l.*1 →
  ∃ m' σ',
    for_each_St (λ '(ns, partitions) newPm, q ← clone partitions; mret (<[ns := q]> newPm))
      l m σ = Some (m', σ')
    ∧ extends σ σ'
    ∧ (∀ ns, ns ∉ l.*1 → m' !! ns = m !! ns)
    ∧ (∀ ns p, (ns, p) ∈ l →
         ∃ q qv, m' !! ns = Some q ∧ length (structs σ) ≤ q
           ∧ structs σ' !! q = Some qv
           ∧ contents σ' qv = view σ0 p
           ∧ (len (f_Replicas qv) ≠ 0 → length (rowArrays σ) ≤ arr (f_Replicas qv))
           ∧ (∀ k, node_footprint (rowArrays σ') qv k → length (nodeArrays σ) ≤ k))
    ∧ (∀ ns1 p1 ns2 p2 q, (ns1, p1) ∈ l → (ns2, p2) ∈ l →
         m' !! ns1 = Some q → m' !! ns2 = Some q → ns1 = ns2).
Proof.
  revert m σ. induction l as [|[ns p] l IH]; intros m σ Hext Hl Hnd.
  - exists m, σ. split_and!; [done | apply extends_refl | done | |].
    + by intros ns p ?%elem_of_nil.
    + by intros ns1 p1 ns2 p2 q ?%elem_of_nil.
  - rewrite fmap_cons in Hnd. apply NoDup_cons in Hnd as [Hnin Hnd].
    destruct (Hl ns p) as [c Hc]; [by left|].
    pose proof (view_extends _ _ _ _ Hext Hc) as Hc'.
    destruct (clone_step σ p c Hc') as (σ1 & qv & Hrun & Hext1 & HS1 & Hqc & HqR & HqN).
    destruct (IH (<[ns := length (structs σ)]> m) σ1)
      as (m' & σ' & Hloop & Hext' & Hother & Hmine & Hinj).
    { by eapply extends_trans. }
    { intros ns' p' Hin'. apply (Hl ns' p'). by right. }
    { done. }
    pose proof Hext1 as (HN1 & HR1 & HI1 & HSp1). pose proof Hext' as (HN' & HR' & HI' & HSp').
    apply prefix_length in HN1, HR1, HSp1.
    assert (m' !! ns = Some (length (structs σ))) as Hhead.
    { rewrite Hother by done. apply lookup_insert_eq. }
    exists m', σ'. split_and!.
    + simpl. unfold mbind, St_bind. rewrite Hrun. simpl. done.
    + by eapply extends_trans.
    + intros ns' Hnin'. rewrite fmap_cons in Hnin'. apply not_elem_of_cons in Hnin' as [Hne Hnin'].
      rewrite Hother by done. by apply lookup_insert_ne.
    + intros ns' p' [[= -> ->] | Hin']%elem_of_cons.
      * exists (length (structs σ)), qv. split_and!; [done | done | | | done |].
        -- eapply prefix_lookup_Some; [|done]. rewrite HS1. apply list_lookup_middle. done.
        -- rewrite Hc. by eapply contents_extends.
        -- intros k Hk. apply HqN. by eapply node_footprint_extends.
      * destruct (Hmine ns' p' Hin') as (q & qv' & Hq & Hle & Hqv' & Hqc' & HqR' & HqN').
        exists q, qv'. split_and!; [done | lia | done | done | intros; specialize (HqR' ltac:(done)); lia |].
        intros k Hk. specialize (HqN' k Hk). lia.
    + intros ns1 p1 ns2 p2 q [[= -> ->] | Hin1]%elem_of_cons [[= -> ->] | Hin2]%elem_of_cons
        Hq1 Hq2; [done | | | by eapply Hinj].
      * destruct (Hmine ns2 p2 Hin2) as (q' & _ & Hq' & Hle & _).
        rewrite Hhead in Hq1. rewrite HS1, length_app in Hle. simpl in Hle.
        rewrite Hq2 in Hq'. simplify_eq. lia.
      * destruct (Hmine ns1 p1 Hin1) as (q' & _ & Hq' & Hle & _).
        rewrite Hhead in Hq2. rewrite HS1, length_app in Hle. simpl in Hle.
        rewrite Hq1 in Hq'. simplify_eq. lia.
Qed.

End CloneMap.

Section CloneMapFacts.
Context {runtime : GoRuntime}.

(** [partitionMap.clone] on a map whose structs are valid. *)
Lemma partitionMap_clone_run (pm : gmap string nat) (σ : store) :
  (∀ ns p, pm !! ns = Some p → is_Some (view σ p)) →
  ∃ pm' σ', partitionMap_clone pm σ = Some (pm', σ')
    ∧ extends σ σ'
    ∧ (∀ ns, pm !! ns = None → pm' !! ns = None)
    ∧ (∀ ns p, pm !! ns = Some p →
         ∃ q qv, pm' !! ns = Some q ∧ length (structs σ) ≤ q
           ∧ structs σ' !! q = Some qv
           ∧ contents σ' qv = view σ p
           ∧ (len (f_Replicas qv) ≠ 0 → length (rowArrays σ) ≤ arr (f_Replicas qv))
           ∧ (∀ k, node_footprint (rowArrays σ') qv k → length (nodeArrays σ) ≤ k))
    ∧ (∀ ns1 ns2 q, pm' !! ns1 = Some q → pm' !! ns2 = Some q → ns1 = ns2).
Proof.
  intros Hvalid.
  destruct (partitionMap_clone_loop σ (range_map pm) ∅ σ)
    as (pm' & σ' & Hrun & Hext & Hother & Hmine & Hinj).
  { apply extends_refl. }
  { intros ns p Hin%elem_of_range_map. by apply (Hvalid ns). }
  { apply NoDup_fst_range_map. }
  assert (∀ ns, pm !! ns = None → pm' !! ns = None) as Hnone.
  { intros ns Hns. rewrite Hother; [done|].
    intros ([ns' p] & -> & Hin%elem_of_range_map)%list_elem_of_fmap. simpl in Hns. congruence. }
  exists pm', σ'. split_and!; [done | done | done | |].
  - intros ns p Hp. apply Hmine. by apply elem_of_range_map.
  - intros ns1 ns2 q Hq1 Hq2.
    destruct (pm !! ns1) as [p1|] eqn:Hp1; [|by rewrite Hnone in Hq1].
    destruct (pm !! ns2) as [p2|] eqn:Hp2; [|by rewrite Hnone in Hq2].
    eapply (Hinj ns1 p1 ns2 p2 q); [by apply elem_of_range_map.. | done | done].
Qed.

End CloneMapFacts.

Section CloneCleanupFacts.
Context {runtime : GoRuntime}.

(** X16.  [partitionMap.clone] on a map whose pointers denote
    [Partitions] returns a map with the same namespaces; each is bound to
    a struct allocated by the call, different for different namespaces,
    that denotes what the original denotes, and the originals denote what
    they did. *)
Theorem partitionMap_clone_copies_every_namespace (pm : gmap string nat) (σ : store) :
  (∀ ns p, pm !! ns = Some p → is_Some (view σ p)) →
  ∃ pm' σ', partitionMap_clone pm σ = Some (pm', σ')
    ∧ (∀ ns, is_Some (pm' !! ns) ↔ is_Some (pm !! ns))
    ∧ (∀ ns p, pm !! ns = Some p →
         ∃ q, pm' !! ns = Some q ∧ structs σ !! q = None
           ∧ view σ' q = view σ p ∧ view σ' p = view σ p)
    ∧ (∀ ns1 ns2 q, pm' !! ns1 = Some q → pm' !! ns2 = Some q → ns1 = ns2).
Proof.
  intros Hvalid.
  destruct (partitionMap_clone_run pm σ Hvalid)
    as (pm' & σ' & Hrun & Hext & Hnone & Hsome & Hinj).
  exists pm', σ'. split_and!; [done | | | done].
  - intros ns. destruct (pm !! ns) as [p|] eqn:Hp.
    + destruct (Hsome ns p Hp) as (q & qv & -> & _). split; by eexists.
    + rewrite (Hnone ns Hp). done.
  - intros ns p Hp. destruct (Hsome ns p Hp) as (q & qv & Hq & Hle & Hqv & Hqc & _).
    exists q. split_and!; [done | by apply lookup_ge_None | |].
    + unfold view at 1. by rewrite Hqv.
    + destruct (Hvalid ns p Hp) as [c Hc]. rewrite Hc. by eapply view_extends.
Qed.

(** What a struct denotes is kept when nothing of its footprint may have
    changed. *)
Lemma view_confined (PS PR PN : nat → Prop) (σ σ' : store) (q : nat)
    (qv : struct_Partitions) (c : Partitions) :
  confined PS PR PN σ σ' →
  structs σ !! q = Some qv → contents σ qv = Some c →
  ¬ PS q →
  (len (f_Replicas qv) ≠ 0 → ¬ PR (arr (f_Replicas qv))) →
  (∀ k, node_footprint (rowArrays σ) qv k → ¬ PN k) →
  view σ' q = Some c.
Proof.
  intros (HS & HR & HN & HI) Hq Hc HqS HqR HqN. unfold view. rewrite HS, Hq by done. simpl.
  apply (contents_agree σ σ'); [done | ..].
  - intros Hlen. apply HR. by apply HqR.
  - intros k Hk. apply HN. by apply HqN.
  - intros k _. by rewrite HI.
Qed.

(** X17.  A map and its clone share nothing: after
    [pm.clone()], [cleanup] of the original leaves every [Partitions] of
    the clone as cloned, and [cleanup] of the clone leaves every
    [Partitions] of the original as it was. *)
Theorem clone_and_cleanup_are_independent (pm : gmap string nat) (σ : store) :
  (∀ ns p, pm !! ns = Some p → is_Some (view σ p)) →
  ∃ pm' σ1, partitionMap_clone pm σ = Some (pm', σ1)
    ∧ (∃ σ2, cleanup pm σ1 = Some (∅, σ2)
         ∧ ∀ ns p, pm !! ns = Some p →
             ∃ q, pm' !! ns = Some q ∧ view σ2 q = view σ p)
    ∧ (∃ σ2, cleanup pm' σ1 = Some (∅, σ2)
         ∧ ∀ ns p, pm !! ns = Some p → view σ2 p = view σ p).
Proof.
  intros Hvalid.
  destruct (partitionMap_clone_run pm σ Hvalid)
    as (pm' & σ1 & Hrun & Hext & Hnone & Hsome & Hinj).
  exists pm', σ1. split; [done|].
  pose proof Hext as (HNp & HRp & HIp & HSp).
  destruct HRp as [X HRX].
  assert (∀ ns p, pm !! ns = Some p →
            ∃ pv c, structs σ !! p = Some pv ∧ structs σ1 !! p = Some pv
              ∧ contents σ pv = Some c ∧ contents σ1 pv = Some c ∧ view σ p = Some c
              ∧ p < length (structs σ)
              ∧ (len (f_Replicas pv) ≠ 0 → arr (f_Replicas pv) < length (rowArrays σ))
              ∧ (∀ k, node_footprint (rowArrays σ1) pv k → k < length (nodeArrays σ)))
    as Hlow.
  { intros ns p Hp. destruct (Hvalid ns p Hp) as [c Hc]. pose proof Hc as Hview.
    unfold view in Hc. destruct (structs σ !! p) as [pv|] eqn:Hpv; [|done]. simpl in Hc.
    exists pv, c. split_and!; [done | by eapply prefix_lookup_Some | done
                               | by eapply contents_extends | done
                               | by eapply lookup_lt_Some | by eapply row_footprint_bound |].
    intros k Hk. rewrite HRX in Hk. by eapply node_footprint_bound. }
  split.
  - destruct (cleanup_loop (λ q, q < length (structs σ)) (λ k, k < length (rowArrays σ))
                (λ k, k < length (nodeArrays σ)) σ1 (range_map pm) pm σ1)
      as (m' & σ2 & Hclean & _ & Hconf & Hm & _); [apply shrunk_refl | |].
    { intros ns p Hin%elem_of_range_map.
      destruct (Hlow ns p Hin) as (pv & c & Hpv & Hpv1 & Hc & Hc1 & _ & HpS & HpR & HpN).
      split.
      - exists pv. split; [done|]. apply valid_contents. by eexists.
      - split; [done|]. intros pv' Hpv'. rewrite Hpv1 in Hpv'. injection Hpv' as <-. done. }
    rewrite (all_deleted_empty _ _ Hm) in Hclean. exists σ2. split; [done|].
    intros ns p Hp. destruct (Hsome ns p Hp) as (q & qv & Hq & Hle & Hqv & Hqc & HqR & HqN).
    exists q. split; [done|]. destruct (Hvalid ns p Hp) as [c Hc]. rewrite Hc in *.
    eapply view_confined; [exact Hconf | done | done | simpl; lia | |].
    + intros Hlen. specialize (HqR Hlen). simpl. lia.
    + intros k Hk. specialize (HqN k Hk). simpl. lia.
  - destruct (cleanup_loop (λ q, length (structs σ) ≤ q) (λ k, length (rowArrays σ) ≤ k)
                (λ k, length (nodeArrays σ) ≤ k) σ1 (range_map pm') pm' σ1)
      as (m' & σ2 & Hclean & _ & Hconf & Hm & _); [apply shrunk_refl | |].
    { intros ns q Hin%elem_of_range_map.
      destruct (pm !! ns) as [p|] eqn:Hp; [|by rewrite (Hnone ns Hp) in Hin].
      destruct (Hsome ns p Hp) as (q' & qv & Hq & Hle & Hqv & Hqc & HqR & HqN).
      rewrite Hin in Hq. injection Hq as <-.
      destruct (Hvalid ns p Hp) as [c Hc]. rewrite Hc in Hqc.
      split.
      - exists qv. split; [done|]. apply valid_contents. by eexists.
      - split; [done|]. intros pv' Hpv'. rewrite Hqv in Hpv'. injection Hpv' as <-. done. }
    rewrite (all_deleted_empty _ _ Hm) in Hclean. exists σ2. split; [done|].
    intros ns p Hp.
    destruct (Hlow ns p Hp) as (pv & c & Hpv & Hpv1 & Hc & Hc1 & Hview & HpS & HpR & HpN).
    rewrite Hview.
    eapply view_confined; [exact Hconf | done | done | simpl; lia | |].
    + intros Hlen. specialize (HpR Hlen). simpl. lia.
    + intros k Hk. specialize (HpN k Hk). simpl. lia.
Qed.

End CloneCleanupFacts.

(** *** [cleanup] leaves no node behind *)

Lemma cleared_refl (σ : store) : cleared σ σ.
Proof. split; [done|]. intros k a x r Ha Hr. left. by exists a. Qed.

Lemma row_nil_cleared (σ σ' : store) (r : slice) : cleared σ σ' → row_nil σ r → row_nil σ' r.
Proof. intros [Hmono _] Hr j Hj. by apply Hmono, Hr. Qed.

Lemma cleared_trans (σ1 σ2 σ3 : store) : cleared σ1 σ2 → cleared σ2 σ3 → cleared σ1 σ3.
Proof.
  intros [Hm1 Hc1] [Hm2 Hc2]. split; [by auto|].
  intros k a x r Ha Hr. destruct (Hc1 k a x r Ha Hr) as [(a' & Ha' & Hr') | Hnil].
  - by apply (Hc2 k a').
  - right. eapply row_nil_cleared; [by split | done].
Qed.

Lemma arr_read_cell {A : Type} (hp : list (list A)) (s : slice) (i : nat) (x : A) :
  arr_read hp s i = Some x ↔ i < len s ∧ ∃ a, hp !! arr s = Some a ∧ a !! (off s + i) = Some x.
Proof.
  unfold arr_read. destruct (decide (i < len s)); [|by split; [|intros [? _]]].
  destruct (hp !! arr s) as [a|]; simpl.
  - split; [by eauto | by intros (_ & a' & [= <-] & ?)].
  - split; [done | by intros (_ & a' & ? & ?)].
Qed.

Lemma cleanup_row_clears (σ σ' : store) (p : nat) (pv : struct_Partitions) (i : nat)
    (r : slice) (n j : nat) :
  cleanup_row p i n j σ = Some (tt, σ') →
  structs σ !! p = Some pv →
  arr_read (rowArrays σ) (f_Replicas pv) i = Some r →
  j + n = len r →
  cleared σ σ' ∧ rowArrays σ' = rowArrays σ ∧ structs σ' = structs σ
  ∧ ∀ j', j ≤ j' → j' < len r → nil_cell σ' (arr r) (off r + j').
Proof.
  revert j σ. induction n as [|n IH]; intros j σ Hrun Hp Hr Hn.
  - injection Hrun as <-. split_and!; [apply cleared_refl | done | done | intros; lia].
  - cbn [cleanup_row] in Hrun. unfold write_node in Hrun. run_St'.
    rewrite Hp, Hr in Hrun. simpl in Hrun.
    destruct (arr_write (nodeArrays σ) r j None) as [hp|] eqn:Hw; [|done].
    unfold arr_write in Hw. destruct (decide (j < len r)); [|done].
    destruct (nodeArrays σ !! arr r) as [a|] eqn:Ha; [|done]. simpl in Hw.
    destruct (decide (off r + j < length a)); [|done]. injection Hw as <-.
    set (σ1 := mkStore (<[arr r := <[off r + j := None]> a]> (nodeArrays σ))
                 (rowArrays σ) (intArrays σ) (structs σ)) in *.
    assert (nil_cell σ1 (arr r) (off r + j)) as Hcell.
    { exists (<[off r + j := None]> a). split.
      - simpl. apply list_lookup_insert_eq. by eapply lookup_lt_Some.
      - by apply list_lookup_insert_eq. }
    assert (cleared σ σ1) as Hc1.
    { split.
      - intros k x (a' & Ha' & Hx).
        destruct (decide (k = arr r)) as [->|Hne].
        + rewrite Ha in Ha'. injection Ha' as <-.
          destruct (decide (x = off r + j)) as [->|Hx']; [done|].
          exists (<[off r + j := None]> a). split.
          * simpl. apply list_lookup_insert_eq. by eapply lookup_lt_Some.
          * by rewrite list_lookup_insert_ne.
        + exists a'. split; [|done]. simpl. by rewrite list_lookup_insert_ne.
      - intros k a' x r' Ha' Hr'. left. by exists a'. }
    destruct (IH (S j) σ1 Hrun) as (Hc & HR & HS & Hcells); [done | done | lia |].
    split_and!; [by eapply cleared_trans | done | done |].
    intros j' Hj' Hlt. destruct (decide (j' = j)) as [->|Hne].
    + by apply Hc.
    + apply Hcells; lia.
Qed.

Lemma cleanup_rows_clears (σ σ' : store) (p : nat) (pv : struct_Partitions) (n i : nat) :
  cleanup_rows p n i σ = Some (tt, σ') →
  structs σ !! p = Some pv →
  i + n = len (f_Replicas pv) →
  cleared σ σ' ∧ structs σ' = structs σ
  ∧ ∀ i' r, i ≤ i' → arr_read (rowArrays σ) (f_Replicas pv) i' = Some r → row_nil σ' r.
Proof.
  revert i σ. induction n as [|n IH]; intros i σ Hrun Hp Hn.
  - injection Hrun as <-. split_and!; [apply cleared_refl | done |].
    intros i' r Hi' Hr%arr_read_bound. lia.
  - cbn [cleanup_rows] in Hrun. unfold mbind at 1, St_bind in Hrun. unfold load_struct at 1 in Hrun.
    rewrite Hp in Hrun. unfold mbind at 1, St_bind in Hrun. unfold read_row at 1 in Hrun.
    destruct (arr_read (rowArrays σ) (f_Replicas pv) i) as [r|] eqn:Hr; [|done].
    unfold mbind at 1, St_bind in Hrun.
    destruct (cleanup_row p i (len r) 0 σ) as [[[] σ1]|] eqn:Hrow; [|done].
    destruct (cleanup_row_clears _ _ _ _ _ _ _ _ Hrow Hp Hr) as (Hc1 & HR1 & HS1 & Hcells);
      [done|].
    assert (row_nil σ1 r) as Hnil1 by (intros j Hj; apply Hcells; lia).
    unfold mbind at 1, St_bind in Hrun. unfold load_struct at 1 in Hrun.
    rewrite HS1, Hp in Hrun. unfold mbind at 1, St_bind in Hrun. unfold write_row at 1 in Hrun.
    destruct (arr_write (rowArrays σ1) (f_Replicas pv) i nil_slice) as [hp|] eqn:Hw; [|done].
    unfold arr_write in Hw. destruct (decide (i < len (f_Replicas pv))); [|done].
    destruct (rowArrays σ1 !! arr (f_Replicas pv)) as [a|] eqn:Ha; [|done]. simpl in Hw.
    destruct (decide (off (f_Replicas pv) + i < length a)); [|done]. injection Hw as <-.
    set (σ2 := mkStore (nodeArrays σ1)
                 (<[arr (f_Replicas pv) := <[off (f_Replicas pv) + i := nil_slice]> a]>
                    (rowArrays σ1))
                 (intArrays σ1) (structs σ1)) in *.
    assert (a !! (off (f_Replicas pv) + i) = Some r) as Hcell.
    { apply arr_read_cell in Hr as (_ & a' & Ha' & Hr). rewrite HR1, Ha' in Ha. by injection Ha as <-. }
    assert (cleared σ1 σ2) as Hc2.
    { split; [done|]. intros k a' x r' Ha' Hr'.
      destruct (decide (k = arr (f_Replicas pv))) as [->|Hne].
      - rewrite Ha in Ha'. injection Ha' as <-.
        destruct (decide (x = off (f_Replicas pv) + i)) as [->|Hx].
        + right. rewrite Hcell in Hr'. by injection Hr' as <-.
        + left. exists (<[off (f_Replicas pv) + i := nil_slice]> a). split.
          * simpl. apply list_lookup_insert_eq. by eapply lookup_lt_Some.
          * by rewrite list_lookup_insert_ne.
      - left. exists a'. split; [|done]. simpl. by rewrite list_lookup_insert_ne. }
    destruct (IH (S i) σ2 Hrun) as (Hc & HS & Hrows); [by rewrite <- HS1 in Hp | lia |].
    split_and!; [by do 2 (eapply cleared_trans; [eassumption|]) | by rewrite HS |].
    intros i' r' Hi' Hr'. destruct (decide (i' = i)) as [->|Hne].
    + rewrite Hr in Hr'. injection Hr' as <-.
      eapply row_nil_cleared; [exact Hc|]. by eapply row_nil_cleared.
    + apply (Hrows i'); [lia|].
      apply arr_read_cell in Hr' as (Hlt & a' & Ha' & Hx). apply arr_read_cell.
      split; [done|]. rewrite HR1, Ha' in Ha. injection Ha as <-.
      exists (<[off (f_Replicas pv) + i := nil_slice]> a'). split.
      * simpl. apply list_lookup_insert_eq. rewrite HR1. by eapply lookup_lt_Some.
      * rewrite list_lookup_insert_ne by lia. done.
Qed.

Lemma cleanup_partitions_clears (σ σ' : store) (p : nat) (pv : struct_Partitions) :
  cleanup_partitions p σ = Some (tt, σ') →
  structs σ !! p = Some pv →
  cleared σ σ'
  ∧ (∀ q, q ≠ p → structs σ' !! q = structs σ !! q)
  ∧ ∀ i r, arr_read (rowArrays σ) (f_Replicas pv) i = Some r → row_nil σ' r.
Proof.
  intros Hrun Hp. unfold cleanup_partitions in Hrun.
  unfold mbind at 1, St_bind in Hrun. unfold load_struct at 1 in Hrun. rewrite Hp in Hrun.
  unfold mbind at 1, St_bind in Hrun.
  destruct (cleanup_rows p (len (f_Replicas pv)) 0 σ) as [[[] σ1]|] eqn:Hrows; [|done].
  destruct (cleanup_rows_clears _ _ _ _ _ _ Hrows Hp) as (Hc1 & HS1 & Hnil); [done|].
  assert (structs σ1 !! p = Some pv) as Hp1 by by rewrite HS1.
  unfold mbind at 1, St_bind in Hrun. unfold load_struct at 1 in Hrun. rewrite Hp1 in Hrun.
  unfold mbind at 1, St_bind in Hrun. rewrite (store_struct_run _ _ _ _ Hp1) in Hrun.
  unfold mbind at 1, St_bind in Hrun. unfold load_struct at 1 in Hrun. cbn [structs] in Hrun.
  rewrite list_lookup_insert_eq in Hrun by by eapply lookup_lt_Some.
  erewrite store_struct_run in Hrun
    by (cbn [structs]; apply list_lookup_insert_eq; by eapply lookup_lt_Some).
  injection Hrun as <-.
  assert (∀ S', cleared σ1 (mkStore (nodeArrays σ1) (rowArrays σ1) (intArrays σ1) S')) as Hc2.
  { intros S'. split; [done|]. intros k a x r Ha Hr. left. by exists a. }
  split_and!.
  - eapply cleared_trans; [done | apply Hc2].
  - intros q Hq. cbn [structs]. rewrite !list_lookup_insert_ne by done. by rewrite HS1.
  - intros i r Hr. eapply row_nil_cleared; [apply Hc2|]. apply (Hnil i); [lia | done].
Qed.

Lemma rows_nil_cleared (σ0 σ σ' : store) (pv0 : struct_Partitions) :
  cleared σ σ' → rows_nil σ0 σ pv0 → rows_nil σ0 σ' pv0.
Proof. intros Hc Hnil i r0 Hr0. eapply row_nil_cleared; [done|]. by eapply Hnil. Qed.

Section CleanupClears.
Context {runtime : GoRuntime}.
Variable σ0 : store.

Lemma cleanup_loop_clears (l : list (string * nat)) (m m' : gmap string nat) (σ σ' : store) :
  for_each_St (λ '(ns, partitions) pm, _ ← cleanup_partitions partitions; mret (delete ns pm))
    l m σ = Some (m', σ') →
  cleared σ0 σ → settled σ0 σ →
  cleared σ σ' ∧ settled σ0 σ'
  ∧ ∀ ns p pv0, (ns, p) ∈ l → structs σ0 !! p = Some pv0 → rows_nil σ0 σ' pv0.
Proof.
  revert m σ. induction l as [|[ns p] l IH]; intros m σ Hrun Hc0 Hset.
  - injection Hrun as <- <-. split_and!; [apply cleared_refl | done |].
    by intros ns p pv0 ?%elem_of_nil.
  - simpl in Hrun. unfold mbind at 1, St_bind in Hrun. unfold mbind at 1, St_bind in Hrun.
    destruct (cleanup_partitions p σ) as [[[] σ1]|] eqn:Hp; [|done].
    unfold mret, St_ret in Hrun.
    assert (∃ pv, structs σ !! p = Some pv) as [pv Hpv].
    { unfold cleanup_partitions in Hp. unfold mbind at 1, St_bind in Hp.
      unfold load_struct at 1 in Hp. destruct (structs σ !! p); [by eexists | done]. }
    destruct (cleanup_partitions_clears _ _ _ _ Hp Hpv) as (Hc1 & Hother & Hnil).
    assert (∀ pv0, structs σ0 !! p = Some pv0 → rows_nil σ0 σ1 pv0) as Hmine.
    { intros pv0 Hpv0. destruct (Hset p pv0 Hpv0) as [(pv' & Hpv' & Hsame) | Hdone].
      - rewrite Hpv in Hpv'. injection Hpv' as <-.
        intros i r0 Hr0. apply arr_read_cell in Hr0 as (Hi & a & Ha & Hx).
        destruct Hc0 as [_ Hcells].
        destruct (Hcells _ _ _ _ Ha Hx) as [(a' & Ha' & Hx') | Hdone].
        + apply (Hnil i). rewrite Hsame. apply arr_read_cell. split; [done|]. by exists a'.
        + by eapply row_nil_cleared.
      - by eapply rows_nil_cleared. }
    assert (settled σ0 σ1) as Hset1.
    { intros q pv0 Hq0. destruct (decide (q = p)) as [->|Hne]; [right; by apply Hmine|].
      destruct (Hset q pv0 Hq0) as [(pv' & Hpv' & Hsame) | Hdone].
      - left. exists pv'. by rewrite Hother.
      - right. by eapply rows_nil_cleared. }
    destruct (IH _ _ Hrun) as (Hc & Hset' & Hrest); [by eapply cleared_trans | done |].
    split_and!; [by eapply cleared_trans | done |].
    intros ns' p' pv0 [[= -> ->] | Hin]%elem_of_cons Hpv0.
    + eapply rows_nil_cleared; [exact Hc|]. by apply Hmine.
    + by eapply Hrest.
Qed.

End CleanupClears.

Section CleanupClearsFacts.
Context {runtime : GoRuntime}.

(** X18.  After [cleanup], every slot of every row that a [Partitions]
    of the map listed when the call started holds nil in its backing
    array: no node stays referenced through the old rows. *)
Theorem cleanup_clears_every_node (pm : gmap string nat) (σ : store) :
  (∀ ns p, pm !! ns = Some p → is_Some (view σ p)) →
  ∃ σ', cleanup pm σ = Some (∅, σ')
    ∧ ∀ ns p pv i r j, pm !! ns = Some p → structs σ !! p = Some pv →
        arr_read (rowArrays σ) (f_Replicas pv) i = Some r → j < len r →
        arr_read (nodeArrays σ') r j = Some None.
Proof.
  intros Hvalid.
  destruct (cleanup_loop (λ _, True) (λ _, True) (λ _, True) σ (range_map pm) pm σ)
    as (m' & σ' & Hrun & _ & _ & Hm & _); [apply shrunk_refl | |].
  { intros ns p Hin%elem_of_range_map. split; [by apply view_valid, (Hvalid ns)|].
    split; [done|]. intros pv _. split; done. }
  rewrite (all_deleted_empty _ _ Hm) in Hrun. exists σ'. split; [done|].
  intros ns p pv i r j Hp Hpv Hr Hj.
  destruct (cleanup_loop_clears σ _ _ _ _ _ Hrun) as (_ & _ & Hnil).
  { apply cleared_refl. }
  { intros q pv0 Hq. left. by exists pv0. }
  assert (rows_nil σ σ' pv) as Hrows.
  { apply (Hnil ns p pv); [by apply elem_of_range_map | done]. }
  destruct (Hrows i r Hr j Hj) as (a & Ha & Hx).
  apply arr_read_cell. split; [done|]. by exists a.
Qed.

End CleanupClearsFacts.

End MemMapFacts.

(** ** The other constructors, [errors.Is] and [Trace] *)

Section ConstructorFacts.
Context {decls : Decls} {codes : ResultCodes} {runtime : GoRuntime}.

Lemma store_run (h : heap) (l : loc) (a b : AerospikeError) :
  h !! l = Some a → store l b h = Some (tt, <[l := b]> h).
Proof.
  intros Ha%lookup_lt_Some. unfold store. by rewrite decide_True.
Qed.

(** X1.  Whatever [setInDoubt], [setNode], [markInDoubt], [markInDoubtIf],
    [wrap] or [iter] is called with, on a receiver whose struct is
    allocated it returns the receiver, keeps the result code, the message
    and the stack frames of the struct, and writes no other struct. *)
Theorem mutators_keep_code_and_message (m : mutation) (ase : loc) (h : heap)
    (a : AerospikeError) :
  h !! ase = Some a →
  ∃ a', mutate m ase h = Some (ptr_AerospikeError ase, <[ase := a']> h)
    ∧ ResultCode a' = ResultCode a ∧ msg a' = msg a ∧ stackFrames a' = stackFrames a
    ∧ ∀ l, l ≠ ase → <[ase := a']> h !! l = h !! l.
Proof.
  intros Ha. pose proof (lookup_lt_Some _ _ _ Ha) as Hlt.
  assert (∀ a' : AerospikeError, ∀ l, l ≠ ase → <[ase := a']> h !! l = h !! l) as Hframe.
  { intros a' l Hne. apply list_lookup_insert_ne. congruence. }
  destruct m as [isRead commandWasSent|node|v|inDoubt|e|i]; simpl.
  - rewrite (setInDoubt_run _ _ _ _ _ Ha).
    destruct (negb isRead && commandWasSent).
    + exists (set_InDoubt true a). split_and!; [done..|apply Hframe].
    + exists a. split_and!; [by rewrite list_insert_id | done.. | apply Hframe].
  - exists (set_Node node a). unfold setNode. run. rewrite Ha. simpl.
    rewrite decide_True by done. split_and!; [done..|apply Hframe].
  - exists (set_InDoubt v a). unfold markInDoubt. run. rewrite Ha. simpl.
    rewrite decide_True by done. split_and!; [done..|apply Hframe].
  - exists (set_InDoubt inDoubt a). unfold markInDoubtIf. run. rewrite Ha. simpl.
    rewrite decide_True by done. split_and!; [done..|apply Hframe].
  - exists (set_wrapped e a). unfold wrap. run. rewrite Ha. simpl.
    rewrite decide_True by done. split_and!; [done..|apply Hframe].
  - exists (set_Iteration (wrap_int (i - 1)) a). unfold iter. run. rewrite Ha. simpl.
    rewrite decide_True by done. split_and!; [done..|apply Hframe].
Qed.

Lemma newError_run (code : types_ResultCode) (messages : list string) (h : heap) :
  newError code messages h =
    Some (ptr_AerospikeError (length h),
          h ++ [mkAerospikeError nil_error
                  (match messages with
                   | [] => ResultCodeToString code
                   | _ => strings_Join messages " "
                   end) None code false 0 (stackTrace nil_error)]).
Proof. unfold newError. run. by destruct messages. Qed.

Lemma wrap_fresh (h : heap) (a : AerospikeError) (e : error) :
  wrap (length h) e (h ++ [a]) = Some (ptr_AerospikeError (length h), h ++ [set_wrapped e a]).
Proof.
  unfold wrap. run. rewrite lookup_alloc. simpl. rewrite length_app. simpl.
  rewrite decide_True by lia. by rewrite insert_alloc.
Qed.

Lemma newErrorAndWrap_run (e : error) (code : types_ResultCode) (messages : list string)
    (h : heap) :
  newErrorAndWrap e code messages h =
    Some (ptr_AerospikeError (length h),
          h ++ [mkAerospikeError e
                  (match messages with
                   | [] => ResultCodeToString code
                   | _ => strings_Join messages " "
                   end) None code false 0 (stackTrace nil_error)]).
Proof.
  unfold newErrorAndWrap. unfold mbind at 1, M_bind. rewrite newError_run.
  unfold receiver. unfold mbind, M_bind, mret, M_ret. by rewrite wrap_fresh.
Qed.

(** What [Is] answers for a target that has no node and is not in doubt, as
    the sentinels are: it compares the result codes. *)
Lemma Is_code_only (h : heap) (l t : loc) (a c : AerospikeError) (target : error) :
  target = ptr_AerospikeError t ∨ target = ptr_constAerospikeError t →
  h !! l = Some a → h !! t = Some c → Node c = None → InDoubt c = false →
  Is h (Some l) target = Some (bool_decide (ResultCode a = ResultCode c)).
Proof.
  intros [-> | ->] Ha Hc Hnode Hdoubt; unfold Is; rewrite Ha, Hc; simpl;
    rewrite Hnode, Hdoubt; simpl; by rewrite orb_true_r, andb_true_r.
Qed.

(** X2.  [newTimeoutError], [newCommonError] and [newWrapNetworkError]
    are [newErrorAndWrap] at the codes [TIMEOUT], [COMMON_ERROR] and
    [NETWORK_ERROR].  [newErrorAndWrap(e, code, messages...)] allocates one
    struct and changes no other: it carries [code], wraps [e], has no node
    and a clear in-doubt flag, its message is the messages joined by a space
    (the name of the code when there is none); [Matches] recognises its
    code, [errors.Is] answers true against an error of the same code with
    no node and a clear flag, and whatever was in the chain of [e] is in
    the chain of the result. *)
Theorem wrapping_constructors_chain (e : error) (code : types_ResultCode)
    (messages : list string) (h : heap) :
  newTimeoutError e messages = newErrorAndWrap e TIMEOUT messages
  ∧ newCommonError e messages = newErrorAndWrap e COMMON_ERROR messages
  ∧ newWrapNetworkError e messages = newErrorAndWrap e NETWORK_ERROR messages
  ∧ ∃ a, newErrorAndWrap e code messages h = Some (ptr_AerospikeError (length h), h ++ [a])
      ∧ ResultCode a = code ∧ wrapped a = e ∧ Node a = None ∧ InDoubt a = false
      ∧ msg a = match messages with
                | [] => ResultCodeToString code
                | _ => strings_Join messages " "
                end
      ∧ (∀ fuel rcs, code ∈ rcs →
           Matches (S fuel) (h ++ [a]) (Some (length h)) rcs = Some true)
      ∧ (∀ fuel t c target,
           target = ptr_AerospikeError t ∨ target = ptr_constAerospikeError t →
           h !! t = Some c → ResultCode c = code → Node c = None → InDoubt c = false →
           errors_Is (S fuel) (h ++ [a]) (ptr_AerospikeError (length h)) target = Some true)
      ∧ (∀ x, in_chain h e x → in_chain (h ++ [a]) (ptr_AerospikeError (length h)) x).
Proof.
  split_and!; [done..|]. eexists. split; [apply newErrorAndWrap_run|].
  split_and!; try done.
  - intros fuel rcs Hin. eapply Matches_own_code; [apply lookup_alloc | done].
  - intros fuel t c target Ht Hc Hcode Hnode Hdoubt.
    pose proof (lookup_fresh_ne _ _ _ Hc) as Hne.
    cbn [errors_Is].
    rewrite bool_decide_eq_false_2 by (by destruct Ht as [-> | ->]).
    rewrite bool_decide_eq_false_2 by (destruct Ht as [-> | ->]; congruence).
    erewrite Is_code_only; [|done|apply lookup_alloc|by apply lookup_alloc_old|done..].
    simpl. by rewrite bool_decide_eq_true_2.
  - intros x Hx. eapply in_chain_wrapped; [apply lookup_alloc|]. simpl.
    eapply in_chain_prefix; [|done]. by apply prefix_app_r.
Qed.

(** *** What [errors.Is] answers *)

Lemma errors_Is_mono (fuel k : nat) (h : heap) (e target : error) (b : bool) :
  errors_Is fuel h e target = Some b → errors_Is (fuel + k) h e target = Some b.
Proof.
  revert e. induction fuel as [|fuel IH]; intros e; [done|]. simpl.
  destruct (bool_decide (target = nil_error)); [done|].
  destruct (bool_decide (e = target)); [done|].
  destruct e as [|l|l|s|s e']; try done.
  - destruct (Is h (Some l) target) as [[]|]; try done.
    destruct (h !! l); [apply IH | done].
  - destruct (Is h (Some l) target) as [[]|]; try done.
    destruct (h !! l); [apply IH | done].
  - apply IH.
Qed.

Lemma chain_has_code_next (h : heap) (e w : error) (rcs : list types_ResultCode) :
  unwrap_of h e = Some w → chain_has_code h w rcs → chain_has_code h e rcs.
Proof.
  intros Hw (e' & c & Hchain & Hcode & Hin). exists e', c. split_and!; [|done..].
  by eapply in_chain_next.
Qed.

Lemma chain_has_code_inv (h : heap) (e : error) (rcs : list types_ResultCode) :
  chain_has_code h e rcs →
  (∃ c, code_of h e = Some c ∧ c ∈ rcs)
  ∨ (∃ w, unwrap_of h e = Some w ∧ chain_has_code h w rcs).
Proof.
  intros (e' & c & Hchain & Hcode & Hin).
  inversion Hchain as [|? w ? Hw Hrest]; simplify_eq.
  - left. by exists c.
  - right. exists w. split; [done|]. by exists e', c.
Qed.

Section SentinelTarget.
Variables (h : heap) (t : loc) (c : AerospikeError) (target : error).
Hypothesis Htarget : target = ptr_AerospikeError t ∨ target = ptr_constAerospikeError t.
Hypothesis Hc : h !! t = Some c.
Hypothesis Hnode : Node c = None.
Hypothesis Hdoubt : InDoubt c = false.

Lemma target_not_nil : target ≠ nil_error.
Proof. by destruct Htarget as [-> | ->]. Qed.

Lemma target_has_code : code_of h target = Some (ResultCode c).
Proof. destruct Htarget as [-> | ->]; simpl; by rewrite Hc. Qed.

(** One step of the walk at an error of this package. *)
Lemma errors_Is_step (fuel : nat) (l : loc) (a : AerospikeError) (e : error) :
  e = ptr_AerospikeError l ∨ e = ptr_constAerospikeError l →
  h !! l = Some a →
  errors_Is (S fuel) h e target =
    if bool_decide (e = target) then Some true
    else if bool_decide (ResultCode a = ResultCode c) then Some true
    else errors_Is fuel h (wrapped a) target.
Proof.
  intros He Ha. cbn [errors_Is].
  rewrite (bool_decide_eq_false_2 (target = nil_error)) by apply target_not_nil.
  destruct (bool_decide (e = target)); [done|].
  destruct He as [-> | ->];
    rewrite (Is_code_only h l t a c target Htarget Ha Hc Hnode Hdoubt);
    destruct (bool_decide (ResultCode a = ResultCode c)); by rewrite ?Ha.
Qed.

(** An answer true is backed by the code of some error in the chain. *)
Lemma errors_Is_sound (fuel : nat) (e : error) :
  errors_Is fuel h e target = Some true → chain_has_code h e [ResultCode c].
Proof.
  revert e. induction fuel as [|fuel IH]; intros e; [done|].
  destruct e as [|l|l|s|s e'].
  - simpl. rewrite (bool_decide_eq_false_2 (target = nil_error)) by apply target_not_nil.
    case_bool_decide as Heq; [|done]. by destruct target_not_nil.
  - destruct (h !! l) as [a|] eqn:Ha.
    + rewrite (errors_Is_step fuel l a) by auto.
      case_bool_decide as Heq.
      { intros _. exists target, (ResultCode c).
        split_and!; [rewrite <- Heq; by constructor | apply target_has_code | by left]. }
      case_bool_decide as Hcode.
      { intros _. exists (ptr_AerospikeError l), (ResultCode a).
        split_and!; [by constructor | simpl; by rewrite Ha | rewrite Hcode; by left]. }
      intros Hrec%IH. eapply chain_has_code_next; [|done]. simpl. by rewrite Ha.
    + simpl. rewrite (bool_decide_eq_false_2 (target = nil_error)) by apply target_not_nil.
      case_bool_decide as Heq.
      { destruct Htarget as [Ht | Ht]; rewrite Ht in Heq; simplify_eq. }
      assert (Is h (Some l) target = None) as ->; [|done].
      destruct Htarget as [-> | ->]; unfold Is; by rewrite Ha.
  - destruct (h !! l) as [a|] eqn:Ha.
    + rewrite (errors_Is_step fuel l a) by auto.
      case_bool_decide as Heq.
      { intros _. exists target, (ResultCode c).
        split_and!; [rewrite <- Heq; by constructor | apply target_has_code | by left]. }
      case_bool_decide as Hcode.
      { intros _. exists (ptr_constAerospikeError l), (ResultCode a).
        split_and!; [by constructor | simpl; by rewrite Ha | rewrite Hcode; by left]. }
      intros Hrec%IH. eapply chain_has_code_next; [|done]. simpl. by rewrite Ha.
    + simpl. rewrite (bool_decide_eq_false_2 (target = nil_error)) by apply target_not_nil.
      case_bool_decide as Heq.
      { destruct Htarget as [Ht | Ht]; rewrite Ht in Heq; simplify_eq. }
      assert (Is h (Some l) target = None) as ->; [|done].
      destruct Htarget as [-> | ->]; unfold Is; by rewrite Ha.
  - simpl. rewrite (bool_decide_eq_false_2 (target = nil_error)) by apply target_not_nil.
    case_bool_decide as Heq; [|done].
    destruct Htarget as [Ht | Ht]; rewrite Ht in Heq; simplify_eq.
  - simpl. rewrite (bool_decide_eq_false_2 (target = nil_error)) by apply target_not_nil.
    case_bool_decide as Heq.
    { destruct Htarget as [Ht | Ht]; rewrite Ht in Heq; simplify_eq. }
    intros Hrec%IH. by eapply chain_has_code_next.
Qed.

(** On a chain that ends the walk returns, and it answers true as soon as
    an error of the chain carries the code. *)
Lemma errors_Is_complete (e : error) :
  chain_ends h e →
  ∃ fuel b, (∀ k, errors_Is (fuel + k) h e target = Some b)
    ∧ (chain_has_code h e [ResultCode c] → b = true).
Proof.
  assert (∀ s : string, bool_decide (errorString s = target) = false) as Hstr.
  { intros s. apply bool_decide_eq_false_2. by destruct Htarget as [-> | ->]. }
  assert (∀ (s : string) (e : error), bool_decide (wrapError s e = target) = false) as Hwrap.
  { intros s e'. apply bool_decide_eq_false_2. by destruct Htarget as [-> | ->]. }
  pose proof target_not_nil as Hnil.
  induction 1 as [|s|s e He (f & b & IH1 & IH2)|l a Ha He (f & b & IH1 & IH2)
                  |l a Ha He (f & b & IH1 & IH2)].
  - exists 1, false. split.
    + intros k. simpl. rewrite (bool_decide_eq_false_2 (target = nil_error)) by done.
      by rewrite bool_decide_eq_false_2 by done.
    + intros [(c' & Hcode & _) | (w & Hw & _)]%chain_has_code_inv; done.
  - exists 1, false. split.
    + intros k. simpl. rewrite (bool_decide_eq_false_2 (target = nil_error)) by done.
      by rewrite Hstr.
    + intros [(c' & Hcode & _) | (w & Hw & _)]%chain_has_code_inv; done.
  - exists (S f), b. split.
    + intros k. simpl. rewrite (bool_decide_eq_false_2 (target = nil_error)) by done.
      rewrite Hwrap. apply IH1.
    + intros [(c' & Hcode & _) | (w & Hw & Hrest)]%chain_has_code_inv; [done|].
      simpl in Hw. simplify_eq. by apply IH2.
  - destruct (decide (ptr_AerospikeError l = target)) as [Heq|Hne].
    { exists 1, true. split; [|done]. intros k. simpl.
      rewrite (bool_decide_eq_false_2 (target = nil_error)) by done.
      by rewrite bool_decide_eq_true_2. }
    destruct (decide (ResultCode a = ResultCode c)) as [Hcode|Hcode].
    { exists 1, true. split; [|done]. intros k.
      replace (1 + k) with (S k) by lia. rewrite (errors_Is_step k l a) by auto.
      rewrite bool_decide_eq_false_2 by done. by rewrite bool_decide_eq_true_2. }
    exists (S f), b. split.
    + intros k. replace (S f + k) with (S (f + k)) by lia.
      rewrite (errors_Is_step _ l a) by auto.
      rewrite !bool_decide_eq_false_2 by done. apply IH1.
    + intros [(c' & Hc' & Hin) | (w & Hw & Hrest)]%chain_has_code_inv.
      * simpl in Hc'. rewrite Ha in Hc'. simplify_eq/=.
        apply list_elem_of_singleton in Hin. done.
      * simpl in Hw. rewrite Ha in Hw. simplify_eq/=. by apply IH2.
  - destruct (decide (ptr_constAerospikeError l = target)) as [Heq|Hne].
    { exists 1, true. split; [|done]. intros k. simpl.
      rewrite (bool_decide_eq_false_2 (target = nil_error)) by done.
      by rewrite bool_decide_eq_true_2. }
    destruct (decide (ResultCode a = ResultCode c)) as [Hcode|Hcode].
    { exists 1, true. split; [|done]. intros k.
      replace (1 + k) with (S k) by lia. rewrite (errors_Is_step k l a) by auto.
      rewrite bool_decide_eq_false_2 by done. by rewrite bool_decide_eq_true_2. }
    exists (S f), b. split.
    + intros k. replace (S f + k) with (S (f + k)) by lia.
      rewrite (errors_Is_step _ l a) by auto.
      rewrite !bool_decide_eq_false_2 by done. apply IH1.
    + intros [(c' & Hc' & Hin) | (w & Hw & Hrest)]%chain_has_code_inv.
      * simpl in Hc'. rewrite Ha in Hc'. simplify_eq/=.
        apply list_elem_of_singleton in Hin. done.
      * simpl in Hw. rewrite Ha in Hw. simplify_eq/=. by apply IH2.
Qed.

End SentinelTarget.

(** X3.  Against a target (an [*AerospikeError] or a sentinel) with no
    node and a clear in-doubt flag, [errors.Is] on an error whose chain
    ends returns, and it answers true exactly when the chain holds an
    error with the result code of the target, sentinels wrapped as they
    are included. *)
Theorem errors_Is_finds_code_in_chain (h : heap) (t : loc) (c : AerospikeError)
    (target e : error) :
  target = ptr_AerospikeError t ∨ target = ptr_constAerospikeError t →
  h !! t = Some c → Node c = None → InDoubt c = false →
  chain_ends h e →
  ∃ fuel b, (∀ k, errors_Is (fuel + k) h e target = Some b)
    ∧ (b = true ↔ chain_has_code h e [ResultCode c]).
Proof.
  intros Ht Hc Hnode Hdoubt Hends.
  destruct (errors_Is_complete h t c target Ht Hc Hnode Hdoubt e Hends)
    as (fuel & b & Hret & Hb).
  exists fuel, b. split; [done|]. split; [|done].
  intros ->. eapply errors_Is_sound; [done..|]. apply (Hret 0).
Qed.

(** *** [newNodeError] *)

(** X4.  [newNodeError(node, err)] returns nil for a nil [err]; for an
    [*AerospikeError] it allocates a copy of the struct with [Node = node]
    that wraps [err], and leaves the struct of [err] as it was: code,
    message, in-doubt flag, iteration and stack frames are those of [err],
    so [Matches] recognises the code and [errors.Is] finds [err]. *)
Theorem newNodeError_copies_and_wraps (node : NodePtr) (l : loc) (a : AerospikeError)
    (h : heap) (fuel : nat) :
  h !! l = Some a →
  let res := mkAerospikeError (ptr_AerospikeError l) (msg a) node (ResultCode a) (InDoubt a)
               (Iteration a) (stackFrames a) in
  newNodeError (S fuel) node (ptr_AerospikeError l) h =
    Some (ptr_AerospikeError (length h), h ++ [res])
  ∧ newNodeError fuel node nil_error h = Some (nil_error, h)
  ∧ (h ++ [res]) !! l = Some a
  ∧ (∀ k rcs, ResultCode a ∈ rcs → Matches (S k) (h ++ [res]) (Some (length h)) rcs = Some true)
  ∧ (∀ k, errors_Is (S (S k)) (h ++ [res]) (ptr_AerospikeError (length h))
            (ptr_AerospikeError l) = Some true).
Proof.
  intros Ha res. pose proof (lookup_fresh_ne _ _ _ Ha) as Hne. split_and!.
  - unfold newNodeError. cbn [errors_As]. run. by rewrite Ha, wrap_fresh.
  - done.
  - by apply lookup_alloc_old.
  - intros k rcs Hin. eapply Matches_own_code; [apply lookup_alloc | done].
  - intros k. cbn [errors_Is]. rewrite bool_decide_eq_false_2 by done.
    rewrite (bool_decide_eq_false_2 (ptr_AerospikeError (length h) = _)) by congruence.
    unfold Is at 1. rewrite lookup_alloc, (lookup_alloc_old _ _ _ _ Ha). simpl.
    destruct (bool_decide (node = Node a) || bool_decide (Node a = None)) eqn:Hn,
      (InDoubt a) eqn:Hd; simpl;
      rewrite ?bool_decide_eq_true_2 by done; simpl; rewrite ?Hn, ?Hd; simpl; try done.
    all: rewrite lookup_alloc; simpl; by rewrite bool_decide_eq_true_2.
Qed.

(** X5.  [newNodeError(node, err)] on a sentinel that wraps nothing:
    [errors.As] does not fill [ae], so the struct copied is the empty one,
    and the error returned has result code 0 and an empty message, not the
    code of the sentinel; [Matches] on it answers false for every list of
    codes without 0. *)
Theorem newNodeError_of_sentinel_has_zero_code (node : NodePtr) (s : loc)
    (c : AerospikeError) (h : heap) (fuel : nat) :
  h !! s = Some c → wrapped c = nil_error →
  let res := mkAerospikeError (ptr_constAerospikeError s) "" node 0 false 0 [] in
  newNodeError (S (S fuel)) node (ptr_constAerospikeError s) h =
    Some (ptr_AerospikeError (length h), h ++ [res])
  ∧ ResultCode res = 0%Z
  ∧ (∀ k rcs, 0%Z ∉ rcs →
       Matches (S (S (S k))) (h ++ [res]) (Some (length h)) rcs = Some false).
Proof.
  intros Hs Hw res. split_and!.
  - unfold newNodeError. cbn [errors_As]. rewrite Hs, Hw. run. by rewrite wrap_fresh.
  - done.
  - intros k rcs Hin. rewrite Matches_unfold, lookup_alloc.
    destruct (bool_decide (length rcs = 0)); [done|].
    destruct (existsb (Z.eqb (ResultCode res)) rcs) eqn:Hex.
    { by apply existsb_eqb_elem in Hex. }
    rewrite decide_False by done. cbn [errors_As wrapped res].
    by rewrite (lookup_alloc_old _ _ _ _ Hs), Hw.
Qed.

(** *** [newGrpcStatusError] *)

Lemma newError_markInDoubt_run (code : types_ResultCode) (messages : list string) (v : bool)
    (h : heap) :
  newError_markInDoubt code messages v h =
    Some (ptr_AerospikeError (length h),
          h ++ [mkAerospikeError nil_error
                  (match messages with
                   | [] => ResultCodeToString code
                   | _ => strings_Join messages " "
                   end) None code v 0 (stackTrace nil_error)]).
Proof.
  unfold newError_markInDoubt. unfold mbind at 1, M_bind. rewrite newError_run.
  unfold receiver, markInDoubt. run. rewrite lookup_alloc. simpl.
  rewrite length_app. simpl. rewrite decide_True by lia. by rewrite insert_alloc.
Qed.

(** X6.  [newGrpcStatusError(res)] allocates one error, with the in-doubt
    flag of the payload, no wrapped error and no node.  A status of zero or
    more is taken as the result code; status -1 gives [COMMON_ERROR];
    status -9 gives [SERVER_ERROR] with the message
    [Server ASYNC_QUEUE_FULL], every other status the name of its code as
    message; a status below -16, or one of -14, -13 and -6, has no case
    and gives [OK]. *)
Theorem newGrpcStatusError_flag_and_code (res : kvs_AerospikeResponsePayload) (h : heap) :
  ∃ a, newGrpcStatusError res h = Some (ptr_AerospikeError (length h), h ++ [a])
    ∧ InDoubt a = GetInDoubt res ∧ wrapped a = nil_error ∧ Node a = None
    ∧ ((0 ≤ GetStatus res)%Z → ResultCode a = GetStatus res)
    ∧ (GetStatus res = (-1)%Z → ResultCode a = COMMON_ERROR)
    ∧ (GetStatus res = (-9)%Z →
         ResultCode a = SERVER_ERROR ∧ msg a = "Server ASYNC_QUEUE_FULL")
    ∧ (GetStatus res ≠ (-9)%Z → msg a = ResultCodeToString (ResultCode a))
    ∧ ((GetStatus res < -16)%Z ∨ GetStatus res ∈ [(-14)%Z; (-13)%Z; (-6)%Z] →
         ResultCode a = OK).
Proof.
  unfold newGrpcStatusError. destruct res as [status inDoubt]. simpl.
  destruct (decide (0 ≤ status)%Z) as [Hpos|Hneg].
  { eexists. split; [apply newError_markInDoubt_run|]. simpl.
    split_and!; try done; try (intros; lia).
    intros [? | Hin]; [lia|].
    rewrite !elem_of_cons, elem_of_nil in Hin. lia. }
  destruct status as [|p|p]; [lia | lia |].
  assert (∀ n : Z, (n < -16)%Z ∨ n ∈ [(-14)%Z; (-13)%Z; (-6)%Z] →
            n = (-14)%Z ∨ n = (-13)%Z ∨ n = (-6)%Z ∨ (n < -16)%Z) as Hsplit.
  { intros n [? | Hin]; [by auto|]. rewrite !elem_of_cons, elem_of_nil in Hin. tauto. }
  do 5 (try destruct p as [p|p|]);
    (eexists; split; [apply newError_markInDoubt_run|]; simpl;
     split_and!; try done; try (intros; lia);
     try (intros [?|[?|[?|?]]]%Hsplit; (done || lia))).
Qed.

(** *** [stackTrace] *)

Lemma stackTrace_loop_frames (n i : nat) (sFrames : list stackFrame) :
  ∃ frames, stackTrace_loop n i sFrames = sFrames ++ frames
    ∧ length frames ≤ n
    ∧ ∀ k sFrame, frames !! k = Some sFrame → runtime_Caller (i + k) = Some sFrame.
Proof.
  revert i sFrames. induction n as [|n IH]; intros i sFrames; simpl.
  - exists []. rewrite app_nil_r. split_and!; [done | done |]. intros k ?. by rewrite lookup_nil.
  - destruct (runtime_Caller i) as [sFrame|] eqn:Hi.
    + destruct (IH (S i) (sFrames ++ [sFrame])) as (frames & -> & Hlen & Hframes).
      exists (sFrame :: frames). rewrite <- app_assoc. split_and!; [done | simpl; lia |].
      intros [|k] fr; simpl.
      * intros [= <-]. by rewrite Nat.add_0_r.
      * intros Hk%Hframes. by replace (i + S k) with (S i + k) by lia.
    + exists []. rewrite app_nil_r. split_and!; [done | simpl; lia |].
      intros k ?. by rewrite lookup_nil.
Qed.

(** X7.  [stackTrace] returns at most 11 frames, the [k]-th being what
    [runtime.Caller(3 + k)] reports; [newError] stores exactly these
    frames. *)
Theorem stackTrace_at_most_11_frames (e : error) (code : types_ResultCode)
    (messages : list string) (h : heap) :
  length (stackTrace e) ≤ 11
  ∧ (∀ k sFrame, stackTrace e !! k = Some sFrame → runtime_Caller (3 + k) = Some sFrame)
  ∧ ∃ l a h', newError code messages h = Some (ptr_AerospikeError l, h')
      ∧ h' !! l = Some a ∧ stackFrames a = stackTrace e ∧ length (stackFrames a) ≤ 11.
Proof.
  assert (length (stackTrace e) ≤ 11
          ∧ (∀ k sFrame, stackTrace e !! k = Some sFrame →
               runtime_Caller (3 + k) = Some sFrame)) as [Hlen Hframes].
  { unfold stackTrace.
    destruct (stackTrace_loop_frames (10 + 1) 3 []) as (frames & -> & Hlen & Hframes).
    simpl. case_bool_decide; [done|]. split; [simpl; lia|]. intros k ?. by rewrite lookup_nil. }
  split_and!; [done..|].
  eexists _, _, _. split; [apply newError_run|]. rewrite lookup_alloc.
  split_and!; [done | done | done].
Qed.

(** *** [Trace] *)

Lemma errors_As_prefix (fuel : nat) (h h' : heap) (e : error) (r : option loc) :
  h `prefix_of` h' → errors_As fuel h e = Some r → errors_As fuel h' e = Some r.
Proof.
  intros Hpre. revert e. induction fuel as [|fuel IH]; intros e; [done|]. simpl.
  destruct e as [|l|l|s|s e']; try done.
  - destruct (h !! l) as [a|] eqn:Ha; [|done].
    rewrite (prefix_lookup_Some _ _ _ _ Ha Hpre). apply IH.
  - apply IH.
Qed.

Lemma Trace_prefix (fuel : nat) (h h' : heap) (l : loc) (t : string) :
  h `prefix_of` h' → Trace fuel h l = Some t → Trace fuel h' l = Some t.
Proof.
  intros Hpre. revert l t. induction fuel as [|fuel IH]; intros l t; [done|]. simpl.
  destruct (h !! l) as [a|] eqn:Ha; [|done].
  rewrite (prefix_lookup_Some _ _ _ _ Ha Hpre). simpl.
  destruct (wrapped a) eqn:Hw; try done.
  all: destruct (errors_As fuel h _) as [[ae|]|] eqn:Has; try done;
    rewrite (errors_As_prefix _ _ _ _ _ Hpre Has); try done.
  all: destruct (Trace fuel h ae) as [t'|] eqn:Ht; [|done];
    by rewrite (IH _ _ Ht).
Qed.

(** X8.  [Trace] of [chainErrors(outer, inner)], for an inner
    [*AerospikeError]: the frames of [outer], one per line, then the line
    [Embedded:], then the trace of [inner], which is what it was before the
    call. *)
Theorem Trace_of_chained_error (h : heap) (outer : error) (l li : loc)
    (a : AerospikeError) (fuel : nat) (t : string) :
  outer = ptr_AerospikeError l ∨ outer = ptr_constAerospikeError l →
  h !! l = Some a →
  Trace fuel h li = Some t →
  ∃ ae h', chainErrors outer (ptr_AerospikeError li) h = Some (ptr_AerospikeError ae, h')
    ∧ Trace (S fuel) h' ae =
        Some (frame_lines a +:+ "Embedded:" +:+ newline +:+ t)
    ∧ Trace fuel h' li = Some t.
Proof.
  intros Ho Ha Ht. eexists _, _. split; [by eapply chainErrors_copy|].
  assert (Trace fuel (h ++ [set_wrapped (ptr_AerospikeError li) a]) li = Some t) as Ht'.
  { eapply Trace_prefix; [|done]. by apply prefix_app_r. }
  split; [|done].
  cbn [Trace]. rewrite lookup_alloc. simpl.
  destruct fuel as [|fuel]; [done|]. cbn [errors_As]. by rewrite Ht'.
Qed.

(** X22.  Two sentinels made by [newConstError] with the same code are
    different pointers, yet [errors.Is] answers true between them, and
    between the copy [err()] makes of the first and either of them: [Is]
    compares result code, node and in-doubt flag, not identity or
    message. *)
Theorem errors_Is_compares_sentinels_by_code (code : types_ResultCode)
    (messages1 messages2 : list string) (h : heap) :
  ∃ s1 s2 v h',
    (sentinel1 ← newConstError code messages1;
     sentinel2 ← newConstError code messages2;
     l ← receiver sentinel1;
     e ← err l;
     mret (sentinel1, sentinel2, e)) h
      = Some ((ptr_constAerospikeError s1, ptr_constAerospikeError s2, ptr_AerospikeError v), h')
    ∧ s1 ≠ s2
    ∧ (∀ fuel, errors_Is (S fuel) h' (ptr_AerospikeError v) (ptr_constAerospikeError s1)
                 = Some true)
    ∧ (∀ fuel, errors_Is (S fuel) h' (ptr_AerospikeError v) (ptr_constAerospikeError s2)
                 = Some true)
    ∧ (∀ fuel, errors_Is (S fuel) h' (ptr_constAerospikeError s1) (ptr_constAerospikeError s2)
                 = Some true)
    ∧ (∀ fuel, Matches (S fuel) h' (Some v) [code] = Some true).
Proof.
  set (m1 := match messages1 with [] => ResultCodeToString code | _ => strings_Join messages1 " " end).
  set (m2 := match messages2 with [] => ResultCodeToString code | _ => strings_Join messages2 " " end).
  set (a1 := mkAerospikeError nil_error m1 None code false 0 []).
  set (a2 := mkAerospikeError nil_error m2 None code false 0 []).
  exists (length h), (S (length h)), (S (S (length h))), (h ++ [a1; a2; a1]).
  assert ((h ++ [a1; a2; a1]) !! length h = Some a1) as H1.
  { by rewrite lookup_app_r, Nat.sub_diag by lia. }
  assert ((h ++ [a1; a2; a1]) !! S (length h) = Some a2) as H2.
  { rewrite lookup_app_r by lia. by replace (S (length h) - length h) with 1 by lia. }
  assert ((h ++ [a1; a2; a1]) !! S (S (length h)) = Some a1) as H3.
  { rewrite lookup_app_r by lia. by replace (S (S (length h)) - length h) with 2 by lia. }
  split_and!.
  - unfold newConstError, receiver. run.
    replace (if bool_decide (length messages1 = 0) then [ResultCodeToString code] else messages1)
      with (match messages1 with [] => [ResultCodeToString code] | _ => messages1 end)
      by by destruct messages1.
    replace (if bool_decide (length messages2 = 0) then [ResultCodeToString code] else messages2)
      with (match messages2 with [] => [ResultCodeToString code] | _ => messages2 end)
      by by destruct messages2.
    assert (strings_Join (match messages1 with [] => [ResultCodeToString code] | _ => messages1 end) " " = m1)
      as -> by by destruct messages1.
    assert (strings_Join (match messages2 with [] => [ResultCodeToString code] | _ => messages2 end) " " = m2)
      as -> by by destruct messages2.
    fold a1 a2.
    rewrite (err_run ((h ++ [a1]) ++ [a2]) (length h) a1).
    2:{ rewrite <- app_assoc. simpl. by rewrite lookup_app_r, Nat.sub_diag by lia. }
    rewrite <- !app_assoc. simpl. rewrite !length_app. simpl.
    by replace (length h + 1) with (S (length h)) by lia;
       replace (length h + 2) with (S (S (length h))) by lia.
  - lia.
  - intros fuel. cbn [errors_Is]. rewrite bool_decide_eq_false_2 by done.
    rewrite bool_decide_eq_false_2 by done.
    erewrite Is_code_only; [|by right|done..]. by rewrite bool_decide_eq_true_2.
  - intros fuel. cbn [errors_Is]. rewrite bool_decide_eq_false_2 by done.
    rewrite bool_decide_eq_false_2 by done.
    erewrite Is_code_only; [|by right|done..]. by rewrite bool_decide_eq_true_2.
  - intros fuel. cbn [errors_Is]. rewrite bool_decide_eq_false_2 by done.
    rewrite bool_decide_eq_false_2 by (intros [=]; lia).
    erewrite Is_code_only; [|by right|done..]. by rewrite bool_decide_eq_true_2.
  - intros fuel. eapply Matches_own_code; [done | by left].
Qed.

Lemma newCustomNodeError_run (node : NodePtr) (code : types_ResultCode)
    (messages : list string) (h : heap) :
  newCustomNodeError node code messages h =
    Some (ptr_AerospikeError (length h),
          h ++ [mkAerospikeError nil_error
                  (match messages with
                   | [] => ResultCodeToString code
                   | _ => strings_Join messages " "
                   end) node code false 0 (stackTrace nil_error)]).
Proof.
  unfold newCustomNodeError. unfold mbind at 1, M_bind. rewrite newError_run.
  unfold receiver, setNode. run. rewrite lookup_app_r, Nat.sub_diag by lia. simpl.
  rewrite decide_True by (rewrite length_app; simpl; lia).
  rewrite insert_app_r_alt, Nat.sub_diag by lia. done.
Qed.

(** X23.  [newCustomNodeError(node, code, messages...)] allocates an error
    with that node and code that wraps nothing, and [Matches] recognises
    the code.  Against an error of the same code with a clear in-doubt flag
    that wraps nothing, [errors.Is] is one-way: it answers true when the
    nodes are equal or the target has none, so the new error is a sentinel
    of its code, while a sentinel is the new error only if [node] is nil or
    the node of the sentinel. *)
Theorem errors_Is_ignores_node_one_way (node : NodePtr) (code : types_ResultCode)
    (messages : list string) (h : heap) (t : loc) (c : AerospikeError) (target : error) :
  target = ptr_AerospikeError t ∨ target = ptr_constAerospikeError t →
  h !! t = Some c → ResultCode c = code → InDoubt c = false → wrapped c = nil_error →
  ∃ a, newCustomNodeError node code messages h
         = Some (ptr_AerospikeError (length h), h ++ [a])
    ∧ Node a = node ∧ ResultCode a = code ∧ InDoubt a = false ∧ wrapped a = nil_error
    ∧ (∀ fuel rcs, code ∈ rcs → Matches (S fuel) (h ++ [a]) (Some (length h)) rcs = Some true)
    ∧ (∀ fuel, errors_Is (S (S fuel)) (h ++ [a]) (ptr_AerospikeError (length h)) target
                 = Some (bool_decide (node = Node c ∨ Node c = None)))
    ∧ (∀ fuel, errors_Is (S (S fuel)) (h ++ [a]) target (ptr_AerospikeError (length h))
                 = Some (bool_decide (Node c = node ∨ node = None))).
Proof.
  intros Htarget Hc Hcode Hdoubt Hwrapped.
  eexists. split; [apply newCustomNodeError_run|].
  set (a := mkAerospikeError _ _ _ _ _ _ _).
  assert (t < length h) as Hlt by (by eapply lookup_lt_Some).
  assert ((h ++ [a]) !! t = Some c) as Hc' by (by rewrite lookup_app_l).
  assert ((h ++ [a]) !! length h = Some a) as Ha
    by (by rewrite lookup_app_r, Nat.sub_diag by lia).
  assert (target ≠ nil_error) as Hnn by (by destruct Htarget as [-> | ->]).
  assert (ptr_AerospikeError (length h) ≠ target) as Hne.
  { destruct Htarget as [-> | ->]; [|done]. intros [= Heq]. lia. }
  split_and!; [done..| | |].
  - intros fuel rcs Hin. by apply (Matches_own_code _ _ _ a).
  - intros fuel. cbn [errors_Is].
    rewrite (bool_decide_eq_false_2 _ Hnn), (bool_decide_eq_false_2 _ Hne).
    assert (Is (h ++ [a]) (Some (length h)) target
            = Some (bool_decide (node = Node c ∨ Node c = None))) as ->.
    { unfold Is. destruct Htarget as [-> | ->]; rewrite Ha, Hc'; simpl;
        rewrite Hdoubt, Hcode; rewrite (bool_decide_eq_true_2 (code = code)) by done; simpl;
        by rewrite bool_decide_or. }
    case_bool_decide; [done|]. rewrite Ha.
    change (wrapped a) with nil_error. cbn [errors_Is].
    by rewrite (bool_decide_eq_false_2 (nil_error = target)).
  - intros fuel.
    assert (Is (h ++ [a]) (Some t) (ptr_AerospikeError (length h))
            = Some (bool_decide (Node c = node ∨ node = None))) as HIs.
    { unfold Is. rewrite Ha, Hc'. simpl. rewrite Hcode.
      rewrite (bool_decide_eq_true_2 (code = code)) by done. simpl.
      by rewrite bool_decide_or. }
    destruct Htarget as [-> | ->]; cbn [errors_Is]; simpl.
    + rewrite (bool_decide_eq_false_2 (ptr_AerospikeError t = ptr_AerospikeError (length h)))
        by (intros [= Heq]; lia).
      rewrite HIs. case_bool_decide; [done|]. rewrite Hc', Hwrapped. done.
    + rewrite HIs. case_bool_decide; [done|]. rewrite Hc', Hwrapped. done.
Qed.

End ConstructorFacts.

(** ** More on [newPartitions], [setReplicaCount], the map and [validate] *)

Section MorePartitionsFacts.
Context {decls : Decls} {runtime : GoRuntime} {globals : Globals}.

(** X9.  [newPartitions(partitionCount, replicaCount, cpMode)] panics
    exactly when a count is negative; otherwise it has [replicaCount] rows
    of [partitionCount] nil nodes each, [partitionCount] regimes that are
    all 0, and [SCMode = cpMode]. *)
Theorem newPartitions_shape (partitionCount replicaCount : Z) (cpMode : bool) :
  (newPartitions partitionCount replicaCount cpMode = None ↔
     (partitionCount < 0)%Z ∨ (replicaCount < 0)%Z)
  ∧ ∀ p, newPartitions partitionCount replicaCount cpMode = Some p →
      SCMode p = cpMode
      ∧ Z.of_nat (length (Replicas p)) = replicaCount
      ∧ Z.of_nat (length (regimes p)) = partitionCount
      ∧ (∀ replica row, Replicas p !! replica = Some row →
           Z.of_nat (length row) = partitionCount
           ∧ ∀ pIndex node, row !! pIndex = Some node → node = None)
      ∧ (∀ pIndex regime, regimes p !! pIndex = Some regime → regime = 0%Z).
Proof.
  destruct (decide (0 ≤ partitionCount)%Z) as [Hpc|Hpc],
    (decide (0 ≤ replicaCount)%Z) as [Hrc|Hrc].
  - rewrite newPartitions_run by done. split; [split; [done | lia]|].
    intros p [= <-]. simpl. rewrite !length_replicate.
    split_and!; [done | lia | lia | |].
    + intros replica row [-> _]%lookup_replicate. rewrite length_replicate.
      split; [lia|]. by intros pIndex node [-> _]%lookup_replicate.
    + by intros pIndex regime [-> _]%lookup_replicate.
  - assert (newPartitions partitionCount replicaCount cpMode = None) as ->.
    { unfold newPartitions, make.
      rewrite (decide_False (P := (0 ≤ replicaCount)%Z)) by done. reflexivity. }
    split; [split; [intros _; lia | done] | done].
  - assert (newPartitions partitionCount replicaCount cpMode = None) as ->.
    { unfold newPartitions, make.
      rewrite (decide_True (P := (0 ≤ replicaCount)%Z)) by done. simpl.
      destruct (Z.to_nat replicaCount) as [|n]; simpl; unfold make;
        rewrite !(decide_False (P := (0 ≤ partitionCount)%Z)) by done; reflexivity. }
    split; [split; [intros _; lia | done] | done].
  - assert (newPartitions partitionCount replicaCount cpMode = None) as ->.
    { unfold newPartitions, make.
      rewrite (decide_False (P := (0 ≤ replicaCount)%Z)) by done. reflexivity. }
    split; [split; [intros _; lia | done] | done].
Qed.

(** X10.  [setReplicaCount]: with the current number of rows it changes
    nothing; applied twice with the same count it does what it does once;
    shrinking to [k] rows and growing back to [n] keeps the first [k] rows
    and puts rows of [_PARTITIONS] nil nodes in place of the others, so
    the rows cut off are lost; on what [newPartitions(_PARTITIONS, r, _)]
    returns it gives [newPartitions(_PARTITIONS, n, _)]; a negative count
    panics. *)
Theorem setReplicaCount_laws (p : Partitions) (k n : nat) :
  setReplicaCount p (Z.of_nat (length (Replicas p))) = Some p
  ∧ (∀ p', setReplicaCount p (Z.of_nat n) = Some p' →
       setReplicaCount p' (Z.of_nat n) = Some p')
  ∧ (k ≤ length (Replicas p) → k ≤ n →
       ∀ p1, setReplicaCount p (Z.of_nat k) = Some p1 →
         setReplicaCount p1 (Z.of_nat n) =
           Some (mkPartitions
                   (take k (Replicas p) ++ replicate (n - k) (replicate _PARTITIONS None))
                   (SCMode p) (regimes p)))
  ∧ (∀ r cpMode p0, newPartitions (Z.of_nat _PARTITIONS) r cpMode = Some p0 →
       setReplicaCount p0 (Z.of_nat n) = newPartitions (Z.of_nat _PARTITIONS) (Z.of_nat n) cpMode)
  ∧ (∀ replicaCount, (replicaCount < 0)%Z → setReplicaCount p replicaCount = None).
Proof.
  assert (∀ q m, length (Replicas q) = m → setReplicaCount q (Z.of_nat m) = Some q) as Hid.
  { intros q m <-. unfold setReplicaCount. rewrite decide_False by lia.
    rewrite decide_True by lia. rewrite Nat2Z.id, firstn_all. by destruct q. }
  split_and!; [..|apply setReplicaCount_negative_panics].
  - by apply Hid.
  - intros p' Hp'.
    destruct (setReplicaCount_grows_or_truncates p n) as (p'' & Hrun & _ & _ & Hlen & _).
    rewrite Hrun in Hp'. simplify_eq. by apply Hid.
  - intros Hk Hkn p1 Hp1.
    destruct (setReplicaCount_grows_or_truncates p k) as (p'' & Hrun & Hsc & Hreg & Hlen & _ & Hcut).
    assert (p'' = p1) as -> by congruence. destruct (Hcut Hk) as [Hrows _].
    destruct (decide (k = n)) as [<- | Hne].
    + rewrite (Hid p1 k Hlen). rewrite Nat.sub_diag. simpl. rewrite app_nil_r.
      destruct p1; simpl in *. by rewrite Hrows, Hreg, Hsc.
    + destruct (setReplicaCount_grows_or_truncates p1 n)
        as (p2 & Hrun2 & Hsc2 & Hreg2 & Hlen2 & Hgrow & _).
      rewrite Hrun2. destruct Hgrow as [Hrows2 _]; [lia|].
      destruct p2; simpl in *. rewrite Hrows2, Hsc2, Hreg2, Hlen, Hrows, Hsc, Hreg. done.
  - intros r cpMode p0 Hp0.
    destruct (decide (0 ≤ r)%Z) as [Hr|Hr].
    2:{ unfold newPartitions, make in Hp0.
        by rewrite (decide_False (P := (0 ≤ r)%Z)) in Hp0. }
    rewrite newPartitions_run in Hp0 by lia. simplify_eq.
    rewrite newPartitions_run by lia. rewrite !Nat2Z.id.
    unfold setReplicaCount. simpl. rewrite length_replicate.
    destruct (decide _) as [Hlt|Hge].
    + rewrite setReplicaCount_extend_app, Nat2Z.id, <- replicate_add.
      do 3 f_equal. lia.
    + rewrite decide_True by lia. rewrite Nat2Z.id, take_replicate. do 3 f_equal. lia.
Qed.

(** X11.  The map of namespaces: [len] counts the keys; [get] after [set]
    on a key finds the value set and after [delete] finds none; [set] adds
    one to [len] only for a new key, [delete] takes one off only for a key
    that is there. *)
Theorem partitionMap_len_counts_keys (pm : partitionMap) (key : string) (value : Partitions) :
  pm_len pm = size pm
  ∧ pm_get (pm_set pm key value) key = Some value
  ∧ pm_get (pm_delete pm key) key = None
  ∧ pm_len (pm_set pm key value) =
      (if pm_get pm key is Some _ then pm_len pm else S (pm_len pm))
  ∧ pm_len (pm_delete pm key) =
      (if pm_get pm key is Some _ then pm_len pm - 1 else pm_len pm).
Proof.
  assert (∀ m : partitionMap, pm_len m = size m) as Hlen.
  { intros m. unfold pm_len.
    assert (∀ (l : list (string * Partitions)) n,
              fold_left (λ n _, S n) l n = n + length l) as Hfold.
    { induction l as [|x l IH]; intros n; simpl; [lia|]. rewrite IH. lia. }
    rewrite Hfold. simpl. by rewrite range_map_perm, length_map_to_list. }
  split_and!.
  - apply Hlen.
  - apply lookup_insert_eq.
  - apply lookup_delete_eq.
  - rewrite !Hlen. unfold pm_get, pm_set. rewrite map_size_insert.
    by destruct (pm !! key).
  - rewrite !Hlen. unfold pm_get, pm_delete. rewrite map_size_delete.
    destruct (pm !! key); simpl; lia.
Qed.

(** *** What [validate] reports *)

Lemma grows_refl (h : heap) (e : error) : grows h e h e.
Proof. by split. Qed.

Lemma grows_trans (h1 h2 h3 : heap) (e1 e2 e3 : error) :
  grows h1 e1 h2 e2 → grows h2 e2 h3 e3 → grows h1 e1 h3 e3.
Proof. intros [Hp1 Hc1] [Hp2 Hc2]. split; [by etrans | auto]. Qed.

Lemma reported_grows (h h' : heap) (e e' : error) (message : string) :
  grows h e h' e' → reported h e message → reported h' e' message.
Proof.
  intros [Hpre Hchain] (l & a & Hl & Ha & Hcode & Hmsg). exists l, a.
  split_and!; [by apply Hchain | by eapply prefix_lookup_Some | done..].
Qed.

Lemma chain_newError_grows (message : string) (errs e : error) (h h' : heap) :
  chain_newError message errs h = Some (e, h') →
  grows h errs h' e ∧ reported h' e message.
Proof.
  destruct (chain_newError_run message errs h) as (l & a & h1 & -> & Hpre & Ha & Hc & Hm & Hw).
  intros [= <- <-]. split.
  - split; [done|]. intros x Hx. eapply in_chain_wrapped; [done|]. rewrite Hw.
    by eapply in_chain_prefix.
  - exists l, a. split_and!; [by constructor | done..].
Qed.

Lemma errs_for_range_validate_node (nsName : string) (replica i : nat) (row : list NodePtr)
    (v : validate_vars) :
  errs (for_range (validate_node nsName replica) i row v) = errs v.
Proof. rewrite for_range_validate_node. by case_bool_decide. Qed.

Lemma validate_replica_grows (nsName : string) (replica : nat) (row : list NodePtr)
    (v v' : validate_vars) (h h' : heap) :
  validate_replica nsName replica row v h = Some (v', h') →
  grows h (errs v) h' (errs v')
  ∧ (length row ≠ _PARTITIONS →
       reported h' (errs v') (partitions_message nsName replica (length row))).
Proof.
  unfold validate_replica. case_bool_decide as Hlen.
  - unfold mbind at 1, M_bind. unfold mbind at 1, M_bind.
    destruct (chain_newError _ (errs v) h) as [[e h1]|] eqn:Hrun; [|done].
    apply chain_newError_grows in Hrun as [Hgrows Hrep].
    intros [= <- <-]. rewrite errs_for_range_validate_node. simpl. by split.
  - intros [= <- <-]. rewrite errs_for_range_validate_node.
    split; [apply grows_refl | done].
Qed.

Lemma for_range_M_validate_replica_grows (nsName : string) (i : nat)
    (rows : list (list NodePtr)) (v v' : validate_vars) (h h' : heap) :
  for_range_M (validate_replica nsName) i rows v h = Some (v', h') →
  grows h (errs v) h' (errs v')
  ∧ ∀ k row, rows !! k = Some row → length row ≠ _PARTITIONS →
      reported h' (errs v') (partitions_message nsName (i + k) (length row)).
Proof.
  revert i v h. induction rows as [|row rows IH]; intros i v h; simpl.
  - intros [= <- <-]. split; [apply grows_refl|]. intros k row. by rewrite lookup_nil.
  - unfold mbind, M_bind.
    destruct (validate_replica nsName i row v h) as [[v1 h1]|] eqn:Hrun; [|done].
    apply validate_replica_grows in Hrun as [Hgrows1 Hrep1].
    intros [Hgrows Hrep]%IH. split; [by eapply grows_trans|].
    intros [|k] row'; simpl.
    + intros [= <-] Hlen. rewrite Nat.add_0_r. eapply reported_grows; [done|]. by apply Hrep1.
    + intros Hrow Hlen. replace (i + S k) with (S i + k) by lia. by apply Hrep.
Qed.

Lemma validate_namespace_grows (nsName : string) (p : Partitions) (v v' : validate_vars)
    (h h' : heap) :
  validate_namespace nsName p v h = Some (v', h') →
  grows h (errs v) h' (errs v')
  ∧ (length (regimes p) ≠ _PARTITIONS →
       reported h' (errs v') (regimes_message nsName (length (regimes p))))
  ∧ ∀ replica row, Replicas p !! replica = Some row → length row ≠ _PARTITIONS →
      reported h' (errs v') (partitions_message nsName replica (length row)).
Proof.
  unfold validate_namespace. case_bool_decide as Hlen.
  - unfold mbind at 1, M_bind. unfold mbind at 1, M_bind.
    destruct (chain_newError _ (errs v) h) as [[e h1]|] eqn:Hrun; [|done].
    apply chain_newError_grows in Hrun as [Hgrows1 Hrep1].
    unfold mret, M_ret.
    intros [Hgrows Hrep]%for_range_M_validate_replica_grows. simpl in *.
    split_and!; [by eapply grows_trans | | done].
    intros _. by eapply reported_grows.
  - unfold mbind at 1, M_bind. unfold mret, M_ret.
    intros [Hgrows Hrep]%for_range_M_validate_replica_grows.
    split_and!; [done | done | done].
Qed.

Lemma for_each_validate_namespace_grows (entries : list (string * Partitions))
    (v v' : validate_vars) (h h' : heap) :
  for_each_M (λ '(nsName, partition), validate_namespace nsName partition) entries v h
    = Some (v', h') →
  grows h (errs v) h' (errs v')
  ∧ ∀ nsName p, (nsName, p) ∈ entries →
      (length (regimes p) ≠ _PARTITIONS →
         reported h' (errs v') (regimes_message nsName (length (regimes p))))
      ∧ ∀ replica row, Replicas p !! replica = Some row → length row ≠ _PARTITIONS →
          reported h' (errs v') (partitions_message nsName replica (length row)).
Proof.
  revert v h. induction entries as [|[ns q] entries IH]; intros v h; simpl.
  - intros [= <- <-]. split; [apply grows_refl|]. by intros ?? ?%elem_of_nil.
  - unfold mbind, M_bind.
    destruct (validate_namespace ns q v h) as [[v1 h1]|] eqn:Hrun; [|done].
    apply validate_namespace_grows in Hrun as (Hgrows1 & Hreg1 & Hrows1).
    intros [Hgrows Hrep]%IH. split; [by eapply grows_trans|].
    intros nsName p [[= -> ->] | Hin]%elem_of_cons; [|by apply Hrep].
    split.
    + intros Hlen. eapply reported_grows; [done|]. by apply Hreg1.
    + intros replica row Hrow Hlen. eapply reported_grows; [done|]. by eapply Hrows1.
Qed.

Lemma for_each_chain_newError_grows {A : Type} (body : A → error → M error)
    (message : A → string) (entries : list A) (errs e : error) (h h' : heap) :
  (∀ x, body x = chain_newError (message x)) →
  for_each_M body entries errs h = Some (e, h') →
  grows h errs h' e ∧ ∀ y, y ∈ entries → reported h' e (message y).
Proof.
  intros Hbody Hrun.
  destruct (for_each_chain_newError body message entries errs h Hbody)
    as (e1 & h1 & Hrun1 & Hpre & _ & Hold & Hnew).
  rewrite Hrun in Hrun1. simplify_eq. split; [by split|].
  intros y (l & a & ?)%Hnew. by exists l, a.
Qed.

Lemma validate_report_grows (v : validate_vars) (e : error) (h h' : heap) :
  validate_report v h = Some (e, h') →
  (∀ x, in_chain h (errs v) x → in_chain h' e x)
  ∧ (∀ message, reported h (errs v) message → reported h' e message)
  ∧ ∀ nsName partitionList,
      replicaNodePartitionNotDefined v !! nsName = Some partitionList →
      reported h' e (replica_message nsName partitionList).
Proof.
  unfold validate_report. unfold mbind at 1, M_bind.
  destruct (for_each_M _ _ (errs v) h) as [[e2 h2]|] eqn:Hrun2; [|done].
  eapply (for_each_chain_newError_grows _
            (λ '(nsName, partitionList), master_message nsName partitionList))
    in Hrun2 as [Hgrows2 _]; [|by intros []].
  unfold mbind at 1, M_bind.
  destruct (for_each_M _ _ e2 h2) as [[e3 h3]|] eqn:Hrun3; [|done].
  eapply (for_each_chain_newError_grows _
            (λ '(nsName, partitionList), replica_message nsName partitionList))
    in Hrun3 as [Hgrows3 Hnew3]; [|by intros []].
  unfold mbind at 1, M_bind.
  destruct (err ErrInvalidPartitionMap h3) as [[s h4]|] eqn:Herr; [|done].
  unfold err, wrap in Herr. run.
  destruct (h3 !! ErrInvalidPartitionMap) as [c|] eqn:Hc; [|done].
  rewrite lookup_alloc in Herr. simpl in Herr. rewrite length_app in Herr. simpl in Herr.
  rewrite decide_True in Herr by lia. rewrite insert_alloc in Herr.
  injection Herr as <- <-.
  intros Hchain.
  assert (grows h3 e3 h' e) as Hgrows4.
  { destruct (decide (e3 = nil_error)) as [-> | He3].
    - split; [|by inversion 1]. injection Hchain as <- <-. by apply prefix_app_r.
    - erewrite chainErrors_copy in Hchain; [|by left|apply lookup_alloc|done].
      injection Hchain as <- <-. split.
      + rewrite <- app_assoc. by apply prefix_app_r.
      + intros x Hx. eapply in_chain_wrapped; [apply lookup_alloc|]. simpl.
        eapply in_chain_prefix; [|done]. rewrite <- app_assoc. by apply prefix_app_r. }
  pose proof (grows_trans _ _ _ _ _ _ Hgrows2 (grows_trans _ _ _ _ _ _ Hgrows3 Hgrows4))
    as Hgrows.
  split_and!.
  - apply Hgrows.
  - intros message. by apply reported_grows.
  - intros nsName partitionList Hm. eapply reported_grows; [exact Hgrows4|].
    apply (Hnew3 (nsName, partitionList)). by apply elem_of_range_map.
Qed.

Lemma foldl_extend_at_lookup (nsName : string) (rows : list (list NodePtr))
    (m : gmap string (list nat)) :
  foldl (λ m row, extend_at nsName (nil_indices 0 row) m) m rows !! nsName =
    match concat (nil_indices 0 <$> rows) with
    | [] => m !! nsName
    | gaps => Some (default [] (m !! nsName) ++ gaps)
    end.
Proof.
  revert m. induction rows as [|row rows IH]; intros m; [done|].
  rewrite fmap_cons. cbn [foldl concat]. rewrite IH, extend_at_lookup.
  destruct (nil_indices 0 row) as [|i l]; [done|].
  destruct (concat (nil_indices 0 <$> rows)) as [|j l']; simpl.
  - by rewrite app_nil_r.
  - by rewrite <- app_assoc.
Qed.

Lemma foldl_extend_at_lookup_ne (nsName ns : string) (rows : list (list NodePtr))
    (m : gmap string (list nat)) :
  nsName ≠ ns →
  foldl (λ m row, extend_at nsName (nil_indices 0 row) m) m rows !! ns = m !! ns.
Proof.
  intros Hne. revert m. induction rows as [|row rows IH]; intros m; simpl; [done|].
  by rewrite IH, extend_at_lookup_ne.
Qed.

Lemma rows_replica_lookup (p : Partitions) (nsName : string) (m : gmap string (list nat)) :
  rows_replica nsName 0 (Replicas p) m !! nsName =
    match replica_gaps p with
    | [] => m !! nsName
    | gaps => Some (default [] (m !! nsName) ++ gaps)
    end.
Proof. unfold rows_replica, replica_gaps. apply foldl_extend_at_lookup. Qed.

Lemma rows_replica_lookup_ne (nsName ns : string) (i : nat) (rows : list (list NodePtr))
    (m : gmap string (list nat)) :
  nsName ≠ ns → rows_replica nsName i rows m !! ns = m !! ns.
Proof. intros Hne. unfold rows_replica. by apply foldl_extend_at_lookup_ne. Qed.

(** The replica list recorded for a namespace holds the gaps of its own
    rows. *)
Lemma for_each_validate_namespace_replica (entries : list (string * Partitions))
    (v v' : validate_vars) (h h' : heap) :
  for_each_M (λ '(nsName, partition), validate_namespace nsName partition) entries v h
    = Some (v', h') →
  (∀ ns, ns ∉ entries.*1 →
     replicaNodePartitionNotDefined v' !! ns = replicaNodePartitionNotDefined v !! ns)
  ∧ (NoDup entries.*1 → ∀ ns p, (ns, p) ∈ entries →
       replicaNodePartitionNotDefined v !! ns = None →
       replicaNodePartitionNotDefined v' !! ns =
         match replica_gaps p with [] => None | gaps => Some gaps end).
Proof.
  revert v h. induction entries as [|[nsName q] entries IH]; intros v h; simpl.
  - intros [= <- <-]. split; [done|]. by intros _ ?? ?%elem_of_nil.
  - destruct (validate_namespace_run nsName q v h) as (e1 & h1 & Hrun & _).
    unfold mbind, M_bind. rewrite Hrun.
    intros [Hother Hmine]%IH.
    cbn [errs masterNodePartitionNotDefined replicaNodePartitionNotDefined] in *.
    split.
    + intros ns [Hne Hnin]%not_elem_of_cons. rewrite Hother by done.
      by apply rows_replica_lookup_ne.
    + intros [Hnin Hnd]%NoDup_cons ns p [[= -> ->] | Hin]%elem_of_cons Hnone.
      * rewrite Hother by done. rewrite rows_replica_lookup, Hnone.
        by destruct (replica_gaps q).
      * assert (nsName ≠ ns) as Hne.
        { intros ->. apply Hnin. apply list_elem_of_fmap. by exists (ns, p). }
        apply (Hmine Hnd ns p Hin). by rewrite rows_replica_lookup_ne.
Qed.

Lemma validate_report_fresh (v : validate_vars) (e : error) (h h' : heap) :
  validate_report v h = Some (e, h') →
  ∃ l, e = ptr_AerospikeError l ∧ length h ≤ l.
Proof.
  unfold validate_report. unfold mbind at 1, M_bind.
  destruct (for_each_M _ _ (errs v) h) as [[e2 h2]|] eqn:Hrun2; [|done].
  eapply (for_each_chain_newError_grows _
            (λ '(nsName, partitionList), master_message nsName partitionList))
    in Hrun2 as [[Hpre2 _] _]; [|by intros []].
  unfold mbind at 1, M_bind.
  destruct (for_each_M _ _ e2 h2) as [[e3 h3]|] eqn:Hrun3; [|done].
  eapply (for_each_chain_newError_grows _
            (λ '(nsName, partitionList), replica_message nsName partitionList))
    in Hrun3 as [[Hpre3 _] _]; [|by intros []].
  apply prefix_length in Hpre2, Hpre3.
  unfold mbind at 1, M_bind.
  destruct (err ErrInvalidPartitionMap h3) as [[s h4]|] eqn:Herr; [|done].
  unfold err, wrap in Herr. run.
  destruct (h3 !! ErrInvalidPartitionMap) as [c|] eqn:Hc; [|done].
  rewrite lookup_alloc in Herr. simpl in Herr. rewrite length_app in Herr. simpl in Herr.
  rewrite decide_True in Herr by lia. rewrite insert_alloc in Herr.
  injection Herr as <- <-.
  destruct (decide (e3 = nil_error)) as [-> | He3].
  - intros [= <- <-]. exists (length h3). split; [done | lia].
  - erewrite chainErrors_copy; [|by left|apply lookup_alloc|done].
    intros [= <- <-]. eexists. split; [done|]. rewrite length_app. simpl. lia.
Qed.

(** Whether every namespace is well formed can be decided. *)
Lemma all_well_formed_dec (pm : partitionMap) :
  (∀ nsName p, pm !! nsName = Some p → well_formed p)
  ∨ ¬ (∀ nsName p, pm !! nsName = Some p → well_formed p).
Proof.
  destruct (decide (∀ nsName p, pm !! nsName = Some p →
              length (regimes p) = _PARTITIONS
              ∧ Forall (λ row, length row = _PARTITIONS ∧ Forall (λ node, node ≠ None) row)
                  (Replicas p))) as [Hall|Hbad].
  - left. intros nsName p Hp. destruct (Hall nsName p Hp) as [Hreg Hrows]. split; [done|].
    intros replica row Hrow. rewrite Forall_lookup in Hrows.
    destruct (Hrows replica row Hrow) as [Hlen Hslots]. split; [done|].
    rewrite Forall_lookup in Hslots. eauto.
  - right. intros Hwf. apply Hbad. intros nsName p Hp.
    destruct (Hwf nsName p Hp) as [Hreg Hrows].
    split; [done|]. apply Forall_lookup. intros replica row Hrow.
    destruct (Hrows replica row Hrow) as [Hlen Hslots]. split; [done|].
    apply Forall_lookup. eauto.
Qed.

(** With the sentinel in place, [validate] returns. *)
Lemma validate_returns (pm : partitionMap) (h : heap) (c : AerospikeError) :
  h !! ErrInvalidPartitionMap = Some c →
  ∃ e h', validate pm h = Some (e, h').
Proof.
  intros Hc. destruct (all_well_formed_dec pm) as [Hwf|Hnwf].
  - exists nil_error, h. by apply (validate_nil_iff pm h).
  - destruct (validate_reports pm h c Hc Hnwf) as (l & a & h' & Hv & _). eauto.
Qed.

(** X12.  With the sentinel [ErrInvalidPartitionMap] allocated,
    [validate] returns on every map and only ever allocates: the heap on
    entry is a prefix of the heap on return.  It returns nil exactly when
    every namespace has [_PARTITIONS] regimes and only rows of
    [_PARTITIONS] non-nil nodes, and then the heap is unchanged; otherwise
    it returns a fresh [*AerospikeError] with the code and the message of
    the sentinel. *)
Theorem validate_total_and_exact (pm : partitionMap) (h : heap) (c : AerospikeError) :
  h !! ErrInvalidPartitionMap = Some c →
  ∃ e h', validate pm h = Some (e, h')
    ∧ h `prefix_of` h'
    ∧ (e = nil_error ↔ ∀ nsName p, pm !! nsName = Some p → well_formed p)
    ∧ (e = nil_error → h' = h)
    ∧ (e ≠ nil_error →
         ∃ l a, e = ptr_AerospikeError l ∧ h !! l = None ∧ h' !! l = Some a
           ∧ ResultCode a = ResultCode c ∧ msg a = msg c).
Proof.
  intros Hc. destruct (validate_nil_iff pm h) as [Hiff Hheap].
  destruct (all_well_formed_dec pm) as [Hwf|Hnwf].
  - exists nil_error, h. split_and!; [by apply Hiff | done | done | done | done].
  - destruct (validate_reports pm h c Hc Hnwf) as (l & a & h' & Hv & Hpre & Ha & Hcode & Hmsg & _).
    exists (ptr_AerospikeError l), h'. split_and!; [done | done | | done |].
    + split; [done|]. intros Hwf. by destruct Hnwf.
    + intros _. exists l, a. split_and!; [done | | done..].
      unfold validate in Hv. unfold mbind at 1, M_bind in Hv.
      destruct (for_each_validate_namespace (range_map pm) (mkVars ∅ ∅ nil_error) h)
        as (v & h1 & Hloop & Hpre1 & _).
      rewrite Hloop in Hv. destruct (_ || _); [|done].
      apply validate_report_fresh in Hv as (l' & [= <-] & Hl).
      apply lookup_ge_None. apply prefix_length in Hpre1. lia.
Qed.

(** X13.  [validate] on a map with a namespace whose regimes do not
    number [_PARTITIONS], or with a replica row that has not [_PARTITIONS]
    slots, returns a non-nil error in whose chain a [COMMON_ERROR] error
    reports the namespace, the row and the length found. *)
Theorem validate_reports_wrong_lengths (pm : partitionMap) (h : heap) (c : AerospikeError)
    (nsName : string) (p : Partitions) :
  h !! ErrInvalidPartitionMap = Some c →
  pm !! nsName = Some p →
  ∃ e h', validate pm h = Some (e, h')
    ∧ (length (regimes p) ≠ _PARTITIONS →
         e ≠ nil_error ∧ reported h' e (regimes_message nsName (length (regimes p))))
    ∧ ∀ replica row, Replicas p !! replica = Some row → length row ≠ _PARTITIONS →
        e ≠ nil_error ∧ reported h' e (partitions_message nsName replica (length row)).
Proof.
  intros Hc Hp.
  destruct (validate_returns pm h c Hc) as (e & h' & Hv).
  exists e, h'. split; [done|].
  unfold validate in Hv. unfold mbind at 1, M_bind in Hv.
  destruct (for_each_M _ (range_map pm) _ h) as [[v h1]|] eqn:Hloop; [|done].
  apply for_each_validate_namespace_grows in Hloop as [_ Hrep].
  destruct (Hrep nsName p) as [Hreg Hrows]; [by apply elem_of_range_map|].
  assert (∀ message, reported h1 (errs v) message → e ≠ nil_error ∧ reported h' e message)
    as Hfinal.
  { intros message Hm.
    assert (errs v ≠ nil_error) as Herrs.
    { destruct Hm as (l & a & Hch & _). intros Hn. rewrite Hn in Hch. inversion Hch; done. }
    rewrite bool_decide_eq_true_2 in Hv by done. simpl in Hv.
    split; [by eapply validate_report_not_nil|].
    apply validate_report_grows in Hv as (_ & Hkeep & _). by apply Hkeep. }
  split.
  - intros Hlen. by apply Hfinal, Hreg.
  - intros replica row Hrow Hlen. by eapply Hfinal, Hrows.
Qed.

(** X14.  [validate] on a map with a namespace that has a nil node in a
    row of replica index above 0 returns a non-nil error in whose chain a
    [COMMON_ERROR] error reports, for that namespace, the number of nil
    slots in those rows taken together. *)
Theorem validate_counts_replica_gaps (pm : partitionMap) (h : heap) (c : AerospikeError)
    (nsName : string) (p : Partitions) :
  h !! ErrInvalidPartitionMap = Some c →
  pm !! nsName = Some p →
  replica_gaps p ≠ [] →
  ∃ e h', validate pm h = Some (e, h')
    ∧ e ≠ nil_error
    ∧ reported h' e (replica_message nsName (replica_gaps p))
    ∧ replica_message nsName (replica_gaps p) =
        "Replica partition nodes not defined for namespace `" +:+ nsName +:+ "`: "
        +:+ pretty (length (replica_gaps p)).
Proof.
  intros Hc Hp Hgaps.
  destruct (validate_returns pm h c Hc) as (e & h' & Hv).
  exists e, h'. split; [done|].
  unfold validate in Hv. unfold mbind at 1, M_bind in Hv.
  destruct (for_each_M _ (range_map pm) _ h) as [[v h1]|] eqn:Hloop; [|done].
  apply for_each_validate_namespace_replica in Hloop as [_ Hmine].
  specialize (Hmine (NoDup_fst_range_map pm) nsName p).
  rewrite elem_of_range_map in Hmine. specialize (Hmine Hp (lookup_empty _)).
  cbn [replicaNodePartitionNotDefined] in Hmine.
  assert (replicaNodePartitionNotDefined v !! nsName = Some (replica_gaps p)) as Hrec.
  { rewrite Hmine. by destruct (replica_gaps p). }
  assert (bool_decide (0 < size (replicaNodePartitionNotDefined v)) = true) as Hsize.
  { apply bool_decide_eq_true_2.
    destruct (decide (size (replicaNodePartitionNotDefined v) = 0)) as [Hz|]; [|lia].
    apply map_size_empty_iff in Hz. rewrite Hz in Hrec. by rewrite lookup_empty in Hrec. }
  rewrite Hsize, orb_true_r in Hv.
  split_and!.
  - by eapply validate_report_not_nil.
  - apply validate_report_grows in Hv as (_ & _ & Hrep). by apply Hrep.
  - done.
Qed.

End MorePartitionsFacts.

(** ** The random number generator *)

Module RandFacts.
Import Rand.

Lemma testbit_uint64_high (x n : Z) : (0 ≤ x < 2 ^ 64)%Z → (64 ≤ n)%Z → Z.testbit x n = false.
Proof.
  intros Hx Hn. rewrite <- (Z.mod_small x (2 ^ 64)) by done.
  apply Z.mod_pow2_bits_high. lia.
Qed.

Lemma lxor_in_range (a b : Z) :
  (0 ≤ a < 2 ^ 64)%Z → (0 ≤ b < 2 ^ 64)%Z → (0 ≤ Z.lxor a b < 2 ^ 64)%Z.
Proof.
  intros Ha Hb.
  assert (Z.lxor a b = Z.lxor a b mod 2 ^ 64)%Z as ->.
  { apply Z.bits_inj'. intros n Hn. destruct (decide (n < 64)%Z).
    - by rewrite Z.mod_pow2_bits_low.
    - rewrite Z.mod_pow2_bits_high by lia.
      rewrite Z.lxor_spec, !testbit_uint64_high by (done || lia). done. }
  apply Z.mod_pos_bound. lia.
Qed.

Lemma shiftr_in_range (a n : Z) : (0 ≤ a < 2 ^ 64)%Z → (0 ≤ n)%Z → (0 ≤ Z.shiftr a n < 2 ^ 64)%Z.
Proof.
  intros Ha Hn. rewrite Z.shiftr_div_pow2 by done. split.
  - apply Z.div_pos; lia.
  - apply Z.div_lt_upper_bound; [lia|]. nia.
Qed.

Lemma uint64_in_range (z : Z) : (0 ≤ uint64 z < 2 ^ 64)%Z.
Proof. apply Z.mod_pos_bound. lia. Qed.

Lemma lxor_cancel_r (a b c : Z) : Z.lxor a c = Z.lxor b c → a = b.
Proof.
  intros H. rewrite <- (Z.lxor_0_r a), <- (Z.lxor_0_r b), <- (Z.lxor_nilpotent c).
  rewrite <- !Z.lxor_assoc. by rewrite H.
Qed.

(** [x ^= x << 23] loses nothing: the low 23 bits are left as they are, and
    each higher bit is mixed with one that is known already. *)
Lemma xor_shiftl_23_injective (x y : Z) :
  (0 ≤ x < 2 ^ 64)%Z → (0 ≤ y < 2 ^ 64)%Z →
  Z.lxor x (uint64 (Z.shiftl x 23)) = Z.lxor y (uint64 (Z.shiftl y 23)) → x = y.
Proof.
  intros Hx Hy Heq. apply Z.bits_inj'. intros n Hn.
  induction n as [n IH] using (well_founded_induction (Z.lt_wf 0)).
  destruct (decide (64 ≤ n)%Z) as [Hhigh|Hlow].
  { by rewrite !testbit_uint64_high. }
  assert (Z.testbit (Z.lxor x (uint64 (Z.shiftl x 23))) n
          = Z.testbit (Z.lxor y (uint64 (Z.shiftl y 23))) n) as Hbit by by rewrite Heq.
  unfold uint64 in Hbit.
  rewrite !Z.lxor_spec, !Z.mod_pow2_bits_low, !Z.shiftl_spec in Hbit by lia.
  destruct (decide (n < 23)%Z) as [Hn'|Hn'].
  - rewrite !(Z.testbit_neg_r _ (n - 23)) in Hbit by lia.
    by rewrite !xorb_false_r in Hbit.
  - rewrite (IH (n - 23)%Z) in Hbit by lia.
    by destruct (Z.testbit x n), (Z.testbit y n), (Z.testbit y (n - 23)).
Qed.

(** [x ^ (x >> 17)] loses nothing either: the high 17 bits are left as they
    are. *)
Lemma xor_shiftr_17_injective (u v : Z) :
  (0 ≤ u < 2 ^ 64)%Z → (0 ≤ v < 2 ^ 64)%Z →
  Z.lxor u (Z.shiftr u 17) = Z.lxor v (Z.shiftr v 17) → u = v.
Proof.
  intros Hu Hv Heq.
  assert (∀ m : nat, ∀ n, (64 - Z.of_nat m ≤ n)%Z → (0 ≤ n)%Z →
            Z.testbit u n = Z.testbit v n) as Hbits.
  { induction m as [|m IH]; intros n Hn Hn0.
    - by rewrite !testbit_uint64_high by lia.
    - destruct (decide (64 - Z.of_nat m ≤ n)%Z) as [|Hlt]; [by apply IH|].
      assert (Z.testbit (Z.lxor u (Z.shiftr u 17)) n
              = Z.testbit (Z.lxor v (Z.shiftr v 17)) n) as Hbit by by rewrite Heq.
      rewrite !Z.lxor_spec, !Z.shiftr_spec in Hbit by lia.
      rewrite (IH (n + 17)%Z) in Hbit by lia.
      by destruct (Z.testbit u n), (Z.testbit v n), (Z.testbit v (n + 17)). }
  apply Z.bits_inj'. intros n Hn. apply (Hbits 64); lia.
Qed.

(** X19.  [Uint64] keeps both words of the generator below [2^64] and
    returns a number below [2^64].  The step on the two words is
    one-to-one: generators that differ differ after the call.  The
    generator with both words 0 is stuck, it returns 0 and stays as it
    is, and no other generator ever reaches it.  [Int64] steps the
    generator the same way and returns the same 64 bits read in two's
    complement. *)
Theorem Uint64_state_is_injective (r1 r2 : Xor128Rand) :
  in_range r1 → in_range r2 →
  in_range (Uint64 r1).2
  ∧ (0 ≤ (Uint64 r1).1 < 2 ^ 64)%Z
  ∧ ((Uint64 r1).2 = (Uint64 r2).2 → r1 = r2)
  ∧ Uint64 (mkXor128Rand 0 0) = (0%Z, mkXor128Rand 0 0)
  ∧ (r1 ≠ mkXor128Rand 0 0 → (Uint64 r1).2 ≠ mkXor128Rand 0 0)
  ∧ (Int64 r1).2 = (Uint64 r1).2
  ∧ (- 2 ^ 63 ≤ (Int64 r1).1 < 2 ^ 63)%Z
  ∧ ((Int64 r1).1 mod 2 ^ 64 = (Uint64 r1).1)%Z.
Proof.
  intros [Ha1 Hb1] [Ha2 Hb2].
  assert (∀ r r', in_range r → in_range r' → (Uint64 r).2 = (Uint64 r').2 → r = r') as Hinj.
  { intros [a b] [a' b'] [Ha Hb] [Ha' Hb']. simpl in *. unfold Uint64. simpl.
    intros [= -> Heq]. f_equal.
    apply lxor_cancel_r in Heq.
    assert (∀ u s, Z.lxor (Z.lxor u b') s = Z.lxor (Z.lxor u s) b') as Hswap.
    { intros u s. rewrite !Z.lxor_assoc. f_equal. apply Z.lxor_comm. }
    rewrite !Hswap in Heq. apply lxor_cancel_r in Heq.
    apply xor_shiftl_23_injective; [done | done |].
    apply xor_shiftr_17_injective; [| | done];
      apply lxor_in_range; (done || apply uint64_in_range). }
  assert (Uint64 (mkXor128Rand 0 0) = (0%Z, mkXor128Rand 0 0)) as Hzero by reflexivity.
  pose proof (uint64_in_range
                (Z.lxor (Z.lxor (Z.lxor (Z.lxor (src_0 r1) (uint64 (Z.shiftl (src_0 r1) 23)))
                                   (src_1 r1))
                           (Z.shiftr (Z.lxor (src_0 r1) (uint64 (Z.shiftl (src_0 r1) 23))) 17))
                   (Z.shiftr (src_1 r1) 26) + src_1 r1)) as Hres.
  refine (conj _ (conj _ (conj _ (conj _ (conj _ (conj _ (conj _ _))))))).
  6: done.
  6:{ unfold Int64, Uint64, int64. cbn [fst snd].
      pose proof (Z.mod_pos_bound
                    (uint64
                       (Z.lxor (Z.lxor (Z.lxor (Z.lxor (src_0 r1) (uint64 (Z.shiftl (src_0 r1) 23)))
                                          (src_1 r1))
                                  (Z.shiftr (Z.lxor (src_0 r1) (uint64 (Z.shiftl (src_0 r1) 23))) 17))
                          (Z.shiftr (src_1 r1) 26) + src_1 r1) + 2 ^ 63) (2 ^ 64)). lia. }
  6:{ unfold Int64, Uint64, int64. cbn [fst snd].
      rewrite Zminus_mod_idemp_l.
      replace (_ + 2 ^ 63 - 2 ^ 63)%Z with
        (uint64
           (Z.lxor (Z.lxor (Z.lxor (Z.lxor (src_0 r1) (uint64 (Z.shiftl (src_0 r1) 23)))
                              (src_1 r1))
                      (Z.shiftr (Z.lxor (src_0 r1) (uint64 (Z.shiftl (src_0 r1) 23))) 17))
              (Z.shiftr (src_1 r1) 26) + src_1 r1)) by lia.
      by apply Z.mod_small. }
  - unfold Uint64, in_range. simpl. split; [done|].
    repeat apply lxor_in_range; try done; try apply uint64_in_range;
      apply shiftr_in_range; try lia; try done.
    apply lxor_in_range; (done || apply uint64_in_range).
  - apply uint64_in_range.
  - by apply Hinj.
  - done.
  - intros Hne Hz. apply Hne. apply Hinj; [done | by split | by rewrite Hzero].
Qed.

(** *** [Read] *)

Lemma put_Some (buf buf' : list Z) (i : nat) (b : Z) :
  put buf i b = Some buf' ↔ i < length buf ∧ buf' = <[i := b]> buf.
Proof.
  unfold put. destruct (decide (i < length buf)); [|by split; [|intros [? _]; lia]].
  split; [by intros [= <-] | by intros [_ ->]].
Qed.

(** What [PutUvarint] writes lies between the start index and the index it
    returns. *)
Lemma PutUvarint_loop_frame (n : nat) (buf buf' : list Z) (i i' : nat) (x : Z) :
  PutUvarint_loop n buf i x = Some (buf', i') →
  length buf' = length buf ∧ i < i' ∧ i' ≤ i + n ∧ i' ≤ length buf
  ∧ ∀ j, j < i ∨ i' ≤ j → buf' !! j = buf !! j.
Proof.
  revert buf i x. induction n as [|n IH]; intros buf i x; [done|]. simpl.
  destruct (decide (128 ≤ x)%Z).
  - destruct (put buf i _) as [buf1|] eqn:Hput; [|done]. simpl.
    apply put_Some in Hput as [Hi ->].
    intros (Hlen & Hlt & Hle & Hle' & Hframe)%IH. rewrite length_insert in *.
    split_and!; [done | lia | lia | done |].
    intros j Hj. rewrite Hframe by lia. apply list_lookup_insert_ne. lia.
  - destruct (put buf i _) as [buf1|] eqn:Hput; [|done]. simpl.
    apply put_Some in Hput as [Hi ->]. intros [= <- <-]. rewrite length_insert.
    split_and!; [done | lia | lia | lia |].
    intros j Hj. apply list_lookup_insert_ne. lia.
Qed.

Lemma PutUvarint_loop_ok (k n : nat) (buf : list Z) (i : nat) (x : Z) :
  (0 ≤ x < 2 ^ (7 * Z.of_nat k))%Z → 1 ≤ k → k ≤ n → i + k ≤ length buf →
  is_Some (PutUvarint_loop n buf i x).
Proof.
  revert n buf i x. induction k as [|k IH]; intros n buf i x Hx Hk Hn Hlen; [lia|].
  destruct n as [|n]; [lia|]. simpl.
  destruct (decide (128 ≤ x)%Z) as [Hbig|Hsmall].
  - unfold put. rewrite (decide_True (P := i < length buf)) by lia. simpl.
    destruct k as [|k]; [simpl in Hx; lia|].
    apply IH; [|lia|lia|rewrite length_insert; lia].
    rewrite Z.shiftr_div_pow2 by lia. split; [apply Z.div_pos; lia|].
    apply Z.div_lt_upper_bound; [lia|]. rewrite <- Z.pow_add_r by lia.
    replace (7 + 7 * Z.of_nat (S k))%Z with (7 * Z.of_nat (S (S k)))%Z by lia. apply Hx.
  - unfold put. rewrite (decide_True (P := i < length buf)) by lia. simpl. by eexists.
Qed.

Lemma PutUvarint_loop_panics (k n : nat) (buf : list Z) (i : nat) (x : Z) :
  (2 ^ (7 * Z.of_nat k) ≤ x)%Z → length buf ≤ i + k →
  PutUvarint_loop n buf i x = None.
Proof.
  revert n buf i x. induction k as [|k IH]; intros n buf i x Hx Hlen.
  - destruct n as [|n]; [done|]. simpl. unfold put.
    rewrite !(decide_False (P := i < length buf)) by lia.
    by destruct (decide (128 ≤ x)%Z).
  - destruct n as [|n]; [done|]. simpl.
    assert (2 ^ 7 * 2 ^ (7 * Z.of_nat k) ≤ x)%Z as Hx'.
    { rewrite <- Z.pow_add_r by lia.
      by replace (7 + 7 * Z.of_nat k)%Z with (7 * Z.of_nat (S k))%Z by lia. }
    assert (0 < 2 ^ (7 * Z.of_nat k))%Z as Hpos by (apply Z.pow_pos_nonneg; lia).
    rewrite (decide_True (P := (128 ≤ x)%Z)) by nia.
    destruct (put buf i _) as [buf1|] eqn:Hput; [|done]. simpl.
    apply put_Some in Hput as [Hi ->].
    apply IH; [|rewrite length_insert; lia].
    rewrite Z.shiftr_div_pow2 by lia. apply Z.div_le_lower_bound; lia.
Qed.

Lemma Uint64_in_range (r : Xor128Rand) : (0 ≤ (Uint64 r).1 < 2 ^ 64)%Z.
Proof. apply uint64_in_range. Qed.

(** A round of [Read] leaves the length, and the bytes from the tenth after
    its index on. *)
Lemma Read_loop_frame (n i : nat) (p p' : list Z) (r r' : Xor128Rand) :
  Read_loop n i p r = Some (p', r') →
  length p' = length p ∧ ∀ j, i + 8 * n + 2 ≤ j → p' !! j = p !! j.
Proof.
  revert i p r. induction n as [|n IH]; intros i p r.
  - by intros [= <- <-].
  - cbn [Read_loop]. destruct (Uint64 r) as [x r1].
    destruct (PutUvarint (drop i p) x) as [[buf i']|] eqn:Hput; [|done]. simpl.
    apply PutUvarint_loop_frame in Hput as (Hlen & Hlt & Hi' & Hle & Hframe).
    rewrite length_drop in Hlen, Hle.
    intros [Hlen' Hframe']%IH.
    rewrite length_app, length_take, Hlen in Hlen'.
    assert (i ≤ length p) as Hi by lia.
    split; [lia|]. intros j Hj. rewrite Hframe' by lia.
    assert (length (take i p) = i) as Htake by (rewrite length_take; lia).
    rewrite lookup_app_r by lia. rewrite Htake.
    rewrite Hframe by lia. rewrite lookup_drop. f_equal. lia.
Qed.

Lemma Read_loop_ok (n i : nat) (p : list Z) (r : Xor128Rand) :
  (1 ≤ n → i + 8 * (n - 1) + 10 ≤ length p) → is_Some (Read_loop n i p r).
Proof.
  revert i p r. induction n as [|n IH]; intros i p r Hlen; [by eexists|].
  cbn [Read_loop]. pose proof (Uint64_in_range r) as Hx. destruct (Uint64 r) as [x r1].
  simpl in Hx.
  destruct (PutUvarint_loop_ok 10 10 (drop i p) 0 x) as [[buf i'] Hput];
    [simpl; lia | lia | lia | rewrite length_drop; lia |].
  unfold PutUvarint. rewrite Hput. simpl.
  apply PutUvarint_loop_frame in Hput as (Hlen' & _).
  apply IH. intros Hn. rewrite length_app, length_take, Hlen', length_drop. lia.
Qed.

(** X20.  [Read] on fewer than 8 bytes writes nothing and does not step
    the generator.  When it returns, it returns [len(p)] and keeps the
    length of [p]; with [t] the number of rounds of its loop, only the
    first [8 * t + 2] bytes can be written, so of a slice of at most 71
    bytes every byte from index 10 on is left as it was. *)
Theorem Read_leaves_most_bytes (p : list Z) (r : Xor128Rand) :
  (length p < 8 → Read p r = Some (length p, p, r))
  ∧ ∀ n p' r', Read p r = Some (n, p', r') →
      n = length p ∧ length p' = length p
      ∧ (∀ j, 8 * ((length p / 8 + 7) / 8) + 2 ≤ j → p' !! j = p !! j)
      ∧ (length p ≤ 71 → drop 10 p' = drop 10 p).
Proof.
  split.
  - intros Hlen. unfold Read. rewrite (Nat.div_small (length p) 8) by done. done.
  - intros n p' r'. unfold Read.
    destruct (Read_loop _ 0 p r) as [[p1 r1]|] eqn:Hloop; [|done]. simpl.
    intros [= <- <- <-]. apply Read_loop_frame in Hloop as [Hlen Hframe].
    split_and!; [done | done | |].
    + intros j Hj. apply Hframe. exact Hj.
    + intros Hle. apply list_eq. intros j. rewrite !lookup_drop. apply Hframe.
      assert (length p / 8 < 9) as Hl.
      { apply Nat.Div0.div_lt_upper_bound. lia. }
      assert ((length p / 8 + 7) / 8 < 2) as HK.
      { apply Nat.Div0.div_lt_upper_bound. revert Hl. generalize (length p / 8). lia. }
      revert HK. generalize ((length p / 8 + 7) / 8). lia.
Qed.

(** X21.  [Read] panics exactly on a slice of 8 bytes when the number
    drawn is [2^56] or more, and on a slice of 9 bytes when it is [2^63]
    or more: [binary.PutUvarint] then writes beyond the slice. *)
Theorem Read_panics_on_8_or_9_bytes (p : list Z) (r : Xor128Rand) :
  Read p r = None ↔
    (length p = 8 ∧ (2 ^ 56 ≤ (Uint64 r).1)%Z) ∨ (length p = 9 ∧ (2 ^ 63 ≤ (Uint64 r).1)%Z).
Proof.
  assert (Read p r = None ↔ Read_loop ((length p / 8 + 7) / 8) 0 p r = None) as ->.
  { unfold Read. destruct (Read_loop _ 0 p r) as [[p1 r1]|]; simpl; split; done. }
  pose proof (Uint64_in_range r) as Hx.
  destruct (decide (length p < 8)) as [Hshort|Hlong].
  { rewrite (Nat.div_small (length p) 8) by done. simpl. split; [done | lia]. }
  destruct (decide (10 ≤ length p)) as [Hten|Hfew].
  { split; [|lia]. intros Hnone.
    destruct (Read_loop_ok ((length p / 8 + 7) / 8) 0 p r) as [? Hsome]; [|congruence].
    intros _. pose proof (Nat.Div0.div_mod (length p) 8) as Hdiv.
    pose proof (Nat.mod_upper_bound (length p) 8 ltac:(lia)) as Hmod.
    pose proof (Nat.Div0.div_mod (length p / 8 + 7) 8) as Hdiv'.
    pose proof (Nat.mod_upper_bound (length p / 8 + 7) 8 ltac:(lia)) as Hmod'.
    lia. }
  assert (length p / 8 = 1) as ->.
  { pose proof (Nat.Div0.div_mod (length p) 8) as Hdiv.
    pose proof (Nat.mod_upper_bound (length p) 8 ltac:(lia)) as Hmod. lia. }
  change ((1 + 7) / 8) with 1. cbn [Read_loop]. destruct (Uint64 r) as [x r1]. simpl in *.
  rewrite drop_0. unfold PutUvarint.
  assert (length p = 8 ∨ length p = 9) as [Hlen|Hlen] by lia.
  - destruct (decide (2 ^ 56 ≤ x)%Z) as [Hbig|Hsmall].
    + rewrite (PutUvarint_loop_panics 8) by (simpl; lia). simpl. split; [auto | done].
    + destruct (PutUvarint_loop_ok 8 10 p 0 x) as [[buf i'] ->]; [simpl; lia | lia..|].
      simpl. split; [done | lia].
  - destruct (decide (2 ^ 63 ≤ x)%Z) as [Hbig|Hsmall].
    + rewrite (PutUvarint_loop_panics 9) by (simpl; lia). simpl. split; [auto | done].
    + destruct (PutUvarint_loop_ok 9 10 p 0 x) as [[buf i'] ->]; [simpl; lia | lia..|].
      simpl. split; [done | lia].
Qed.

End RandFacts.

(** ** The statements at sample inputs *)

Section Examples.
Local Existing Instances Sample.decls Sample.runtime Sample.globals.
Import Sample.

(** Initialising the package puts the sentinel where [Sample.globals] says. *)
Lemma initial_heap_init :
  ErrInvalidPartitionMap_init []
    = Some (ptr_constAerospikeError ErrInvalidPartitionMap, initial_heap).
Proof. reflexivity. Qed.

(** C3 fails on the code.  The chain built by [chain_onto_sentinel] wraps
    the sentinel, whose code is [TIMEOUT]; yet [Matches(TIMEOUT)] on it
    answers false, whatever the bound on nested calls: [errors.As] does not
    stop at a [*constAerospikeError]. *)
Theorem Matches_misses_wrapped_sentinel :
  ∃ h sentinel l,
    chain_onto_sentinel [] = Some ((sentinel, ptr_AerospikeError l), h)
    ∧ in_chain h (ptr_AerospikeError l) sentinel
    ∧ code_of h sentinel = Some TIMEOUT
    ∧ chain_has_code h (ptr_AerospikeError l) [TIMEOUT]
    ∧ (∀ fuel, Matches (3 + fuel) h (Some l) [TIMEOUT] = Some false)
    ∧ (∀ fuel, Matches fuel h (Some l) [TIMEOUT] ≠ Some true).
Proof.
  eexists _, _, _. split; [reflexivity|].
  assert (in_chain
            [mkAerospikeError nil_error "network timeout" None TIMEOUT false 0 [];
             mkAerospikeError nil_error "read failed" None COMMON_ERROR false 0 [];
             mkAerospikeError (ptr_constAerospikeError 0) "read failed" None COMMON_ERROR
               false 0 []]
            (ptr_AerospikeError 2) (ptr_constAerospikeError 0)) as Hchain.
  { eapply in_chain_next; [reflexivity|]. by constructor. }
  split_and!.
  - exact Hchain.
  - reflexivity.
  - eexists _, _. split_and!; [exact Hchain | reflexivity | by left].
  - intros fuel. reflexivity.
  - intros fuel Htrue. apply (Matches_mono _ 3) in Htrue.
    replace (fuel + 3) with (3 + fuel) in Htrue by lia. discriminate Htrue.
Qed.

(** C4 fails as stated: [chainErrors(nil, inner)] does not return an error
    of another package unchanged, it wraps it in a new [COMMON_ERROR]
    error. *)
Lemma chainErrors_nil_wraps_foreign_error :
  ∃ l h, chainErrors nil_error (errorString "EOF") [] = Some (ptr_AerospikeError l, h)
    ∧ ptr_AerospikeError l ≠ errorString "EOF"
    ∧ h ≠ []
    ∧ (ResultCode <$> h !! l) = Some COMMON_ERROR
    ∧ (wrapped <$> h !! l) = Some (errorString "EOF").
Proof. eexists _, _. split; [reflexivity|]. by split_and!. Qed.

(** C1 fails as stated: a [Partitions] with the right number of regimes and
    no replica row passes [validate], and has no node at replica index 0. *)
Lemma validate_accepts_no_replica_row :
  let pm : partitionMap := {[ "test" := mkPartitions [] false (replicate 4096 0%Z) ]} in
  validate pm initial_heap = Some (nil_error, initial_heap)
  ∧ ¬ (∀ nsName p, pm !! nsName = Some p →
         ∀ pIndex, pIndex < _PARTITIONS →
           ∃ row node, Replicas p !! 0 = Some row ∧ row !! pIndex = Some (Some node)).
Proof.
  split; [by vm_compute|].
  intros Hall. destruct (Hall "test" _ eq_refl 0) as (row & node & Hrow & _).
  - unfold _PARTITIONS. simpl. lia.
  - discriminate Hrow.
Qed.

(** A map with one namespace and one full master row passes [validate], and
    partition 7 of that row has a node. *)
Lemma validate_nil_master_defined_witness :
  validate ({[ "test" := one_master_row ]} : partitionMap) initial_heap
    = Some (nil_error, initial_heap)
  ∧ ∃ node, full_row !! 7 = Some (Some node).
Proof.
  assert (validate ({[ "test" := one_master_row ]} : partitionMap) initial_heap
          = Some (nil_error, initial_heap)) as Hv by (vm_compute; reflexivity).
  split; [exact Hv|].
  apply (validate_nil_master_defined _ _ _ "test" one_master_row full_row 7 Hv).
  - reflexivity.
  - reflexivity.
  - unfold _PARTITIONS. simpl. lia.
Defined.

(** A write that was sent sets the flag of a fresh timeout error. *)
Lemma setInDoubt_sets_iff_write_and_sent_witness :
  [timeout_error] !! 0 = Some timeout_error
  ∧ ∃ h', setInDoubt 0 false true [timeout_error] = Some (ptr_AerospikeError 0, h')
      ∧ h' !! 0 = Some (set_InDoubt true timeout_error).
Proof.
  split; [reflexivity|].
  destruct (setInDoubt_sets_iff_write_and_sent [timeout_error] 0 timeout_error false true
              eq_refl) as (h' & Hrun & Hset & _).
  exists h'. split; [exact Hrun|]. apply Hset. split; reflexivity.
Defined.

(** Chaining one error onto another: the result unwraps to the inner one
    and matches its code. *)
Lemma chainErrors_nil_and_chain_witness :
  ∃ ae h', chainErrors (ptr_AerospikeError 0) (ptr_AerospikeError 1)
             [timeout_error; timeout_error] = Some (ptr_AerospikeError ae, h')
    ∧ Unwrap ae h' = Some (ptr_AerospikeError 1, h')
    ∧ Matches 2 h' (Some ae) [TIMEOUT] = Some true.
Proof.
  destruct (chainErrors_nil_and_chain [timeout_error; timeout_error]
              (ptr_AerospikeError 0) (ptr_AerospikeError 1)) as (_ & _ & _ & Hchain).
  destruct (Hchain 0 timeout_error (or_introl eq_refl) eq_refl)
    as (ae & h' & Hrun & _ & _ & Hunwrap & _ & Hinner); [discriminate|].
  exists ae, h'. split; [exact Hrun|]. split; [exact Hunwrap|].
  apply (Hinner 1 timeout_error 0 [TIMEOUT] eq_refl eq_refl). by left.
Defined.

(** Stored regime 5: an update with regime 7 is applied, one with regime 4
    is dropped. *)
Lemma applyRegimeUpdate_accepts_iff_not_stale_witness :
  regimes small_partitions !! 1 = Some 5%Z
  ∧ Replicas small_partitions !! 0 = Some [None; Some 1%positive]
  ∧ 1 < length [@None positive; Some 1%positive]
  ∧ regimes (applyRegimeUpdate small_partitions 0 1 7 (Some 9%positive)) !! 1 = Some 7%Z
  ∧ applyRegimeUpdate small_partitions 0 1 4 (Some 9%positive) = small_partitions.
Proof.
  split_and!; [reflexivity | reflexivity | simpl; lia | |].
  - apply (applyRegimeUpdate_accepts_iff_not_stale small_partitions 0 1 7 5 (Some 9%positive)
             [None; Some 1%positive]); [reflexivity | reflexivity | simpl; lia | lia].
  - apply (applyRegimeUpdate_accepts_iff_not_stale small_partitions 0 1 4 5 (Some 9%positive)
             [None; Some 1%positive]); [reflexivity | reflexivity | simpl; lia | lia].
Defined.

(** The map with the single namespace [test] holding
    [newPartitions(4096, 2, false)]. *)
Lemma validate_newPartitions_4096_witness :
  ({[ "test" := empty_partitions ]} : partitionMap) !! "test" = newPartitions 4096 2 false
  ∧ initial_heap !! ErrInvalidPartitionMap
      = Some invalid_partition_map
  ∧ ∃ l h', validate ({[ "test" := empty_partitions ]} : partitionMap) initial_heap
              = Some (ptr_AerospikeError l, h')
      ∧ Matches 1 h' (Some l) [INVALID_CLUSTER_PARTITION_MAP] = Some true.
Proof.
  assert (({[ "test" := empty_partitions ]} : partitionMap) !! "test"
          = newPartitions 4096 2 false) as Hpm by (vm_compute; reflexivity).
  split; [exact Hpm|]. split; [reflexivity|].
  destruct (validate_newPartitions_4096 (decls := Sample.decls) (runtime := Sample.runtime)
              (globals := Sample.globals) _ "test" false
              initial_heap invalid_partition_map Hpm eq_refl eq_refl)
    as (_ & l & h' & Hv & Hmatches & _).
  exists l, h'. split; [exact Hv | apply Hmatches].
Defined.

(** Cloning the struct of [small_store] and writing a node and a regime
    through the clone: the clone changes, the original does not. *)
Lemma clone_is_independent_copy_witness :
  Mem.view small_store 0 = Some small_store_contents
  ∧ ∃ q σ' σ'',
      Mem.clone 0 small_store = Some (q, σ')
      ∧ Mem.view σ' q = Some small_store_contents
      ∧ Mem.apply_writes q [Mem.to_node 1 1 None; Mem.to_regime 0 9%Z] σ' = Some (tt, σ'')
      ∧ Mem.view σ'' q =
          Some (mkPartitions
                  [[Some 1%positive; None]; [Some 2%positive; None]; [None; None]]
                  true [9%Z; 7%Z])
      ∧ Mem.view σ'' 0 = Some small_store_contents.
Proof.
  split; [reflexivity|].
  destruct (CloneFacts.clone_is_independent_copy small_store 0 small_store_contents eq_refl)
    as (q & σ' & Hclone & _ & Hq & _ & Hthrough_q & _).
  destruct (Mem.apply_writes q [Mem.to_node 1 1 None; Mem.to_regime 0 9%Z] σ')
    as [[[] σ'']|] eqn:Hwrites.
  - exists q, σ', σ''. split; [exact Hclone|]. split; [exact Hq|]. split; [exact Hwrites|].
    split; [|exact (Hthrough_q _ _ Hwrites)].
    vm_compute in Hclone. injection Hclone as <- <-.
    vm_compute in Hwrites. injection Hwrites as <-.
    vm_compute. reflexivity.
  - vm_compute in Hclone. injection Hclone as <- <-.
    vm_compute in Hwrites. discriminate Hwrites.
Defined.

(** Growing a grid of two rows to three. *)
Lemma setReplicaCount_grows_or_truncates_witness :
  ∃ p', setReplicaCount small_partitions 3 = Some p'
    ∧ Replicas p' = Replicas small_partitions ++ [replicate 4096 None].
Proof.
  destruct (setReplicaCount_grows_or_truncates small_partitions 3) as
    (p' & Hrun & _ & _ & _ & Hgrow & _).
  exists p'. split; [exact Hrun|]. apply Hgrow. simpl. lia.
Defined.

(** [ErrInvalidPartitionMap.err()] followed by [setNode] on the copy. *)
Lemma sentinel_context_on_private_copy_witness :
  initial_heap !! 0 = Some invalid_partition_map
  ∧ ∃ v h', err 0 initial_heap = Some (ptr_AerospikeError v, h')
      ∧ initial_heap !! v = None
      ∧ h' !! 0 = initial_heap !! 0
      ∧ ∀ r h'', setNode v (Some 5%positive) h' = Some (r, h'') →
          h'' !! 0 = initial_heap !! 0.
Proof.
  split; [reflexivity|].
  destruct (sentinel_context_on_private_copy initial_heap 0 invalid_partition_map nil_error
              eq_refl)
    as [(v & h' & Herr & Hfresh & _ & _ & Hkept & Hmut) _].
  exists v, h'. split; [exact Herr|]. split; [exact Hfresh|]. split; [exact Hkept|].
  intros r h''. apply (Hmut (by_setNode (Some 5%positive))).
Defined.

(** A full master row and one nil slot in the second row. *)
Lemma validate_nil_needs_every_replica_slot_witness :
  ({[ "test" := one_replica_missing ]} : partitionMap) !! "test" = Some one_replica_missing
  ∧ Replicas one_replica_missing !! 1 = Some (<[7 := None]> full_row)
  ∧ <[7 := None]> full_row !! 7 = Some None
  ∧ ∃ e h', validate ({[ "test" := one_replica_missing ]} : partitionMap) initial_heap
              = Some (e, h') ∧ e ≠ nil_error.
Proof.
  split; [reflexivity|]. split; [reflexivity|]. split; [reflexivity|].
  destruct (validate_nil_needs_every_replica_slot (decls := Sample.decls)
              (runtime := Sample.runtime) (globals := Sample.globals)
              ({[ "test" := one_replica_missing ]} : partitionMap) initial_heap) as [_ Hslot].
  apply (Hslot invalid_partition_map "test" one_replica_missing 1 (<[7 := None]> full_row) 7);
    [reflexivity | reflexivity | reflexivity | lia | reflexivity].
Defined.

End Examples.

(** ** More statements at sample inputs *)

Section MoreExamples.
Local Existing Instances Sample.decls Sample.codes Sample.runtime Sample.globals.

(** [setNode] on [newError(TIMEOUT, "network timeout")]. *)
Lemma mutators_keep_code_and_message_witness :
  ∃ a', mutate (by_setNode (Some 5%positive)) 0 [Sample.timeout_error]
          = Some (ptr_AerospikeError 0, <[0 := a']> [Sample.timeout_error])
    ∧ ResultCode a' = 9%Z ∧ msg a' = "network timeout".
Proof.
  destruct (mutators_keep_code_and_message (by_setNode (Some 5%positive)) 0
              [Sample.timeout_error] Sample.timeout_error eq_refl)
    as (a' & Hrun & Hcode & Hmsg & _).
  exists a'. split; [exact Hrun|]. split; [exact Hcode | exact Hmsg].
Defined.

(** An error that wraps the [TIMEOUT] sentinel as it is: [errors.Is] finds it. *)
Lemma errors_Is_finds_code_in_chain_witness :
  ∃ fuel, ∀ k, errors_Is (fuel + k) Sample.sentinel_chain (ptr_AerospikeError 2)
                 (ptr_constAerospikeError 0) = Some true.
Proof.
  assert (chain_ends Sample.sentinel_chain (ptr_AerospikeError 2)) as Hends.
  { eapply ends_AerospikeError; [reflexivity|]. simpl.
    eapply ends_sentinel; [reflexivity|]. simpl. constructor. }
  destruct (errors_Is_finds_code_in_chain Sample.sentinel_chain 0
              (mkAerospikeError nil_error "network timeout" None 9%Z false 0 [])
              (ptr_constAerospikeError 0) (ptr_AerospikeError 2)
              (or_intror eq_refl) eq_refl eq_refl eq_refl Hends)
    as (fuel & b & Hrun & Hb).
  exists fuel. intros k. rewrite (Hrun k). f_equal. apply Hb.
  exists (ptr_constAerospikeError 0), 9%Z. split_and!.
  - eapply in_chain_next; [reflexivity|]. by constructor.
  - reflexivity.
  - by left.
Defined.

(** [newNodeError] on [newError(TIMEOUT, "network timeout")]. *)
Lemma newNodeError_copies_and_wraps_witness :
  newNodeError 1 (Some 5%positive) (ptr_AerospikeError 0) [Sample.timeout_error]
    = Some (ptr_AerospikeError 1,
            [Sample.timeout_error;
             mkAerospikeError (ptr_AerospikeError 0) "network timeout" (Some 5%positive) 9%Z
               false 0 []]).
Proof.
  apply (newNodeError_copies_and_wraps (Some 5%positive) 0 Sample.timeout_error
           [Sample.timeout_error] 0 eq_refl).
Defined.

(** [newNodeError] on the sentinel [ErrInvalidPartitionMap]. *)
Lemma newNodeError_of_sentinel_has_zero_code_witness :
  newNodeError 2 (Some 5%positive) (ptr_constAerospikeError 0) Sample.initial_heap
    = Some (ptr_AerospikeError 1,
            [Sample.invalid_partition_map;
             mkAerospikeError (ptr_constAerospikeError 0) "" (Some 5%positive) 0%Z false 0 []]).
Proof.
  apply (newNodeError_of_sentinel_has_zero_code (Some 5%positive) 0
           Sample.invalid_partition_map Sample.initial_heap 0 eq_refl eq_refl).
Defined.

(** With no caller recorded, the trace of a chained error is the line
    [Embedded:] alone. *)
Lemma Trace_of_chained_error_witness :
  ∃ ae h', chainErrors (ptr_constAerospikeError 0) (ptr_AerospikeError 1)
             [Sample.invalid_partition_map; Sample.timeout_error]
           = Some (ptr_AerospikeError ae, h')
    ∧ Trace 2 h' ae = Some ("Embedded:" +:+ newline).
Proof.
  destruct (Trace_of_chained_error
              [Sample.invalid_partition_map; Sample.timeout_error]
              (ptr_constAerospikeError 0) 0 1 Sample.invalid_partition_map 1 ""
              (or_intror eq_refl) eq_refl eq_refl)
    as (ae & h' & Hrun & Htrace & _).
  exists ae, h'. split; [exact Hrun|]. rewrite Htrace. reflexivity.
Defined.

(** [validate] on a map with one nil slot in a second row. *)
Lemma validate_total_and_exact_witness :
  ∃ e h', validate ({[ "test" := Sample.one_replica_missing ]} : partitionMap)
            Sample.initial_heap = Some (e, h')
    ∧ Sample.initial_heap `prefix_of` h'.
Proof.
  destruct (validate_total_and_exact (decls := Sample.decls) (runtime := Sample.runtime)
              (globals := Sample.globals)
              ({[ "test" := Sample.one_replica_missing ]} : partitionMap)
              Sample.initial_heap Sample.invalid_partition_map eq_refl)
    as (e & h' & Hrun & Hprefix & _).
  exists e, h'. split; [exact Hrun | exact Hprefix].
Defined.

(** A namespace with two regimes. *)
Lemma validate_reports_wrong_lengths_witness :
  ∃ e h', validate ({[ "test" := Sample.small_partitions ]} : partitionMap)
            Sample.initial_heap = Some (e, h')
    ∧ e ≠ nil_error
    ∧ reported h' e
        "Wrong number of regimes for namespace `test`. Must be 4096, but found 2.".
Proof.
  assert (({[ "test" := Sample.small_partitions ]} : partitionMap) !! "test"
          = Some Sample.small_partitions) as Hpm by (vm_compute; reflexivity).
  destruct (validate_reports_wrong_lengths (decls := Sample.decls) (runtime := Sample.runtime)
              (globals := Sample.globals)
              ({[ "test" := Sample.small_partitions ]} : partitionMap)
              Sample.initial_heap Sample.invalid_partition_map "test" Sample.small_partitions
              eq_refl Hpm)
    as (e & h' & Hrun & Hregimes & _).
  exists e, h'. split; [exact Hrun|]. apply Hregimes. simpl. unfold _PARTITIONS. simpl. lia.
Defined.

(** One nil slot, at partition 7 of the second row. *)
Lemma validate_counts_replica_gaps_witness :
  replica_gaps Sample.one_replica_missing = [7]
  ∧ ∃ e h', validate ({[ "test" := Sample.one_replica_missing ]} : partitionMap)
              Sample.initial_heap = Some (e, h')
      ∧ e ≠ nil_error
      ∧ reported h' e "Replica partition nodes not defined for namespace `test`: 1".
Proof.
  assert (replica_gaps Sample.one_replica_missing = [7]) as Hgaps by (vm_compute; reflexivity).
  split; [exact Hgaps|].
  assert (({[ "test" := Sample.one_replica_missing ]} : partitionMap) !! "test"
          = Some Sample.one_replica_missing) as Hpm by (vm_compute; reflexivity).
  destruct (validate_counts_replica_gaps (decls := Sample.decls) (runtime := Sample.runtime)
              (globals := Sample.globals)
              ({[ "test" := Sample.one_replica_missing ]} : partitionMap)
              Sample.initial_heap Sample.invalid_partition_map "test"
              Sample.one_replica_missing eq_refl Hpm)
    as (e & h' & Hrun & Hne & Hrep & _).
  { rewrite Hgaps. discriminate. }
  exists e, h'. split; [exact Hrun|]. split; [exact Hne|].
  rewrite Hgaps in Hrep. exact Hrep.
Defined.

(** The map with the single namespace [test] bound to the struct of
    [small_store]. *)
Lemma small_store_denotes (ns : string) (p : nat) :
  ({[ "test" := 0 ]} : gmap string nat) !! ns = Some p →
  is_Some (Mem.view Sample.small_store p).
Proof.
  intros [_ <-]%lookup_singleton_Some. by eexists.
Qed.

(** [cleanup] of that map. *)
Lemma cleanup_empties_everything_witness :
  ∃ σ', MemMap.cleanup (runtime := Sample.runtime) ({[ "test" := 0 ]} : gmap string nat)
          Sample.small_store = Some (∅, σ')
    ∧ Mem.view σ' 0 = Some (mkPartitions [] true []).
Proof.
  destruct (MemMapFacts.cleanup_empties_everything (runtime := Sample.runtime)
              ({[ "test" := 0 ]} : gmap string nat) Sample.small_store small_store_denotes)
    as (σ' & Hrun & _ & _ & Hall).
  exists σ'. split; [exact Hrun|].
  destruct (Hall "test" 0) as (pv & Hpv & _ & Hview); [by vm_compute|].
  injection Hpv as <-. exact Hview.
Defined.

(** [clone] of that map. *)
Lemma partitionMap_clone_copies_every_namespace_witness :
  ∃ pm' σ' q, MemMap.partitionMap_clone (runtime := Sample.runtime)
                ({[ "test" := 0 ]} : gmap string nat) Sample.small_store = Some (pm', σ')
    ∧ pm' !! "test" = Some q
    ∧ Mem.view σ' q = Some Sample.small_store_contents
    ∧ Mem.view σ' 0 = Some Sample.small_store_contents.
Proof.
  destruct (MemMapFacts.partitionMap_clone_copies_every_namespace (runtime := Sample.runtime)
              ({[ "test" := 0 ]} : gmap string nat) Sample.small_store small_store_denotes)
    as (pm' & σ' & Hrun & _ & Hall & _).
  destruct (Hall "test" 0) as (q & Hq & _ & Hview_q & Hview_p); [by vm_compute|].
  exists pm', σ', q. split; [exact Hrun|]. split; [exact Hq|].
  split; [exact Hview_q | exact Hview_p].
Defined.

(** [clone], then [cleanup] of the original: the clone is as cloned. *)
Lemma clone_and_cleanup_are_independent_witness :
  ∃ pm' σ1 σ2 q, MemMap.partitionMap_clone (runtime := Sample.runtime)
                   ({[ "test" := 0 ]} : gmap string nat) Sample.small_store = Some (pm', σ1)
    ∧ MemMap.cleanup (runtime := Sample.runtime) ({[ "test" := 0 ]} : gmap string nat) σ1
        = Some (∅, σ2)
    ∧ pm' !! "test" = Some q
    ∧ Mem.view σ2 q = Some Sample.small_store_contents.
Proof.
  destruct (MemMapFacts.clone_and_cleanup_are_independent (runtime := Sample.runtime)
              ({[ "test" := 0 ]} : gmap string nat) Sample.small_store small_store_denotes)
    as (pm' & σ1 & Hrun & (σ2 & Hcleanup & Hall) & _).
  destruct (Hall "test" 0) as (q & Hq & Hview); [by vm_compute|].
  exists pm', σ1, σ2, q. split; [exact Hrun|]. split; [exact Hcleanup|].
  split; [exact Hq | exact Hview].
Defined.

(** The second row of [small_store] starts at offset 2 of its array: its
    slot 1 is nil after [cleanup]. *)
Lemma cleanup_clears_every_node_witness :
  ∃ σ', MemMap.cleanup (runtime := Sample.runtime) ({[ "test" := 0 ]} : gmap string nat)
          Sample.small_store = Some (∅, σ')
    ∧ Mem.arr_read (Mem.nodeArrays σ') (Mem.mkSlice 0 2 2) 1 = Some None.
Proof.
  destruct (MemMapFacts.cleanup_clears_every_node (runtime := Sample.runtime)
              ({[ "test" := 0 ]} : gmap string nat) Sample.small_store small_store_denotes)
    as (σ' & Hrun & Hall).
  exists σ'. split; [exact Hrun|].
  apply (Hall "test" 0 (Mem.mkStruct (Mem.mkSlice 0 0 3) true (Mem.mkSlice 0 1 2)) 1
           (Mem.mkSlice 0 2 2) 1); [by vm_compute | reflexivity | reflexivity | simpl; lia].
Defined.

(** The generators with words 1, 2 and 2, 1. *)
Lemma Uint64_state_is_injective_witness :
  Rand.in_range (Rand.Uint64 (Rand.mkXor128Rand 1 2)).2
  ∧ (Rand.Uint64 (Rand.mkXor128Rand 1 2)).2 ≠ (Rand.Uint64 (Rand.mkXor128Rand 2 1)).2.
Proof.
  assert (Rand.in_range (Rand.mkXor128Rand 1 2)) as H1 by (unfold Rand.in_range; simpl; lia).
  assert (Rand.in_range (Rand.mkXor128Rand 2 1)) as H2 by (unfold Rand.in_range; simpl; lia).
  destruct (RandFacts.Uint64_state_is_injective _ _ H1 H2) as (Hrange & _ & Hinj & _).
  split; [exact Hrange|]. intros Heq. specialize (Hinj Heq). discriminate Hinj.
Defined.

(** An error with a node against a [TIMEOUT] error without one. *)
Lemma errors_Is_ignores_node_one_way_witness :
  ∃ a, newCustomNodeError (Some 5%positive) 9%Z [] [Sample.timeout_error]
         = Some (ptr_AerospikeError 1, [Sample.timeout_error; a])
    ∧ errors_Is 2 [Sample.timeout_error; a] (ptr_AerospikeError 1) (ptr_constAerospikeError 0)
        = Some true
    ∧ errors_Is 2 [Sample.timeout_error; a] (ptr_constAerospikeError 0) (ptr_AerospikeError 1)
        = Some false.
Proof.
  destruct (errors_Is_ignores_node_one_way (Some 5%positive) 9%Z [] [Sample.timeout_error] 0
              Sample.timeout_error (ptr_constAerospikeError 0)
              (or_intror eq_refl) eq_refl eq_refl eq_refl eq_refl)
    as (a & Hrun & _ & _ & _ & _ & _ & Hto & Hfrom).
  exists a. split; [exact Hrun|]. split; [exact (Hto 0) | exact (Hfrom 0)].
Defined.

(** [Matches(TIMEOUT)] on an error that wraps a [TIMEOUT] error. *)
Lemma Matches_exact_on_plain_chain_witness :
  ∃ fuel, ∀ k, Matches (fuel + k) Sample.wrapped_timeout (Some 1) [9%Z] = Some true.
Proof.
  destruct (Matches_exact_on_plain_chain Sample.wrapped_timeout 1
              (mkAerospikeError (ptr_AerospikeError 0) "read failed" None (-17)%Z false 0 [])
              [9%Z] eq_refl
              (plain_AerospikeError Sample.wrapped_timeout 0 Sample.timeout_error eq_refl
                 (plain_nil Sample.wrapped_timeout)))
    as (fuel & b & Hrun & Hb).
  exists fuel. intros k. rewrite (Hrun k). f_equal. apply Hb.
  exists (ptr_AerospikeError 0), 9%Z. split_and!.
  - eapply in_chain_next; [reflexivity|]. by constructor.
  - reflexivity.
  - by left.
Defined.

End MoreExamples.
